(** * Simulating obligations: a shallow embedding of the simulation core

    The development follows the JavaScript sources of the agent and
    obligation simulation: [norms.js] (the norm registry and the default
    enforcement rule), [agent.js] (agents, trust bookkeeping and the
    obligation vector with its arrival-gated [enforce]), [sketch.js]
    (group dynamics, obligation generation and the generation step) and
    [exporter.js] (the per-generation metrics).

    Conventions of the embedding.
    - JavaScript numbers are exact rationals ([Q]); counters, ids and
      generation numbers are naturals.
    - Agents are objects shared by reference: an agent lives in a store
      indexed by locations, and vectors and the population array hold
      locations.  Every reference denotes an object, so the store is a
      total function.
    - A JavaScript [Map] keeps its keys in insertion order; it is an
      association list that [set] updates in place or extends at the end.
    - The random source of p5 is an explicit stream of draws threaded
      through a state monad.
    - A [TypeError] is an abrupt completion; the state reached when it is
      raised is part of the outcome.
    - Motion, rendering, biographies and the batch driver are not part of
      the modelled state. *)

From Stdlib Require Import QArith Qminmax Ascii Lqa.
From stdpp Require Import gmap strings list.

Local Open Scope string_scope.
Local Open Scope list_scope.

(** ** Numbers *)

Definition Qltb (x y : Q) : bool := negb (Qle_bool y x).

(** [x || d] on a number: [d] when [x] is zero, [x] otherwise. *)
Definition num_or (x d : Q) : Q := if Qeq_bool x 0 then d else x.

(** [constrain(x, lo, hi)] of p5. *)
Definition constrain (x lo hi : Q) : Q :=
  if Qltb x lo then lo else if Qltb hi x then hi else x.

(** ** The random source

    A draw of [random()] is a rational in [0,1): the draw with numerator
    [dnum] and gap [dgap] is [dnum / (dnum + dgap + 1)]. *)

Record Draw := mkDraw { dnum : nat; dgap : nat }.

Definition unit_value (d : Draw) : Q :=
  Z.of_nat (dnum d) # Pos.of_succ_nat (dnum d + dgap d).

(** [floor(random() * n)] for a natural [n]. *)
Definition floor_scaled (d : Draw) (n : nat) : nat :=
  (dnum d * n) `div` S (dnum d + dgap d).

Record Rng := mkRng { draws : nat -> Draw; cursor : nat }.

Definition M (A : Type) : Type := Rng -> A * Rng.

Definition ret {A} (a : A) : M A := fun r => (a, r).
Definition bind {A B} (m : M A) (k : A -> M B) : M B :=
  fun r => let (a, r') := m r in k a r'.

Notation "'let*' x ':=' c1 'in' c2" := (bind c1 (fun x => c2))
  (at level 10, x pattern, c1 at level 100, c2 at level 200).

(** One call of [random()]. *)
Definition draw : M Draw :=
  fun r => (draws r (cursor r), mkRng (draws r) (S (cursor r))).

(** [random()]. *)
Definition random0 : M Q := let* d := draw in ret (unit_value d).
(** [random(hi)]. *)
Definition random1 (hi : Q) : M Q := let* d := draw in ret (unit_value d * hi)%Q.
(** [random(lo, hi)]. *)
Definition random2 (lo hi : Q) : M Q :=
  let* d := draw in ret (unit_value d * (hi - lo) + lo)%Q.
(** [floor(random(n))] for a natural [n]. *)
Definition random_floor (n : nat) : M nat :=
  let* d := draw in ret (floor_scaled d n).
(** [random(arr)]: the element at index [floor(random() * arr.length)];
    [dflt] stands for the [undefined] read from an empty array. *)
Definition random_of {A} (dflt : A) (arr : list A) : M A :=
  let* d := draw in ret (nth (floor_scaled d (length arr)) arr dflt).

Fixpoint mapM {A B} (f : A -> M B) (l : list A) : M (list B) :=
  match l with
  | [] => ret []
  | x :: l' => let* y := f x in let* ys := mapM f l' in ret (y :: ys)
  end.

(** ** JavaScript maps keyed by agent id *)

Section JsMap.
Context {V : Type}.

Definition JsMap := list (nat * V).

Fixpoint map_get (k : nat) (m : list (nat * V)) : option V :=
  match m with
  | [] => None
  | (k', v) :: m' => if Nat.eqb k k' then Some v else map_get k m'
  end.

Definition map_has (k : nat) (m : list (nat * V)) : bool :=
  match map_get k m with Some _ => true | None => false end.

Fixpoint map_set (k : nat) (v : V) (m : list (nat * V)) : list (nat * V) :=
  match m with
  | [] => [(k, v)]
  | (k', v') :: m' =>
      if Nat.eqb k k' then (k, v) :: m' else (k', v') :: map_set k v m'
  end.

Definition map_values (m : list (nat * V)) : list V := map snd m.
End JsMap.

Arguments JsMap V : clear implicits.

(** ** Statuses, log entries, agents *)

Inductive Status := pending | fulfilled | denied | expired | repaired.

Global Instance Status_eq_dec : EqDecision Status.
Proof. solve_decision. Defined.

Definition status_eqb (a b : Status) : bool := bool_decide (a = b).

Record LogEntry := mkLogEntry {
  le_status : Status;
  le_norm : string;
  le_from : nat;
  le_to : nat;
  le_generation : nat
}.

Definition loc := nat.

Record Agent := mkAgent {
  id : nat;
  pos : Q * Q;
  acks : gmap string bool;           (* this[`${norm}Acknowledges`] *)
  normPreference : string;
  scenarioGroup : string;
  affiliation : string;
  trustMap : JsMap Q;
  relationalLedger : JsMap Status;
  obligationAttempts : nat;
  obligationSuccesses : nat;
  contradictionDebt : nat;
  internalConflict : nat;
  culturalMomentum : Q;
  birthGeneration : nat
}.

Definition set_trustMap (a : Agent) (m : JsMap Q) : Agent :=
  mkAgent (id a) (pos a) (acks a) (normPreference a) (scenarioGroup a)
    (affiliation a) m (relationalLedger a) (obligationAttempts a)
    (obligationSuccesses a) (contradictionDebt a) (internalConflict a)
    (culturalMomentum a) (birthGeneration a).

Definition set_relationalLedger (a : Agent) (m : JsMap Status) : Agent :=
  mkAgent (id a) (pos a) (acks a) (normPreference a) (scenarioGroup a)
    (affiliation a) (trustMap a) m (obligationAttempts a)
    (obligationSuccesses a) (contradictionDebt a) (internalConflict a)
    (culturalMomentum a) (birthGeneration a).

Definition set_counters (a : Agent) (attempts successes : nat) : Agent :=
  mkAgent (id a) (pos a) (acks a) (normPreference a) (scenarioGroup a)
    (affiliation a) (trustMap a) (relationalLedger a) attempts successes
    (contradictionDebt a) (internalConflict a) (culturalMomentum a)
    (birthGeneration a).

Definition set_conflict_debt (a : Agent) (conflict debt : nat) : Agent :=
  mkAgent (id a) (pos a) (acks a) (normPreference a) (scenarioGroup a)
    (affiliation a) (trustMap a) (relationalLedger a) (obligationAttempts a)
    (obligationSuccesses a) debt conflict (culturalMomentum a)
    (birthGeneration a).

Definition set_affiliation (a : Agent) (g : string) : Agent :=
  mkAgent (id a) (pos a) (acks a) (normPreference a) (scenarioGroup a)
    g (trustMap a) (relationalLedger a) (obligationAttempts a)
    (obligationSuccesses a) (contradictionDebt a) (internalConflict a)
    (culturalMomentum a) (birthGeneration a).

Definition set_scenarioGroup (a : Agent) (g : string) : Agent :=
  mkAgent (id a) (pos a) (acks a) (normPreference a) g
    (affiliation a) (trustMap a) (relationalLedger a) (obligationAttempts a)
    (obligationSuccesses a) (contradictionDebt a) (internalConflict a)
    (culturalMomentum a) (birthGeneration a).

Definition set_normPreference (a : Agent) (n : string) : Agent :=
  mkAgent (id a) (pos a) (acks a) n (scenarioGroup a)
    (affiliation a) (trustMap a) (relationalLedger a) (obligationAttempts a)
    (obligationSuccesses a) (contradictionDebt a) (internalConflict a)
    (culturalMomentum a) (birthGeneration a).

(** [agent[`${norm}Acknowledges`]] as a condition: a missing property is
    [undefined], which is falsy. *)
Definition acknowledges (norm : string) (a : Agent) : bool :=
  default false (acks a !! norm).

(** The store of agent objects. *)
Definition Heap := loc -> Agent.

Definition upd (h : Heap) (l : loc) (a : Agent) : Heap :=
  fun l' => if Nat.eqb l' l then a else h l'.

Definition modify (h : Heap) (l : loc) (f : Agent -> Agent) : Heap :=
  upd h l (f (h l)).

(** [p5.Vector.dist(p, q) < thr]: the distance is the non-negative root of
    the squared distance, so the test is [0 < thr] together with the
    comparison of the squares. *)
Definition dist_lt (p q : Q * Q) (thr : Q) : bool :=
  let dx := (fst p - fst q)%Q in
  let dy := (snd p - snd q)%Q in
  Qltb 0 thr && Qltb (dx * dx + dy * dy) (thr * thr).

(** ** Configuration ([config.js] and the advanced settings of the sketch) *)

Record SimConfig := mkConfig {
  numAgents : nat;
  normTypes : list string;
  (* width and height of the canvas, margins *)
  canvasWidth : Q;
  canvasHeight : Q;
  marginLeft : Q;
  marginRight : Q;
  marginTop : Q;
  marginBottom : Q;
  (* obligation *)
  countMultiplier : nat;
  maxVectors : nat;
  obligationAnimSpeed : option Q;     (* SIM_CONFIG?.obligation?.animSpeed *)
  obligationSpawnJitter : option nat; (* SIM_CONFIG?.obligation?.spawnJitter *)
  (* enforcementRules *)
  expirationBase : nat;
  expirationRandom : nat;
  proximityThreshold : Q;
  (* advancedSettings.proximityThreshold *)
  advancedProximityThreshold : Q;
  (* trustGrowth *)
  trustIncrement : Q;
  trustDecrement : Q;
  (* reproduction *)
  reproductionChance : Q;
  mutationBase : Q;
  maxConflictMutation : Q;
  preferenceInheritance : Q;
  (* death *)
  deathBaseRate : Q;
  deathConflictWeight : Q;
  deathOldAgeBoost : Q;
  deathAgeThreshold : nat;
  repairChance : Q
}.

(** The values of [config.js]; the canvas is the configured default. *)
Definition SIM_CONFIG : SimConfig := {|
  numAgents := 100;
  normTypes := ["legal"; "apriori"; "care"; "epistemic"];
  canvasWidth := 1200; canvasHeight := 800;
  marginLeft := 180; marginRight := 20; marginTop := 50; marginBottom := 150;
  countMultiplier := 2; maxVectors := 500;
  obligationAnimSpeed := None; obligationSpawnJitter := None;
  expirationBase := 10; expirationRandom := 10; proximityThreshold := 150;
  advancedProximityThreshold := 150;
  trustIncrement := 1; trustDecrement := 1;
  reproductionChance := 25 # 100; mutationBase := 5 # 100;
  maxConflictMutation := 1 # 10; preferenceInheritance := 75 # 100;
  deathBaseRate := 5 # 100; deathConflictWeight := 1 # 100;
  deathOldAgeBoost := 5 # 100; deathAgeThreshold := 5;
  repairChance := 1 # 10
|}.

(** ** Obligation vectors

    The fields up to [resolvedAt] are those set by the constructor of
    [agent.js].  [normType], [fulfilled] (here [fulfilled_flag]) and
    [expiration] are the properties that [defaultEnforce] of [norms.js]
    reads and writes, as the earlier class of obligation vectors set
    them; on an object built by the constructor of [agent.js] they are
    [undefined] ([None], and [false] for the flag that is only tested for
    truth). *)

Record ObligationVector := mkVec {
  source : option loc;
  target : option loc;
  strength : Q;
  norm : string;
  status : Status;
  age : nat;
  maxAge : nat;
  animT : Q;
  animSpeed : Q;
  spawnFrame : nat;
  resolveOnArrival : bool;
  resolvedAt : option nat;
  normType : option string;
  fulfilled_flag : bool;              (* vec.fulfilled *)
  expiration : option nat
}.

Definition set_status (v : ObligationVector) (s : Status) : ObligationVector :=
  mkVec (source v) (target v) (strength v) (norm v) s (age v) (maxAge v)
    (animT v) (animSpeed v) (spawnFrame v) (resolveOnArrival v) (resolvedAt v)
    (normType v) (fulfilled_flag v) (expiration v).

Definition set_age (v : ObligationVector) (n : nat) : ObligationVector :=
  mkVec (source v) (target v) (strength v) (norm v) (status v) n (maxAge v)
    (animT v) (animSpeed v) (spawnFrame v) (resolveOnArrival v) (resolvedAt v)
    (normType v) (fulfilled_flag v) (expiration v).

Definition set_animT (v : ObligationVector) (t : Q) : ObligationVector :=
  mkVec (source v) (target v) (strength v) (norm v) (status v) (age v) (maxAge v)
    t (animSpeed v) (spawnFrame v) (resolveOnArrival v) (resolvedAt v)
    (normType v) (fulfilled_flag v) (expiration v).

Definition set_resolvedAt (v : ObligationVector) (f : nat) : ObligationVector :=
  mkVec (source v) (target v) (strength v) (norm v) (status v) (age v) (maxAge v)
    (animT v) (animSpeed v) (spawnFrame v) (resolveOnArrival v) (Some f)
    (normType v) (fulfilled_flag v) (expiration v).

Definition set_fulfilled_flag (v : ObligationVector) (b : bool) : ObligationVector :=
  mkVec (source v) (target v) (strength v) (norm v) (status v) (age v) (maxAge v)
    (animT v) (animSpeed v) (spawnFrame v) (resolveOnArrival v) (resolvedAt v)
    (normType v) b (expiration v).

(** [new ObligationVector(source, target, strength, norm)] of [agent.js];
    [frameCount] is the frame counter of p5.  The three draws are the
    jitter of the expiration, of the animation speed and of the spawn
    frame, in this order. *)
Definition new_ObligationVector (cfg : SimConfig) (frameCount : nat)
    (src tgt : loc) (str : Q) (n : string) : M ObligationVector :=
  let* jitterAge := random_floor (expirationRandom cfg) in
  let* speedJitter := random1 (6 # 10) in
  let baseSpeed := default (35 # 1000) (obligationAnimSpeed cfg) in
  let jitter := default 24%nat (obligationSpawnJitter cfg) in
  let* spawnJitter := random_floor jitter in
  ret {| source := Some src; target := Some tgt; strength := str; norm := n;
         status := pending; age := 0;
         maxAge := expirationBase cfg + jitterAge;
         animT := 0;
         animSpeed := (baseSpeed * ((7 # 10) + speedJitter))%Q;
         spawnFrame := frameCount + spawnJitter;
         resolveOnArrival := true; resolvedAt := None;
         normType := None; fulfilled_flag := false; expiration := None |}.

(** ** The world an enforcement step acts on *)

Record World := mkWorld {
  heap : Heap;
  obligationLog : list LogEntry
}.

Definition log_push (w : World) (e : LogEntry) : World :=
  mkWorld (heap w) (obligationLog w ++ [e]).

Definition with_heap (w : World) (h : Heap) : World :=
  mkWorld h (obligationLog w).

(** How a call completes: normally, with the returned value read as a
    status name ([None] for [undefined] and every other value), or by a
    [TypeError]. *)
Inductive Completion := Normal (result : option Status) | TypeError.

Record Outcome := mkOutcome {
  o_vec : ObligationVector;
  o_world : World;
  o_completion : Completion
}.

(** ** The norm registry ([norms.js])

    An enforcement function is either the closure
    [(vec, state) => defaultEnforce(vec, state)] of the built-in norms or
    a function supplied at registration. *)

Inductive EnforceImpl :=
  | UseDefault
  | Custom (f : ObligationVector -> nat -> World -> M Outcome).

Record NormDef := mkNorm {
  color : list nat;
  enforceFn : option EnforceImpl;
  acknowledgeFn : Agent -> bool
}.

Definition normRegistry : gmap string NormDef :=
  <["epistemic" := mkNorm [255; 165; 0] (Some UseDefault) (acknowledges "epistemic")]>
  (<["care" := mkNorm [0; 150; 0] (Some UseDefault) (acknowledges "care")]>
  (<["apriori" := mkNorm [0; 0; 255] (Some UseDefault) (acknowledges "apriori")]>
  (<["legal" := mkNorm [128; 0; 128] (Some UseDefault) (acknowledges "legal")]> ∅))).


(** ** Trust bookkeeping ([Agent.recordTrust]) *)

(** [trustMap.get(id) || 0]. *)
Definition trust_of (m : JsMap Q) (k : nat) : Q :=
  match map_get k m with
  | Some x => num_or x 0
  | None => 0
  end.

Definition recordTrust (cfg : SimConfig) (targetID : nat) (ok : bool)
    (a : Agent) : Agent :=
  let current := trust_of (trustMap a) targetID in
  let delta := if ok then trustIncrement cfg else (- trustDecrement cfg)%Q in
  set_trustMap a (map_set targetID (current + delta)%Q (trustMap a)).

Definition ledger_set (k : nat) (s : Status) (a : Agent) : Agent :=
  set_relationalLedger a (map_set k s (relationalLedger a)).

(** ** [defaultEnforce] of [norms.js] *)

(** The property key that [normRegistry[vec.normType]] reads. *)
Definition registry_key (o : option string) : string := default "undefined" o.

Definition defaultEnforce (cfg : SimConfig) (reg : gmap string NormDef)
    (generation : nat) (vec : ObligationVector) (w : World) : Outcome :=
  match source vec, target vec with
  | Some s, Some t =>
      let proximity := proximityThreshold cfg in
      let near := dist_lt (pos (heap w s)) (pos (heap w t)) proximity in
      let n := registry_key (normType vec) in
      match reg !! n with
      | None => mkOutcome vec w TypeError
      | Some d =>
          let src := heap w s in
          let tgt := heap w t in
          let entry st := mkLogEntry st n (id src) (id tgt) generation in
          if negb (acknowledgeFn d src) || negb (acknowledgeFn d tgt) then
            (* Check acknowledgments *)
            if negb (map_has (id tgt) (relationalLedger src)) then
              mkOutcome vec
                (log_push (with_heap w (modify (heap w) s (ledger_set (id tgt) denied)))
                          (entry denied))
                (Normal None)
            else mkOutcome vec w (Normal None)
          else if negb (fulfilled_flag vec) &&
                  match expiration vec with
                  | Some e => Nat.leb e (age vec)
                  | None => false
                  end then
            (* Expiration *)
            if negb (map_has (id tgt) (relationalLedger src)) then
              mkOutcome vec
                (log_push (with_heap w (modify (heap w) s (ledger_set (id tgt) expired)))
                          (entry expired))
                (Normal None)
            else mkOutcome vec w (Normal None)
          else if near && negb (fulfilled_flag vec) then
            (* Fulfilment *)
            let fulfil (a : Agent) : Agent :=
              let a1 := set_counters a (S (obligationAttempts a))
                                       (S (obligationSuccesses a)) in
              let currentTrust := trust_of (trustMap a1) (id tgt) in
              let a2 := set_trustMap a1
                          (map_set (id tgt) (currentTrust + trustIncrement cfg)%Q
                                   (trustMap a1)) in
              ledger_set (id tgt) fulfilled a2 in
            mkOutcome (set_age (set_fulfilled_flag vec true) (S (age vec)))
              (log_push (with_heap w (modify (heap w) s fulfil)) (entry fulfilled))
              (Normal None)
          else
            (* only the force is applied and the vector ages *)
            mkOutcome (set_age vec (S (age vec))) w (Normal None)
      end
  | _, _ => mkOutcome vec w TypeError
  end.

(** The call [enforceFn(vec, state)] for an entry of the registry. *)
Definition call_enforceFn (cfg : SimConfig) (reg : gmap string NormDef)
    (impl : EnforceImpl) (vec : ObligationVector) (generation : nat)
    (w : World) : M Outcome :=
  match impl with
  | UseDefault => ret (defaultEnforce cfg reg generation vec w)
  | Custom f => f vec generation w
  end.

(** [enforce(state)] of the obligation vector class that carries
    [normType], [fulfilled] and [expiration] (the earlier [agent.js]): the
    step is handed to the enforcement function of the registry entry, or
    to [defaultEnforce] when there is none. *)
Definition enforce_delegating (cfg : SimConfig) (reg : gmap string NormDef)
    (generation : nat) (vec : ObligationVector) (w : World) : M Outcome :=
  match reg !! registry_key (normType vec) with
  | Some d =>
      match enforceFn d with
      | Some impl => call_enforceFn cfg reg impl vec generation w
      | None => ret (defaultEnforce cfg reg generation vec w)
      end
  | None => ret (defaultEnforce cfg reg generation vec w)
  end.

(** ** [ObligationVector] of [agent.js] *)

Definition stepAnimation (frameCount : nat) (v : ObligationVector)
    : ObligationVector :=
  if Nat.ltb frameCount (spawnFrame v) then v
  else if Qltb (animT v) 1
       then set_animT v (Qmin 1 (animT v + animSpeed v))
       else v.

(** The bookkeeping shared by the two resolutions of [enforce]: ledger,
    trust of both parties, log entry and the frame of resolution. *)
Definition resolve_bookkeeping (cfg : SimConfig) (frameCount generation : nat)
    (s t : loc) (v : ObligationVector) (w : World) : ObligationVector * World :=
  let ok := status_eqb (status v) fulfilled in
  let h1 := modify (heap w) s (ledger_set (id (heap w t)) (status v)) in
  let h2 := modify h1 s (recordTrust cfg (id (h1 t)) ok) in
  let h3 := modify h2 t (recordTrust cfg (id (h2 s)) ok) in
  let e := mkLogEntry (status v) (norm v) (id (h3 s)) (id (h3 t)) generation in
  (set_resolvedAt v frameCount, log_push (with_heap w h3) e).

(** The last block of [enforce]: counters and bookkeeping once the status
    is ['fulfilled'] or ['denied']. *)
Definition settle (cfg : SimConfig) (frameCount generation : nat)
    (v : ObligationVector) (w : World) : Outcome :=
  if status_eqb (status v) fulfilled || status_eqb (status v) denied then
    match source v, target v with
    | Some s, Some t =>
        let bump (a : Agent) : Agent :=
          set_counters a (S (obligationAttempts a))
            (if status_eqb (status v) fulfilled
             then S (obligationSuccesses a) else obligationSuccesses a) in
        let w1 := with_heap w (modify (heap w) s bump) in
        let (v', w') := resolve_bookkeeping cfg frameCount generation s t v w1 in
        mkOutcome v' w' (Normal None)
    | _, _ => mkOutcome v w TypeError
    end
  else mkOutcome v w (Normal None).

(** Is the returned value one of ['fulfilled'], ['denied'], ['pending']? *)
Definition canonical (r : option Status) : option Status :=
  match r with
  | Some fulfilled => Some fulfilled
  | Some denied => Some denied
  | Some pending => Some pending
  | _ => None
  end.

Definition enforce (cfg : SimConfig) (reg : gmap string NormDef)
    (frameCount generation : nat) (v : ObligationVector) (w : World)
    : M Outcome :=
  match source v, target v with
  | Some s, Some t =>
      match status v with
      | pending =>
          (* always age while pending *)
          let v1 := set_age v (S (age v)) in
          if Nat.ltb (maxAge v1) (age v1) then
            let (v2, w2) :=
              resolve_bookkeeping cfg frameCount generation s t
                (set_status v1 expired) w in
            ret (mkOutcome v2 w2 (Normal None))
          else
            let v2 := stepAnimation frameCount v1 in
            (* gate resolution until the line arrives *)
            if resolveOnArrival v2 && Qltb (animT v2) 1 then
              ret (mkOutcome v2 w (Normal None))
            else
              let impl :=
                match reg !! norm v2 with
                | Some d => default UseDefault (enforceFn d)
                | None => UseDefault
                end in
              let* r := call_enforceFn cfg reg impl v2 generation w in
              match o_completion r with
              | TypeError => ret r
              | Normal result =>
                  let v3 := o_vec r in
                  let w3 := o_world r in
                  match canonical result with
                  | Some st => ret (settle cfg frameCount generation (set_status v3 st) w3)
                  | None =>
                      match source v3, target v3 with
                      | Some s3, Some t3 =>
                          let proximityOK :=
                            dist_lt (pos (heap w3 s3)) (pos (heap w3 t3))
                                    (num_or (proximityThreshold cfg) 150) in
                          let ackOK :=
                            acknowledges (norm v3) (heap w3 s3) &&
                            acknowledges (norm v3) (heap w3 t3) in
                          let p := ((strength v3 * (if proximityOK then 1 else 6 # 10))
                                    * (if ackOK then 1 else 5 # 10))%Q in
                          let* u := random0 in
                          ret (settle cfg frameCount generation
                                 (set_status v3 (if Qltb u p then fulfilled else denied))
                                 w3)
                      | _, _ => ret (mkOutcome v3 w3 TypeError)
                      end
                  end
              end
      | _ => ret (mkOutcome v w (Normal None))
      end
  | _, _ => ret (mkOutcome v w (Normal None))
  end.

(** ** Agents: construction and ledger-derived metrics ([agent.js]) *)

(** [updateConflictAndDebt]: both metrics are recomputed from the ledger. *)
Definition count_status (s : Status) (l : list Status) : nat :=
  length (filter (fun x => x = s) l).

Definition updateConflictAndDebt (a : Agent) : Agent :=
  let vals := map_values (relationalLedger a) in
  set_conflict_debt a (count_status denied vals)
    (count_status denied vals + count_status expired vals).

(** [new Agent(id)].  Draws for properties outside the modelled state
    (vulnerability, wander direction, role, temperament, moral stance,
    memory length) are consumed where the constructor makes them. *)
Definition draw_acks (norms : list string) : M (gmap string bool) :=
  let* bs := mapM (fun n => let* u := random0 in ret (n, Qltb (5 # 10) u)) norms in
  ret (fold_left (fun m nb => <[fst nb := snd nb]> m) bs ∅).

Definition new_Agent (cfg : SimConfig) (i : nat) : M Agent :=
  let* x := random2 (marginLeft cfg) (canvasWidth cfg - marginRight cfg) in
  let* y := random2 (marginTop cfg) (canvasHeight cfg - marginBottom cfg) in
  let* _ := draw in                     (* vulnerability *)
  let* _ := draw in                     (* wander *)
  let* ak := draw_acks (normTypes cfg) in
  let* pref := random_of "undefined" (normTypes cfg) in
  let* momentum := random2 (3 # 10) 1 in
  let* _ := draw in                     (* role *)
  let* _ := draw in                     (* temperament *)
  let* _ := draw in                     (* moralStance *)
  let* _ := draw in                     (* memoryLength *)
  ret {| id := i; pos := (x, y); acks := ak;
         normPreference := pref; scenarioGroup := pref;
         affiliation := String.append "pref_" pref;
         trustMap := []; relationalLedger := [];
         obligationAttempts := 0; obligationSuccesses := 0;
         contradictionDebt := 0; internalConflict := 0;
         culturalMomentum := momentum; birthGeneration := 0 |}.

(** ** The metrics of a generation ([logGeneration] of [exporter.js]) *)

Record Metrics := mkMetrics {
  m_generation : nat;
  avgConflict : Q;
  avgDebt : Q;
  totalObligationsIssued : nat;
  totalFulfilled : nat;
  totalDenied : nat;
  totalExpired : nat;
  totalRepaired : nat;
  fulfillmentRate : Q;
  avgRI : Q;
  repairEvents : nat;
  emergentNorms : nat
}.

(** A string as a condition: the empty string is falsy. *)
Definition truthy (s : string) : bool := negb (String.eqb s EmptyString).

(** [a / b] for two counters, [0] when [b] is [0] (the guard of the
    conditional expression in the source). *)
Definition ratio (a b : nat) : Q :=
  if Nat.ltb 0 b then (inject_Z (Z.of_nat a) / inject_Z (Z.of_nat b))%Q else 0.

(** The counters of the loops of [logGeneration]: the per-agent counts of
    the inner loop together with the running cross-group counts, and the
    totals of the outer loop. *)
Record Tally := mkTally {
  fulfilledCount : nat;
  deniedCount : nat;
  expiredCount : nat;
  repairedCount : nat;
  interTotal : nat;
  interDenied : nat
}.

Record Totals := mkTotals {
  sumIssued : nat;
  sumFulfilled : nat;
  sumDenied : nat;
  sumExpired : nat;
  sumRepaired : nat;
  sumDebt : nat;
  sumInterTotal : nat;
  sumInterDenied : nat
}.

Definition bump (b : bool) (n : nat) : nat := if b then S n else n.

(** The body of the inner loop, for one ledger entry of [agent]. *)
Definition tally_entry (all : list Agent) (agent : Agent) (c : Tally)
    (e : nat * Status) : Tally :=
  let (targetID, st) := e in
  let cross :=
    match find (fun b => Nat.eqb (id b) targetID) all with
    | Some tgt =>
        truthy (affiliation agent) && truthy (affiliation tgt) &&
        negb (String.eqb (affiliation agent) (affiliation tgt))
    | None => false
    end in
  {| fulfilledCount := bump (status_eqb st fulfilled) (fulfilledCount c);
     deniedCount := bump (status_eqb st denied) (deniedCount c);
     expiredCount := bump (status_eqb st expired) (expiredCount c);
     repairedCount := bump (status_eqb st repaired) (repairedCount c);
     interTotal := bump cross (interTotal c);
     interDenied :=
       bump (cross && (status_eqb st denied || status_eqb st expired))
            (interDenied c) |}.

(** The body of the outer loop, for one agent. *)
Definition tally_agent (all : list Agent) (t : Totals) (agent : Agent) : Totals :=
  let ledger := relationalLedger agent in
  let c := fold_left (tally_entry all agent) ledger
             (mkTally 0 0 0 0 (sumInterTotal t) (sumInterDenied t)) in
  {| sumIssued := sumIssued t + length ledger;
     sumFulfilled := sumFulfilled t + fulfilledCount c;
     sumDenied := sumDenied t + deniedCount c;
     sumExpired := sumExpired t + expiredCount c;
     sumRepaired := sumRepaired t + repairedCount c;
     sumDebt := sumDebt t + (deniedCount c + expiredCount c);
     sumInterTotal := interTotal c;
     sumInterDenied := interDenied c |}.

Definition distinct_affiliations (all : list Agent) : gset string :=
  fold_left
    (fun (s : gset string) (a : Agent) =>
       if truthy (affiliation a) then {[ affiliation a ]} ∪ s else s)
    all ∅.

Definition compute_metrics (all : list Agent) (generation : nat) : Metrics :=
  let t := fold_left (tally_agent all) all (mkTotals 0 0 0 0 0 0 0 0) in
  {| m_generation := generation;
     avgConflict := ratio (sumInterDenied t) (sumInterTotal t);
     avgDebt := ratio (sumDebt t) (length all);
     totalObligationsIssued := sumIssued t;
     totalFulfilled := sumFulfilled t;
     totalDenied := sumDenied t;
     totalExpired := sumExpired t;
     totalRepaired := sumRepaired t;
     fulfillmentRate := ratio (sumFulfilled t) (sumIssued t);
     avgRI := ratio (sumFulfilled t)
                (sumFulfilled t + sumDenied t + sumExpired t);
     repairEvents := sumRepaired t;
     emergentNorms := size (distinct_affiliations all) |}.

(** [logGeneration(agents, generation, log)]: the entry is pushed on the
    log and returned. *)
Definition logGeneration (all : list Agent) (generation : nat)
    (lg : list Metrics) : Metrics * list Metrics :=
  let entry := compute_metrics all generation in
  (entry, lg ++ [entry]).

(** ** The state of the sketch ([sketch.js]) *)

Record Sim := mkSim {
  world : World;
  agents : list loc;
  obligationVectors : list ObligationVector;
  metricsLog : list Metrics;             (* log *)
  generation : nat;
  globalAgentIndex : nat;
  nextLoc : loc;                         (* the next object to allocate *)
  agentMap : JsMap loc;
  hostilePairs : gset string;
  enableMoralRepair : bool;
  frameCount : nat
}.

(** JavaScript objects used as dictionaries from labels to values, with
    their keys in insertion order. *)
Section Dict.
Context {V : Type}.

Fixpoint dict_get (k : string) (d : list (string * V)) : option V :=
  match d with
  | [] => None
  | (k', v) :: d' => if String.eqb k k' then Some v else dict_get k d'
  end.

Fixpoint dict_set (k : string) (v : V) (d : list (string * V))
    : list (string * V) :=
  match d with
  | [] => [(k, v)]
  | (k', v') :: d' =>
      if String.eqb k k' then (k, v) :: d' else (k', v') :: dict_set k v d'
  end.

Definition dict_keys (d : list (string * V)) : list string := map fst d.
End Dict.

(** [classifyScenario(agent)]. *)
Definition classifyScenario (cfg : SimConfig) (a : Agent) : string :=
  let acknowledgments :=
    [acknowledges "apriori" a; acknowledges "legal" a;
     acknowledges "care" a; acknowledges "epistemic" a] in
  let ackCount := length (filter (fun b => b = true) acknowledgments) in
  if Nat.eqb ackCount (length (normTypes cfg)) then "utopian"
  else if Nat.eqb ackCount 0 then "collapsed"
  else if Nat.eqb ackCount 1 then
    if acknowledges "legal" a then "authoritarian"
    else if acknowledges "care" a then "allCare"
    else "pluralist"
  else "pluralist".

Definition updateScenarios (cfg : SimConfig) (ags : list loc) (h : Heap) : Heap :=
  fold_left (fun h l => modify h l (fun a => set_scenarioGroup a (classifyScenario cfg a)))
            ags h.

Definition pref_label (a : Agent) : string :=
  String.append "pref_" (normPreference a).

(** [updateAffiliations]: each agent adopts the group with the highest
    trust accumulated over its trust map (the colours of new groups are
    not modelled). *)
Definition groupScores_of (amap : JsMap loc) (h : Heap) (a : Agent)
    : list (string * Q) :=
  fold_left
    (fun (scores : list (string * Q)) (e : nat * Q) =>
       let (i, trust) := e in
       match map_get i amap with
       | Some nb =>
           let neighbour := h nb in
           let group := if truthy (affiliation neighbour)
                        then affiliation neighbour else pref_label neighbour in
           let old := match dict_get group scores with
                      | Some x => num_or x 0
                      | None => 0%Q
                      end in
           dict_set group (old + trust)%Q scores
       | None => scores
       end)
    (trustMap a) [].

Definition best_group (start : string) (scores : list (string * Q)) : string :=
  fst (fold_left
         (fun (acc : string * option Q) (e : string * Q) =>
            let (group, score) := e in
            match snd acc with
            | None => (group, Some score)             (* maxScore = -Infinity *)
            | Some m => if Qltb m score then (group, Some score) else acc
            end)
         scores (start, None)).

Definition updateAffiliations (ags : list loc) (amap : JsMap loc) (h : Heap)
    : Heap :=
  fold_left
    (fun h l =>
       let agent := h l in
       let groupScores := groupScores_of amap h agent in
       let bestGroup :=
         match groupScores with
         | [] => pref_label agent
         | _ => best_group (affiliation agent) groupScores
         end in
       modify h l (fun a => set_affiliation a bestGroup))
    ags h.

(** ** Group dynamics *)

(** [[g1, g2].sort().join('|')]: the default sort orders strings by their
    code units. *)
Definition pair_key (g1 g2 : string) : string :=
  if String.ltb g2 g1
  then String.append g2 (String.append "|" g1)
  else String.append g1 (String.append "|" g2).

(** The partition of the agents by affiliation, groups and members in
    the order in which they are met. *)
Definition partition_groups (ags : list loc) (h : Heap)
    : list (string * list loc) :=
  fold_left
    (fun (gm : list (string * list loc)) (l : loc) =>
       let g := affiliation (h l) in
       dict_set g (default [] (dict_get g gm) ++ [l]) gm)
    ags [].

(** The sum of the directed trust from the members of [ms1] to those of
    [ms2], and the number of links. *)
Definition trust_links (h : Heap) (ms1 ms2 : list loc) : Q * nat :=
  fold_left
    (fun (acc : Q * nat) (a : loc) =>
       fold_left
         (fun (acc : Q * nat) (b : loc) =>
            ((fst acc + trust_of (trustMap (h a)) (id (h b)))%Q, S (snd acc)))
         ms2 acc)
    ms1 (0%Q, 0).

Definition avg_trust (h : Heap) (ms1 ms2 : list loc) : Q :=
  let (s1, c1) := trust_links h ms1 ms2 in
  let (s2, c2) := trust_links h ms2 ms1 in
  let trustSum := (s1 + s2)%Q in
  let count := c1 + c2 in
  if Nat.ltb 0 count then (trustSum / inject_Z (Z.of_nat count))%Q else 0.

Definition mergeThreshold : Q := 3.
Definition hostileThreshold : Q := 5 # 10.

(** The plan built by the pairwise comparison: hostile keys and merge
    targets. *)
Record Plan := mkPlan {
  plan_hostile : gset string;
  plan_merges : list (string * string)
}.

(** The body of the inner loop for the pair [(g1, g2)]. *)
Definition compare_groups (h : Heap) (g1 g2 : string * list loc) (p : Plan)
    : Plan :=
  let avgTrust := avg_trust h (snd g1) (snd g2) in
  if Qltb avgTrust hostileThreshold then
    mkPlan ({[ pair_key (fst g1) (fst g2) ]} ∪ plan_hostile p) (plan_merges p)
  else if Qltb mergeThreshold avgTrust then
    if Nat.leb (length (snd g2)) (length (snd g1))
    then mkPlan (plan_hostile p) (dict_set (fst g2) (fst g1) (plan_merges p))
    else mkPlan (plan_hostile p) (dict_set (fst g1) (fst g2) (plan_merges p))
  else p.

(** The two nested loops over [i < j]. *)
Fixpoint compare_all (h : Heap) (groups : list (string * list loc)) (p : Plan)
    : Plan :=
  match groups with
  | [] => p
  | g1 :: rest =>
      compare_all h rest
        (fold_left (fun p g2 => compare_groups h g1 g2 p) rest p)
  end.

Definition apply_merges (gm : list (string * list loc))
    (merges : list (string * string)) (h : Heap) : Heap :=
  fold_left
    (fun h (ft : string * string) =>
       let (from, to) := ft in
       fold_left (fun h l => modify h l (fun a => set_affiliation a to))
                 (default [] (dict_get from gm)) h)
    merges h.

(** [updateGroupDynamics]: the new set of hostile pairs and the store
    after the merges. *)
Definition updateGroupDynamics (ags : list loc) (h : Heap) : gset string * Heap :=
  let groupMembers := partition_groups ags h in
  let p := compare_all h groupMembers (mkPlan ∅ []) in
  (plan_hostile p, apply_merges groupMembers (plan_merges p) h).

(** ** Obligation generation *)

Definition hostile (hp : gset string) (g1 g2 : string) : bool :=
  bool_decide (pair_key g1 g2 ∈ hp).

(** The two filters of a draw: agents other than the source within the
    proximity threshold, then those whose affiliation is not hostile to
    the source's. *)
Definition nearby_of (prox : Q) (hp : gset string) (h : Heap)
    (ags : list loc) (src : loc) : list loc :=
  List.filter
    (fun a => negb (hostile hp (affiliation (h src)) (affiliation (h a))))
    (List.filter
       (fun a => negb (Nat.eqb a src) && dist_lt (pos (h a)) (pos (h src)) prox)
       ags).

Section Generate.
Variable cfg : SimConfig.
Variable frame : nat.
Variable hp : gset string.
Variable h : Heap.
Variable ags : list loc.
Variable first : loc.       (* stands for the [undefined] of an empty array *)

Definition proximity : Q :=
  num_or (advancedProximityThreshold cfg) (proximityThreshold cfg).

(** One iteration of the loop; a draw without eligible target adds
    nothing. *)
Definition sample_one (acc : list ObligationVector)
    : M (list ObligationVector) :=
  let* src := random_of first ags in
  match nearby_of proximity hp h ags src with
  | [] => ret acc
  | t0 :: rest =>
      let* tgt := random_of t0 (t0 :: rest) in
      let* str := random2 (2 # 10) 1 in
      let* n := random_of "undefined" (normTypes cfg) in
      let* v := new_ObligationVector cfg frame src tgt str n in
      ret (acc ++ [v])
  end.

Fixpoint sample_loop (n : nat) (acc : list ObligationVector)
    : M (list ObligationVector) :=
  match n with
  | 0 => ret acc
  | S n' => let* acc' := sample_one acc in sample_loop n' acc'
  end.
End Generate.

(** [generateObligations]: the new value of [obligationVectors]. *)
Definition generateObligations (cfg : SimConfig) (frame : nat)
    (hp : gset string) (h : Heap) (ags : list loc)
    : M (list ObligationVector) :=
  match ags with
  | [] | [_] => ret []
  | a0 :: _ =>
      let vectorCount := Nat.min (length ags * countMultiplier cfg) (maxVectors cfg) in
      sample_loop cfg frame hp h ags a0 vectorCount []
  end.

(** ** The generation step *)

Definition Qnat (n : nat) : Q := inject_Z (Z.of_nat n).

(** The predicate of the death filter: [true] keeps the agent. *)
Definition survives (cfg : SimConfig) (gen : nat) (a : Agent) : M bool :=
  let age := gen - birthGeneration a in
  let conflictPenalty :=
    Qmin (Qnat (internalConflict a) * deathConflictWeight cfg) (1 # 10) in
  let oldAgeBoost :=
    if Nat.ltb (deathAgeThreshold cfg) age
    then (deathOldAgeBoost cfg * Qnat (age - deathAgeThreshold cfg))%Q
    else 0%Q in
  let deathChance := (deathBaseRate cfg + conflictPenalty + oldAgeBoost)%Q in
  let* u := random0 in
  ret (negb (Qltb u deathChance)).

Fixpoint filterM {A} (f : A -> M bool) (l : list A) : M (list A) :=
  match l with
  | [] => ret []
  | x :: l' =>
      let* keep := f x in
      let* r := filterM f l' in
      ret (if keep then x :: r else r)
  end.

Fixpoint foldM {A B} (f : B -> A -> M B) (l : list A) (b : B) : M B :=
  match l with
  | [] => ret b
  | x :: l' => let* b' := f b x in foldM f l' b'
  end.

Definition rebuild_agentMap (ags : list loc) (h : Heap) : JsMap loc :=
  fold_left (fun m l => map_set (id (h l)) l m) ags [].

(** Normative drift of one agent. *)
Definition drift (cfg : SimConfig) (h : Heap) (l : loc) : M Heap :=
  let* u := random0 in
  if Qltb u (2 # 100) then
    let others :=
      List.filter (fun n => negb (String.eqb n (normPreference (h l))))
                  (normTypes cfg) in
    let* n := random_of "undefined" others in
    ret (modify h l (fun a => set_normPreference a n))
  else ret h.

(** Moral repair of the ledger of one agent: every denied or expired
    entry is repaired when its draw is below the repair chance. *)
Definition repair_entry (cfg : SimConfig) (gen : nat) (l : loc) (w : World)
    (e : nat * Status) : M World :=
  let (targetID, st) := e in
  if status_eqb st denied || status_eqb st expired then
    let* u := random0 in
    if Qltb u (repairChance cfg) then
      ret (log_push
             (with_heap w (modify (heap w) l (ledger_set targetID repaired)))
             (mkLogEntry repaired "n/a" (id (heap w l)) targetID gen))
    else ret w
  else ret w.

Definition repair_agent (cfg : SimConfig) (gen : nat) (w : World) (l : loc)
    : M World :=
  foldM (repair_entry cfg gen l) (relationalLedger (heap w l)) w.

Definition moralRepair (cfg : SimConfig) (gen : nat) (ags : list loc)
    (w : World) : M World :=
  foldM (repair_agent cfg gen) ags w.

(** Reproduction.  The child of [parent], built by [new Agent] and then
    overwritten with the inherited or mutated properties. *)
Definition inherit_ack (mutationRate : Q) (parent : Agent)
    (ak : gmap string bool) (n : string) : M (gmap string bool) :=
  let* u := random0 in
  if Qltb u (1 - mutationRate) then
    ret (match acks parent !! n with
         | Some b => <[n := b]> ak
         | None => delete n ak
         end)
  else
    let* u' := random0 in ret (<[n := Qltb (5 # 10) u']> ak).

Definition make_child (cfg : SimConfig) (gen : nat) (i : nat) (parent : Agent)
    : M Agent :=
  let* child := new_Agent cfg i in
  let mutationRate :=
    (mutationBase cfg + maxConflictMutation cfg * Qnat (internalConflict parent))%Q in
  let* ak := foldM (inherit_ack mutationRate parent) (normTypes cfg) (acks child) in
  let* u := random0 in
  let* pref :=
    if Qltb u (preferenceInheritance cfg) then ret (normPreference parent)
    else random_of "undefined" (normTypes cfg) in
  let* jitter := random2 (- (1 # 10)) (1 # 10) in
  ret {| id := id child; pos := pos child; acks := ak;
         normPreference := pref;
         scenarioGroup := scenarioGroup parent;
         affiliation := affiliation parent;
         trustMap := trustMap child; relationalLedger := relationalLedger child;
         obligationAttempts := obligationAttempts child;
         obligationSuccesses := obligationSuccesses child;
         contradictionDebt := contradictionDebt child;
         internalConflict := internalConflict child;
         culturalMomentum :=
           constrain (num_or (culturalMomentum parent) (5 # 10) + jitter)
                     (1 # 10) 1;
         birthGeneration := gen |}.

(** The state threaded through the loop over the parents. *)
Record Nursery := mkNursery {
  n_heap : Heap;
  n_nextLoc : loc;
  n_index : nat;             (* globalAgentIndex *)
  offspring : list loc
}.

Definition reproduce_one (cfg : SimConfig) (gen : nat) (population : nat)
    (n : Nursery) (parent : loc) : M Nursery :=
  let* u := random0 in
  if Qltb u (reproductionChance cfg) &&
     Nat.ltb (population + length (offspring n)) (numAgents cfg * 10) then
    let* child := make_child cfg gen (n_index n) (n_heap n parent) in
    ret (mkNursery (upd (n_heap n) (n_nextLoc n) child) (S (n_nextLoc n))
                   (S (n_index n)) (offspring n ++ [n_nextLoc n]))
  else ret n.

Definition reproduce (cfg : SimConfig) (gen : nat) (ags : list loc)
    (n : Nursery) : M Nursery :=
  foldM (reproduce_one cfg gen (length ags)) ags n.

(** [evolveGeneration]: death, metric recomputation, new obligations,
    normative drift, scenarios, affiliations, group dynamics, metrics,
    moral repair and reproduction, in the order of the source. *)
Definition evolveGeneration (cfg : SimConfig) (s : Sim) : M Sim :=
  let h0 := heap (world s) in
  (* death based on age and conflict *)
  let* alive := filterM (fun l => survives cfg (generation s) (h0 l)) (agents s) in
  let h1 := fold_left (fun h l => modify h l updateConflictAndDebt) alive h0 in
  let amap := rebuild_agentMap alive h1 in
  let gen := S (generation s) in
  let* vectors := generateObligations cfg (frameCount s) (hostilePairs s) h1 alive in
  (* first pass: normative drift, scenarios, affiliations, groups *)
  let* h2 := foldM (drift cfg) alive h1 in
  let h3 := updateScenarios cfg alive h2 in
  let h4 := updateAffiliations alive amap h3 in
  let (hostile', h5) := updateGroupDynamics alive h4 in
  (* second pass: conflict and debt, then the aggregate metrics *)
  let h6 := fold_left (fun h l => modify h l updateConflictAndDebt) alive h5 in
  let (_, lg) := logGeneration (map h6 alive) gen (metricsLog s) in
  let w6 := with_heap (world s) h6 in
  (* moral repair *)
  let* w7 := if enableMoralRepair s then moralRepair cfg gen alive w6 else ret w6 in
  (* reproduction *)
  let* n := reproduce cfg gen alive
              (mkNursery (heap w7) (nextLoc s) (globalAgentIndex s) []) in
  ret {| world := with_heap w7 (n_heap n);
         agents := alive ++ offspring n;
         obligationVectors := vectors;
         metricsLog := lg;
         generation := gen;
         globalAgentIndex := n_index n;
         nextLoc := n_nextLoc n;
         agentMap := amap;
         hostilePairs := hostile';
         enableMoralRepair := enableMoralRepair s;
         frameCount := frameCount s |}.



(** The motion of the agents belongs to the flocking subsystem: between
    two frames the positions may change in any way, and nothing else
    does. *)
Definition set_pos (a : Agent) (p : Q * Q) : Agent :=
  mkAgent (id a) p (acks a) (normPreference a) (scenarioGroup a)
    (affiliation a) (trustMap a) (relationalLedger a) (obligationAttempts a)
    (obligationSuccesses a) (contradictionDebt a) (internalConflict a)
    (culturalMomentum a) (birthGeneration a).







(** The trust score of agent [a] toward agent [b], as the code reads it:
    [a.trustMap.get(b.id) || 0]. *)
Definition trust_toward (h : Heap) (a b : loc) : Q :=
  trust_of (trustMap (h a)) (id (h b)).

(** The change of trust that goes with a resolution. *)
Definition trust_delta (cfg : SimConfig) (st : Status) : Q :=
  if status_eqb st fulfilled then trustIncrement cfg else (- trustDecrement cfg)%Q.

(** The entry of the registry that [enforce] calls for a norm. *)
Definition enforce_impl (reg : gmap string NormDef) (n : string) : EnforceImpl :=
  match reg !! n with
  | Some d => default UseDefault (enforceFn d)
  | None => UseDefault
  end.

(** The vector as [enforce] has aged and animated it when it reaches the
    gate. *)
Definition at_gate (frame : nat) (v : ObligationVector) : ObligationVector :=
  stepAnimation frame (set_age v (S (age v))).

Definition gate_closed (v : ObligationVector) : bool :=
  resolveOnArrival v && Qltb (animT v) 1.



(** The keys of a JavaScript [Map] are distinct. *)
Definition map_wf {V} (m : list (nat * V)) : Prop := NoDup (map fst m).

(** The entry of the registry that [enforce] calls for a norm is the
    default rule. *)
Definition uses_default (reg : gmap string NormDef) (n : string) : Prop :=
  match reg !! n with
  | Some d => enforceFn d = None \/ enforceFn d = Some UseDefault
  | None => True
  end.

(** How a pass of moral repair may change the ledgers: the keys of every
    ledger stay, and an entry either keeps its status or goes from
    ['denied'] or ['expired'] to ['repaired']. *)
Definition repairs (h h' : Heap) : Prop :=
  (forall l, map fst (relationalLedger (h' l)) = map fst (relationalLedger (h l))) /\
  (forall l k,
     map_get k (relationalLedger (h' l)) = map_get k (relationalLedger (h l)) \/
     ((map_get k (relationalLedger (h l)) = Some denied \/
       map_get k (relationalLedger (h l)) = Some expired) /\
      map_get k (relationalLedger (h' l)) = Some repaired)).

(** ** Concrete registry entries, agents and worlds used in the examples *)

Definition blank_agent (i : nat) (p : Q * Q) (ak : gmap string bool)
    (group : string) : Agent :=
  {| id := i; pos := p; acks := ak; normPreference := "legal";
     scenarioGroup := "pluralist"; affiliation := group;
     trustMap := []; relationalLedger := [];
     obligationAttempts := 0; obligationSuccesses := 0;
     contradictionDebt := 0; internalConflict := 0;
     culturalMomentum := 1 # 2; birthGeneration := 0 |}.


(** A random source whose draws are all [0]. *)
Definition zero_rng : Rng := mkRng (fun _ => mkDraw 0 0) 0.

(** A vector without a source. *)
Definition orphan_vector : ObligationVector :=
  {| source := None; target := Some 1; strength := 1; norm := "legal";
     status := pending; age := 3; maxAge := 12; animT := 1; animSpeed := 1 # 10;
     spawnFrame := 0; resolveOnArrival := true; resolvedAt := None;
     normType := None; fulfilled_flag := false; expiration := None |}.

(** Two agents that acknowledge every built-in norm, ten units apart. *)
Definition all_acks : gmap string bool :=
  <["legal" := true]> (<["apriori" := true]> (<["care" := true]>
  (<["epistemic" := true]> ∅))).

Definition two_agents : Heap :=
  fun l => if Nat.eqb l 0 then blank_agent 0 (0%Q, 0%Q) all_acks "pref_legal"
           else blank_agent 1 (10%Q, 0%Q) all_acks "pref_legal".

Definition quiet_world : World := mkWorld two_agents [].

(** The ledger of the first agent holds a repaired obligation to the
    second. *)
Definition settled_agents : Heap :=
  fun l => if Nat.eqb l 0
           then set_relationalLedger
                  (blank_agent 0 (0%Q, 0%Q) all_acks "pref_legal") [(1, repaired)]
           else blank_agent 1 (10%Q, 0%Q) all_acks "pref_legal".

Definition settled_world : World := mkWorld settled_agents [].

(** A pending vector from the first agent to the second that has reached
    its maximal age. *)
Definition aging_vector : ObligationVector :=
  {| source := Some 0; target := Some 1; strength := 1; norm := "legal";
     status := pending; age := 12; maxAge := 12; animT := 0; animSpeed := 35 # 1000;
     spawnFrame := 0; resolveOnArrival := true; resolvedAt := None;
     normType := None; fulfilled_flag := false; expiration := None |}.

(** The same vector once fulfilled. *)
Definition fulfilled_vector : ObligationVector := set_status aging_vector fulfilled.

(** A vector as the constructor of [agent.js] builds it. *)
Definition fresh_vector : ObligationVector :=
  fst (new_ObligationVector SIM_CONFIG 0 0 1 1 "legal" zero_rng).

(** A pending vector whose animation has arrived and that carries the
    properties read by [defaultEnforce]. *)
Definition arrived_vector : ObligationVector :=
  {| source := Some 0; target := Some 1; strength := 1; norm := "legal";
     status := pending; age := 0; maxAge := 12; animT := 1; animSpeed := 35 # 1000;
     spawnFrame := 0; resolveOnArrival := true; resolvedAt := None;
     normType := Some "legal"; fulfilled_flag := false; expiration := Some 12 |}.








(** ** Further operations of the sources *)

(** [incrementContradictionDebt(reason)] of [agent.js]. *)
Definition incrementContradictionDebt (a : Agent) : Agent :=
  set_conflict_debt a (internalConflict a) (S (contradictionDebt a)).

(** [wrapAround] of [agent.js]: four assignments in sequence, first on
    [pos.x], then on [pos.y]. *)
Definition wrap_axis (x lo hi : Q) : Q :=
  let x1 := if Qltb x lo then hi else x in
  if Qltb hi x1 then lo else x1.

Definition wrapAround (cfg : SimConfig) (a : Agent) : Agent :=
  set_pos a
    (wrap_axis (fst (pos a)) (marginLeft cfg) (canvasWidth cfg - marginRight cfg),
     wrap_axis (snd (pos a)) (marginTop cfg) (canvasHeight cfg - marginBottom cfg)).


(** A vector is held back by the gate for its whole life when its
    animation, advanced once per step of [enforce], cannot arrive within
    the steps that are left to it. *)
Definition outlived_by_gate (v : ObligationVector) : Prop :=
  resolveOnArrival v = true /\ (0 <= animSpeed v)%Q /\
  (animT v + Qnat (maxAge v - age v) * animSpeed v < 1)%Q.






(** How a pass of moral repair may change one ledger entry, whatever the
    shape of the ledger: it keeps its value or becomes ['repaired']. *)
Definition softens (h h' : Heap) : Prop :=
  forall l k,
    map_get k (relationalLedger (h' l)) = map_get k (relationalLedger (h l)) \/
    map_get k (relationalLedger (h' l)) = Some repaired.

(** An entry of the log written by moral repair for an agent of [ags]. *)
Definition repair_record (gen : nat) (ags : list loc) (h : Heap) (e : LogEntry)
    : Prop :=
  le_status e = repaired /\ le_norm e = "n/a" /\ le_generation e = gen /\
  exists l, In l ags /\ le_from e = id (h l).

(** The configuration with another chance of repair. *)
Definition with_repairChance (cfg : SimConfig) (q : Q) : SimConfig :=
  {| numAgents := numAgents cfg; normTypes := normTypes cfg;
     canvasWidth := canvasWidth cfg; canvasHeight := canvasHeight cfg;
     marginLeft := marginLeft cfg; marginRight := marginRight cfg;
     marginTop := marginTop cfg; marginBottom := marginBottom cfg;
     countMultiplier := countMultiplier cfg; maxVectors := maxVectors cfg;
     obligationAnimSpeed := obligationAnimSpeed cfg;
     obligationSpawnJitter := obligationSpawnJitter cfg;
     expirationBase := expirationBase cfg;
     expirationRandom := expirationRandom cfg;
     proximityThreshold := proximityThreshold cfg;
     advancedProximityThreshold := advancedProximityThreshold cfg;
     trustIncrement := trustIncrement cfg; trustDecrement := trustDecrement cfg;
     reproductionChance := reproductionChance cfg;
     mutationBase := mutationBase cfg;
     maxConflictMutation := maxConflictMutation cfg;
     preferenceInheritance := preferenceInheritance cfg;
     deathBaseRate := deathBaseRate cfg;
     deathConflictWeight := deathConflictWeight cfg;
     deathOldAgeBoost := deathOldAgeBoost cfg;
     deathAgeThreshold := deathAgeThreshold cfg;
     repairChance := q |}.

(** The ledger of the first agent holds a denied and an expired
    obligation. *)
Definition aggrieved_agents : Heap :=
  fun l => if Nat.eqb l 0
           then set_relationalLedger
                  (blank_agent 0 (0%Q, 0%Q) all_acks "pref_legal")
                  [(1, denied); (2, expired); (3, fulfilled)]
           else blank_agent l (10%Q, 0%Q) all_acks "pref_legal".

Definition aggrieved_world : World := mkWorld aggrieved_agents [].

(** What one step, one agent and the whole pass of moral repair keep. *)
Definition repair_pass (gen : nat) (ags : list loc) (w w' : World) : Prop :=
  softens (heap w) (heap w') /\
  (forall l, set_relationalLedger (heap w' l) (relationalLedger (heap w l))
             = heap w l) /\
  (forall l, ~ In l ags -> heap w' l = heap w l) /\
  exists es, obligationLog w' = obligationLog w ++ es /\
             Forall (repair_record gen ags (heap w)) es.

(** No entry of the ledger of [l] is ['denied'] or ['expired']. *)
Definition reconciled (h : Heap) (l : loc) : Prop :=
  forall k, map_get k (relationalLedger (h l)) <> Some denied /\
            map_get k (relationalLedger (h l)) <> Some expired.

(** What the passes of a generation step before moral repair keep of an
    agent: everything but the norm preference, the scenario group, the
    affiliation and the two ledger-derived metrics. *)
Definition pass_keeps (a a' : Agent) : Prop :=
  id a' = id a /\ pos a' = pos a /\ acks a' = acks a /\
  trustMap a' = trustMap a /\ relationalLedger a' = relationalLedger a /\
  obligationAttempts a' = obligationAttempts a /\
  obligationSuccesses a' = obligationSuccesses a /\
  culturalMomentum a' = culturalMomentum a /\
  birthGeneration a' = birthGeneration a.

(** An agent whose death at the next generation step is certain. *)
Definition doomed (cfg : SimConfig) (gen : nat) (a : Agent) : Prop :=
  (0 <= deathConflictWeight cfg)%Q /\
  deathAgeThreshold cfg < gen - birthGeneration a /\
  (1 <= deathBaseRate cfg
        + deathOldAgeBoost cfg
          * Qnat (gen - birthGeneration a - deathAgeThreshold cfg))%Q.

(** The agents of a state are distinct objects with distinct ids, all
    allocated, and all ids handed out by the counter. *)
Definition ids_wf (s : Sim) : Prop :=
  NoDup (agents s) /\
  NoDup (map (fun l => id (heap (world s) l)) (agents s)) /\
  (forall l, In l (agents s) ->
     l < nextLoc s /\ id (heap (world s) l) < globalAgentIndex s).






(** What [generateObligations] draws for a vector. *)
Definition well_drawn (cfg : SimConfig) (frame : nat) (v : ObligationVector)
    : Prop :=
  ((2 # 10) <= strength v)%Q /\ (strength v <= 1)%Q /\
  (normTypes cfg <> [] -> In (norm v) (normTypes cfg)) /\
  expirationBase cfg <= maxAge v /\
  maxAge v <= expirationBase cfg + Nat.pred (expirationRandom cfg) /\
  frame <= spawnFrame v /\ animT v = 0%Q /\ resolvedAt v = None /\
  normType v = None /\ expiration v = None.

(** No agent of the population has a positive trust score toward another
    one (as when no trust was ever recorded, or only failures were). *)
Definition no_positive_trust (ags : list loc) (h : Heap) : Prop :=
  forall a b, In a ags -> In b ags ->
    (trust_of (trustMap (h a)) (id (h b)) <= 0)%Q.

(** Two agents in different groups, the first with a trust score of
    [-1] toward the second. *)
Definition distrustful_agents : Heap :=
  fun l => if Nat.eqb l 0
           then set_trustMap (blank_agent 0 (0%Q, 0%Q) all_acks "pref_legal")
                  [(1, (-1)%Q)]
           else blank_agent 1 (10%Q, 0%Q) all_acks "pref_care".

(** * Properties *)

(** ** Auxiliary facts *)

Lemma Qltb_lt x y : Qltb x y = true <-> (x < y)%Q.
Proof.
  unfold Qltb. rewrite negb_true_iff. split.
  - intros H. apply Qnot_le_lt. intros Hle.
    apply Qle_bool_iff in Hle. congruence.
  - intros H. destruct (Qle_bool y x) eqn:E; [|reflexivity].
    apply Qle_bool_iff in E. exfalso. exact (Qlt_not_le _ _ H E).
Qed.

Lemma status_eqb_eq a b : status_eqb a b = true <-> a = b.
Proof. unfold status_eqb. apply bool_decide_eq_true. Qed.

(** ** Missing endpoints *)

(** C8. When the source or the target of a vector is missing, [enforce]
    returns at once: the vector (status, age and every other property),
    the store with the ledgers and trust maps of all agents, the obligation
    log and the random source are exactly as before. *)
Theorem enforce_missing_endpoint_noop (cfg : SimConfig)
    (reg : gmap string NormDef) (frame gen : nat) (v : ObligationVector)
    (w : World) (rng : Rng) :
  source v = None \/ target v = None ->
  enforce cfg reg frame gen v w rng = (mkOutcome v w (Normal None), rng).
Proof.
  intros [H | H]; unfold enforce; rewrite H.
  - reflexivity.
  - destruct (source v); reflexivity.
Qed.

(** The vector without source, enforced in the quiet world. *)
Lemma enforce_missing_endpoint_noop_witness :
  (source orphan_vector = None \/ target orphan_vector = None) /\
  enforce SIM_CONFIG normRegistry 7 2 orphan_vector quiet_world zero_rng
  = (mkOutcome orphan_vector quiet_world (Normal None), zero_rng).
Proof.
  split.
  - left. reflexivity.
  - apply (enforce_missing_endpoint_noop SIM_CONFIG normRegistry 7 2
             orphan_vector quiet_world zero_rng).
    left. reflexivity.
Defined.

(** ** Small populations *)

(** C10. With fewer than two agents [generateObligations] returns at once
    with an empty array of vectors and without consulting the random
    source: no obligation, and so no self-obligation, is created. *)
Theorem generateObligations_small_population (cfg : SimConfig) (frame : nat)
    (hp : gset string) (h : Heap) (ags : list loc) (rng : Rng) :
  length ags < 2 ->
  generateObligations cfg frame hp h ags rng = ([], rng).
Proof.
  intros Hlen. destruct ags as [|a [|b rest]]; simpl in *; try reflexivity.
  lia.
Qed.

(** A population of one agent. *)
Lemma generateObligations_small_population_witness :
  length [0] < 2 /\
  generateObligations SIM_CONFIG 0 ∅ two_agents [0] zero_rng = ([], zero_rng).
Proof.
  split.
  - simpl. lia.
  - apply (generateObligations_small_population SIM_CONFIG 0 ∅ two_agents [0] zero_rng).
    simpl. lia.
Defined.

(** ** Registration of norms *)




(** ** Bounded ratios of the metrics *)

Lemma ratio_bounds (a b : nat) :
  a <= b -> (0 <= ratio a b)%Q /\ (ratio a b <= 1)%Q.
Proof.
  intros Hab. unfold ratio.
  destruct (Nat.ltb 0 b) eqn:Hb.
  - apply Nat.ltb_lt in Hb.
    assert (Hpos : (0 < inject_Z (Z.of_nat b))%Q).
    { unfold Qlt. simpl. lia. }
    split.
    + apply Qle_shift_div_l; [exact Hpos|].
      unfold Qle. simpl. lia.
    + apply Qle_shift_div_r; [exact Hpos|].
      unfold Qle. simpl. lia.
  - split; unfold Qle; simpl; lia.
Qed.

Lemma tally_entries_fulfilled (all : list Agent) (a : Agent)
    (l : list (nat * Status)) (c : Tally) :
  fulfilledCount (fold_left (tally_entry all a) l c) <= fulfilledCount c + length l.
Proof.
  revert c. induction l as [|[k st] l IH]; intros c; simpl.
  - lia.
  - etransitivity; [apply IH|]. simpl.
    unfold bump. destruct (status_eqb st fulfilled); lia.
Qed.

Lemma tally_agents_fulfilled (all l : list Agent) (t : Totals) :
  sumFulfilled t <= sumIssued t ->
  sumFulfilled (fold_left (tally_agent all) l t)
  <= sumIssued (fold_left (tally_agent all) l t).
Proof.
  revert t. induction l as [|a l IH]; intros t Ht; simpl.
  - exact Ht.
  - apply IH. unfold tally_agent. simpl.
    pose proof (tally_entries_fulfilled all a (relationalLedger a)
                  (mkTally 0 0 0 0 (sumInterTotal t) (sumInterDenied t))) as H.
    simpl in H. lia.
Qed.

(** C7. In every record produced by [logGeneration], [fulfillmentRate]
    is [totalFulfilled / totalObligationsIssued], and [0] when nothing was
    issued; the relational integrity ([avgRI]) is [totalFulfilled /
    (totalFulfilled + totalDenied + totalExpired)], and [0] when that sum
    is [0]; both lie between [0] and [1].  The record is the one appended
    to the log. *)
Theorem logGeneration_ratios_bounded (all : list Agent) (gen : nat)
    (lg : list Metrics) :
  let m := fst (logGeneration all gen lg) in
  let resolved := totalFulfilled m + totalDenied m + totalExpired m in
  snd (logGeneration all gen lg) = lg ++ [m] /\
  fulfillmentRate m
    = (if Nat.ltb 0 (totalObligationsIssued m)
       then (Qnat (totalFulfilled m) / Qnat (totalObligationsIssued m))%Q
       else 0%Q) /\
  avgRI m
    = (if Nat.ltb 0 resolved
       then (Qnat (totalFulfilled m) / Qnat resolved)%Q else 0%Q) /\
  (0 <= fulfillmentRate m)%Q /\ (fulfillmentRate m <= 1)%Q /\
  (0 <= avgRI m)%Q /\ (avgRI m <= 1)%Q.
Proof.
  simpl.
  set (t := fold_left (tally_agent all) all (mkTotals 0 0 0 0 0 0 0 0)).
  assert (Hle : sumFulfilled t <= sumIssued t).
  { apply tally_agents_fulfilled. simpl. lia. }
  destruct (ratio_bounds (sumFulfilled t) (sumIssued t) Hle) as [H1 H2].
  destruct (ratio_bounds (sumFulfilled t)
              (sumFulfilled t + sumDenied t + sumExpired t)) as [H3 H4]; [lia|].
  repeat split; try reflexivity; assumption.
Qed.

(** ** Status transitions *)


Lemma settle_status cfg frame gen v w :
  status (o_vec (settle cfg frame gen v w)) = status v.
Proof.
  unfold settle.
  destruct (status_eqb (status v) fulfilled || status_eqb (status v) denied);
    [|reflexivity].
  destruct (source v), (target v); reflexivity.
Qed.

Lemma defaultEnforce_status cfg reg gen v w :
  status (o_vec (defaultEnforce cfg reg gen v w)) = status v.
Proof.
  unfold defaultEnforce.
  destruct (source v); [|reflexivity].
  destruct (target v); [|reflexivity].
  destruct (reg !! registry_key (normType v)); [|reflexivity].
  repeat match goal with
         | |- context [if ?b then _ else _] => destruct b
         end; reflexivity.
Qed.

Lemma stepAnimation_status frame v :
  status (stepAnimation frame v) = status v.
Proof.
  unfold stepAnimation.
  destruct (Nat.ltb frame (spawnFrame v)); [reflexivity|].
  destruct (Qltb (animT v) 1); reflexivity.
Qed.

Lemma stepAnimation_norm frame v :
  norm (stepAnimation frame v) = norm v.
Proof.
  unfold stepAnimation.
  destruct (Nat.ltb frame (spawnFrame v)); [reflexivity|].
  destruct (Qltb (animT v) 1); reflexivity.
Qed.

Lemma stepAnimation_endpoints frame v :
  source (stepAnimation frame v) = source v /\
  target (stepAnimation frame v) = target v /\
  normType (stepAnimation frame v) = normType v.
Proof.
  unfold stepAnimation.
  destruct (Nat.ltb frame (spawnFrame v)); [auto|].
  destruct (Qltb (animT v) 1); auto.
Qed.

Lemma canonical_cases r st :
  canonical r = Some st -> st = fulfilled \/ st = denied \/ st = pending.
Proof.
  destruct r as [[]|]; simpl; intros H; inversion H; auto.
Qed.

Lemma enforce_not_pending cfg reg frame gen v w rng :
  status v <> pending ->
  enforce cfg reg frame gen v w rng = (mkOutcome v w (Normal None), rng).
Proof.
  intros H. unfold enforce.
  destruct (source v); [|reflexivity].
  destruct (target v); [|reflexivity].
  destruct (status v); try reflexivity. congruence.
Qed.

Lemma enforce_pending_status cfg reg frame gen v w rng :
  status v = pending ->
  o_completion (fst (enforce cfg reg frame gen v w rng)) <> TypeError \/
  uses_default reg (norm v) ->
  In (status (o_vec (fst (enforce cfg reg frame gen v w rng))))
     [pending; fulfilled; denied; expired].
Proof.
  intros Hp Hc. unfold enforce in *.
  destruct (source v) as [s|]; [|simpl; auto].
  destruct (target v) as [t|]; [|simpl; auto].
  rewrite Hp in *. cbv zeta in *.
  destruct (Nat.ltb _ _).
  { simpl. auto 6. }
  set (v2 := stepAnimation frame (set_age v (S (age v)))) in *.
  assert (Hv2 : status v2 = pending).
  { unfold v2. rewrite stepAnimation_status. exact Hp. }
  assert (Hn2 : norm v2 = norm v).
  { unfold v2. rewrite stepAnimation_norm. reflexivity. }
  destruct (resolveOnArrival v2 && Qltb (animT v2) 1).
  { simpl. rewrite Hv2. auto. }
  unfold bind in *.
  set (impl := match reg !! norm v2 with
               | Some d => default UseDefault (enforceFn d)
               | None => UseDefault
               end) in *.
  destruct (call_enforceFn cfg reg impl v2 gen w rng) as [r rng'] eqn:Hcall.
  assert (Hdef : uses_default reg (norm v) -> status (o_vec r) = pending).
  { intros Hu. unfold uses_default in Hu. rewrite <- Hn2 in Hu.
    assert (impl = UseDefault) as Himpl.
    { unfold impl. destruct (reg !! norm v2) as [d|]; [|reflexivity].
      destruct Hu as [Hu | Hu]; rewrite Hu; reflexivity. }
    rewrite Himpl in Hcall. simpl in Hcall. unfold ret in Hcall.
    inversion Hcall; subst r. rewrite defaultEnforce_status. exact Hv2. }
  destruct (o_completion r) as [result|] eqn:Hcompl.
  - destruct (canonical result) as [st|] eqn:Hcan.
    + unfold ret. simpl. rewrite settle_status. simpl.
      destruct (canonical_cases _ _ Hcan) as [-> | [-> | ->]]; auto.
    + destruct (source (o_vec r)) as [s3|] eqn:Hs3.
      * destruct (target (o_vec r)) as [t3|] eqn:Ht3.
        -- unfold random0, bind, draw, ret. simpl. rewrite settle_status. simpl.
           destruct (Qltb _ _); auto.
        -- unfold ret in *. simpl in *.
           destruct Hc as [Hc | Hc]; [congruence|].
           rewrite (Hdef Hc). auto.
      * unfold ret in *. simpl in *.
        destruct Hc as [Hc | Hc]; [congruence|].
        rewrite (Hdef Hc). auto.
  - unfold ret in *. simpl in *.
    destruct Hc as [Hc | Hc]; [congruence|].
    rewrite (Hdef Hc). auto.
Qed.

(** *** Maps and the store *)

Section JsMapFacts.
Context {V : Type}.
Implicit Types (m : list (nat * V)) (k : nat) (v : V).

Lemma map_get_set_eq k v m : map_get k (map_set k v m) = Some v.
Proof.
  induction m as [|[k' v'] m IH]; simpl.
  - rewrite Nat.eqb_refl. reflexivity.
  - destruct (Nat.eqb k k') eqn:E; simpl.
    + rewrite Nat.eqb_refl. reflexivity.
    + rewrite E. exact IH.
Qed.

Lemma map_get_set_ne k k' v m :
  k <> k' -> map_get k (map_set k' v m) = map_get k m.
Proof.
  intros Hne. induction m as [|[k0 v0] m IH]; simpl.
  - apply Nat.eqb_neq in Hne. rewrite Hne. reflexivity.
  - destruct (Nat.eqb k' k0) eqn:E; simpl.
    + apply Nat.eqb_eq in E. subst k0.
      apply Nat.eqb_neq in Hne. rewrite Hne. reflexivity.
    + destruct (Nat.eqb k k0); [reflexivity | exact IH].
Qed.

Lemma map_get_In k v m : map_get k m = Some v -> In (k, v) m.
Proof.
  induction m as [|[k' v'] m IH]; simpl; [discriminate|].
  destruct (Nat.eqb k k') eqn:E.
  - apply Nat.eqb_eq in E. intros H. inversion H. subst. left. reflexivity.
  - intros H. right. apply IH. exact H.
Qed.

Lemma map_get_None_keys k m : map_get k m = None -> ~ In k (map fst m).
Proof.
  induction m as [|[k' v'] m IH]; simpl; [tauto|].
  destruct (Nat.eqb k k') eqn:E; [discriminate|].
  apply Nat.eqb_neq in E. intros H [Hk | Hk]; [congruence | exact (IH H Hk)].
Qed.

Lemma map_set_keys_present k v m :
  map_has k m = true -> map fst (map_set k v m) = map fst m.
Proof.
  unfold map_has. induction m as [|[k' v'] m IH]; simpl; [discriminate|].
  destruct (Nat.eqb k k') eqn:E; simpl.
  - apply Nat.eqb_eq in E. subst. reflexivity.
  - intros H. rewrite IH by exact H. reflexivity.
Qed.

Lemma map_set_keys_absent k v m :
  map_has k m = false -> map fst (map_set k v m) = map fst m ++ [k].
Proof.
  unfold map_has. induction m as [|[k' v'] m IH]; simpl; [reflexivity|].
  destruct (Nat.eqb k k') eqn:E; simpl; [discriminate|].
  intros H. rewrite IH by exact H. reflexivity.
Qed.

Lemma map_set_wf k v m : map_wf m -> map_wf (map_set k v m).
Proof.
  unfold map_wf. intros Hwf.
  destruct (map_has k m) eqn:E.
  - rewrite map_set_keys_present by exact E. exact Hwf.
  - rewrite map_set_keys_absent by exact E.
    apply NoDup_ListNoDup. apply NoDup_ListNoDup in Hwf.
    apply List.NoDup_app; [exact Hwf | repeat constructor; simpl; tauto |].
    intros x Hx [Hk | []]. subst x.
    unfold map_has in E. destruct (map_get k m) eqn:G; [discriminate|].
    exact (map_get_None_keys _ _ G Hx).
Qed.

Lemma map_get_wf_In k v m : map_wf m -> In (k, v) m -> map_get k m = Some v.
Proof.
  unfold map_wf. induction m as [|[k' v'] m IH]; simpl; [tauto|].
  intros Hnd [Heq | Hin].
  - inversion Heq. subst. rewrite Nat.eqb_refl. reflexivity.
  - apply NoDup_cons in Hnd. destruct Hnd as [Hnot Hnd].
    destruct (Nat.eqb k k') eqn:E.
    + apply Nat.eqb_eq in E. subst k'. exfalso. apply Hnot.
      apply list_elem_of_In. apply (in_map fst) in Hin. exact Hin.
    + apply IH; assumption.
Qed.
End JsMapFacts.

Lemma upd_eq h l a : upd h l a l = a.
Proof. unfold upd. rewrite Nat.eqb_refl. reflexivity. Qed.

Lemma upd_ne h l a l' : l' <> l -> upd h l a l' = h l'.
Proof. intros H. unfold upd. apply Nat.eqb_neq in H. rewrite H. reflexivity. Qed.

Lemma modify_eq h l f : modify h l f l = f (h l).
Proof. apply upd_eq. Qed.

Lemma modify_ne h l f l' : l' <> l -> modify h l f l' = h l'.
Proof. apply upd_ne. Qed.

(** *** Moral repair *)

Lemma repairs_refl h : repairs h h.
Proof. split; intros; auto. Qed.

Lemma repairs_trans h1 h2 h3 : repairs h1 h2 -> repairs h2 h3 -> repairs h1 h3.
Proof.
  intros [K1 R1] [K2 R2]. split.
  - intros l. rewrite K2. apply K1.
  - intros l k.
    destruct (R2 l k) as [E2 | [D2 E2]]; destruct (R1 l k) as [E1 | [D1 E1]].
    + left. congruence.
    + right. split; [exact D1 | congruence].
    + right. split; [rewrite <- E1; exact D2 | exact E2].
    + exfalso. rewrite E1 in D2. destruct D2; discriminate.
Qed.

Lemma repair_entry_repairs cfg gen l w k st rng :
  map_get k (relationalLedger (heap w l)) = Some st ->
  let w' := fst (repair_entry cfg gen l w (k, st) rng) in
  repairs (heap w) (heap w') /\
  (forall k', k' <> k ->
     map_get k' (relationalLedger (heap w' l))
     = map_get k' (relationalLedger (heap w l))).
Proof.
  intros Hcur. unfold repair_entry.
  destruct (status_eqb st denied || status_eqb st expired) eqn:Hst;
    [|simpl; split; [apply repairs_refl | reflexivity]].
  unfold bind, random0, draw, ret. simpl.
  destruct (Qltb _ _); simpl; [|split; [apply repairs_refl | reflexivity]].
  split; [split|].
  - intros l'. destruct (Nat.eq_dec l' l) as [-> | Hne].
    + rewrite modify_eq. unfold ledger_set. simpl.
      apply map_set_keys_present. unfold map_has. rewrite Hcur. reflexivity.
    + rewrite modify_ne by exact Hne. reflexivity.
  - intros l' k'. destruct (Nat.eq_dec l' l) as [-> | Hne].
    + rewrite modify_eq. unfold ledger_set. simpl.
      destruct (Nat.eq_dec k' k) as [-> | Hk].
      * right. rewrite map_get_set_eq. split; [|reflexivity].
        rewrite Hcur. apply orb_true_iff in Hst.
        destruct Hst as [H | H]; apply status_eqb_eq in H; subst; auto.
      * left. apply map_get_set_ne. exact Hk.
    + rewrite modify_ne by exact Hne. left. reflexivity.
  - intros k' Hk. rewrite modify_eq. unfold ledger_set. simpl.
    apply map_get_set_ne. exact Hk.
Qed.

Lemma foldM_cons {A B} (f : B -> A -> M B) x l b rng :
  foldM f (x :: l) b rng = foldM f l (fst (f b x rng)) (snd (f b x rng)).
Proof. simpl. unfold bind. destruct (f b x rng). reflexivity. Qed.

Lemma repair_entries_repairs cfg gen l es : forall w rng,
  NoDup (map fst es) ->
  (forall k st, In (k, st) es ->
     map_get k (relationalLedger (heap w l)) = Some st) ->
  repairs (heap w) (heap (fst (foldM (repair_entry cfg gen l) es w rng))).
Proof.
  induction es as [|[k st] es IH]; intros w rng Hnd Hcur.
  - apply repairs_refl.
  - rewrite foldM_cons.
    pose proof (repair_entry_repairs cfg gen l w k st rng
                  (Hcur k st (or_introl eq_refl))) as [Hrep Hother].
    change (map fst ((k, st) :: es)) with (k :: map fst es) in Hnd.
    apply NoDup_cons in Hnd. destruct Hnd as [Hnot Hnd].
    eapply repairs_trans; [exact Hrep|].
    apply IH; [exact Hnd|].
    intros k' st' Hin. rewrite Hother.
    + apply Hcur. right. exact Hin.
    + intros ->. apply Hnot. apply list_elem_of_In.
      apply (in_map fst) in Hin. exact Hin.
Qed.

Lemma repair_agent_repairs cfg gen w l rng :
  map_wf (relationalLedger (heap w l)) ->
  repairs (heap w) (heap (fst (repair_agent cfg gen w l rng))).
Proof.
  intros Hwf. unfold repair_agent.
  apply repair_entries_repairs; [exact Hwf|].
  intros k st Hin. apply map_get_wf_In; assumption.
Qed.

Lemma moralRepair_repairs cfg gen ags : forall w rng,
  (forall l, map_wf (relationalLedger (heap w l))) ->
  repairs (heap w) (heap (fst (moralRepair cfg gen ags w rng))).
Proof.
  unfold moralRepair.
  induction ags as [|l ags IH]; intros w rng Hwf.
  - apply repairs_refl.
  - rewrite foldM_cons.
    pose proof (repair_agent_repairs cfg gen w l rng (Hwf l)) as Hrep.
    eapply repairs_trans; [exact Hrep|].
    apply IH. intros l'. unfold map_wf.
    destruct Hrep as [Hkeys _]. rewrite Hkeys. apply Hwf.
Qed.

(** C1, as stated, fails for ledger entries: a ledger entry is keyed by
    the target and is overwritten by the next resolution for the same
    pair.  The expiry of [aging_vector] moves the entry of the first agent
    for the second out of ['repaired']. *)
Lemma enforce_overwrites_settled_entry :
  ~ (forall cfg reg frame gen v w rng s t st,
       st = fulfilled \/ st = repaired ->
       source v = Some s -> target v = Some t ->
       map_get (id (heap w t)) (relationalLedger (heap w s)) = Some st ->
       map_get (id (heap w t))
         (relationalLedger (heap (o_world (fst (enforce cfg reg frame gen v w rng))) s))
       = Some st).
Proof.
  intros H.
  specialize (H SIM_CONFIG normRegistry 1 0 aging_vector settled_world zero_rng
                0 1 repaired (or_intror eq_refl) eq_refl eq_refl eq_refl).
  vm_compute in H. discriminate H.
Qed.

(** C1, amended.  [enforce] changes the status of a vector only from
    ['pending'], and only to ['fulfilled'], ['denied'] or ['expired']: a
    vector in any other status is left as it is together with the whole
    world, and a pending vector ends a step that completes normally, or
    that runs the default rule, in one of these four statuses, never in
    ['repaired'].  A pass of moral repair keeps the keys of every ledger
    and changes an entry only from ['denied'] or ['expired'] to
    ['repaired'], the ledgers being maps with distinct keys.  (Ledger
    entries themselves are overwritten by later resolutions for the same
    pair.) *)
Theorem status_transitions_one_way (cfg : SimConfig) (reg : gmap string NormDef)
    (frame gen : nat) (v : ObligationVector) (w : World) (rng : Rng)
    (ags : list loc) :
  let r := fst (enforce cfg reg frame gen v w rng) in
  let w' := fst (moralRepair cfg gen ags w rng) in
  (status v <> pending -> r = mkOutcome v w (Normal None)) /\
  (status v = pending ->
   o_completion r <> TypeError \/ uses_default reg (norm v) ->
   In (status (o_vec r)) [pending; fulfilled; denied; expired]) /\
  ((forall l, map_wf (relationalLedger (heap w l))) ->
   repairs (heap w) (heap w')).
Proof.
  cbv zeta. split; [|split].
  - intros H. rewrite enforce_not_pending by exact H. reflexivity.
  - apply enforce_pending_status.
  - apply moralRepair_repairs.
Qed.

Lemma settled_world_wf l : map_wf (relationalLedger (heap settled_world l)).
Proof.
  unfold map_wf. simpl. unfold settled_agents.
  destruct (Nat.eqb l 0); simpl; repeat constructor.
  apply not_elem_of_nil.
Qed.

(** A fulfilled vector is left alone, the aging vector expires, and a
    pass of moral repair respects the ledgers of [settled_world]. *)
Lemma status_transitions_one_way_witness :
  (status fulfilled_vector <> pending /\
   fst (enforce SIM_CONFIG normRegistry 1 0 fulfilled_vector settled_world zero_rng)
   = mkOutcome fulfilled_vector settled_world (Normal None)) /\
  (status aging_vector = pending /\
   uses_default normRegistry (norm aging_vector) /\
   In (status (o_vec (fst (enforce SIM_CONFIG normRegistry 1 0 aging_vector
                             settled_world zero_rng))))
      [pending; fulfilled; denied; expired]) /\
  ((forall l, map_wf (relationalLedger (heap settled_world l))) /\
   repairs (heap settled_world)
     (heap (fst (moralRepair SIM_CONFIG 0 [0; 1] settled_world zero_rng)))).
Proof.
  assert (Hnp : status fulfilled_vector <> pending) by discriminate.
  assert (Hud : uses_default normRegistry (norm aging_vector)).
  { unfold uses_default. vm_compute. right. reflexivity. }
  split; [|split].
  - split; [exact Hnp|].
    apply (status_transitions_one_way SIM_CONFIG normRegistry 1 0
             fulfilled_vector settled_world zero_rng [0; 1]). exact Hnp.
  - split; [reflexivity|]. split; [exact Hud|].
    apply (status_transitions_one_way SIM_CONFIG normRegistry 1 0
             aging_vector settled_world zero_rng [0; 1]);
      [reflexivity | right; exact Hud].
  - split; [exact settled_world_wf|].
    apply (status_transitions_one_way SIM_CONFIG normRegistry 1 0
             aging_vector settled_world zero_rng [0; 1]).
    exact settled_world_wf.
Defined.

(** ** Trust updates of [enforce] *)

Lemma num_or_zero x : (num_or x 0 == x)%Q.
Proof.
  unfold num_or. destruct (Qeq_bool x 0) eqn:E; [|reflexivity].
  apply Qeq_bool_iff in E. symmetry. exact E.
Qed.

Lemma trust_of_set k x m : (trust_of (map_set k x m) k == x)%Q.
Proof. unfold trust_of. rewrite map_get_set_eq. apply num_or_zero. Qed.

Lemma recordTrust_id cfg k ok a : id (recordTrust cfg k ok a) = id a.
Proof. reflexivity. Qed.

Lemma resolve_bookkeeping_trust cfg frame gen s t v w :
  s <> t ->
  let w' := snd (resolve_bookkeeping cfg frame gen s t v w) in
  (trust_toward (heap w') s t
   == trust_toward (heap w) s t + trust_delta cfg (status v))%Q /\
  (trust_toward (heap w') t s
   == trust_toward (heap w) t s + trust_delta cfg (status v))%Q.
Proof.
  intros Hne. unfold resolve_bookkeeping, trust_toward, trust_delta. simpl.
  assert (Hts : t <> s) by congruence.
  rewrite !modify_eq.
  rewrite !(modify_ne _ s _ t) by exact Hts.
  rewrite !(modify_ne _ t _ s) by exact Hne.
  rewrite !modify_eq.
  unfold recordTrust, ledger_set. simpl.
  split.
  - rewrite trust_of_set. destruct (status_eqb (status v) fulfilled); reflexivity.
  - rewrite trust_of_set. destruct (status_eqb (status v) fulfilled); reflexivity.
Qed.

Lemma settle_trust cfg frame gen v w s t :
  source v = Some s -> target v = Some t -> s <> t ->
  status v = fulfilled \/ status v = denied ->
  let r := settle cfg frame gen v w in
  o_completion r = Normal None /\
  (trust_toward (heap (o_world r)) s t
   == trust_toward (heap w) s t + trust_delta cfg (status v))%Q /\
  (trust_toward (heap (o_world r)) t s
   == trust_toward (heap w) t s + trust_delta cfg (status v))%Q.
Proof.
  intros Hs Ht Hne Hst. unfold settle. rewrite Hs, Ht.
  assert (Hb : status_eqb (status v) fulfilled || status_eqb (status v) denied = true).
  { apply orb_true_iff. destruct Hst as [H | H]; [left | right];
      apply status_eqb_eq; exact H. }
  rewrite Hb.
  match goal with
  | |- context [resolve_bookkeeping cfg frame gen s t v ?w1] =>
      pose proof (resolve_bookkeeping_trust cfg frame gen s t v w1 Hne) as Hrb;
      destruct (resolve_bookkeeping cfg frame gen s t v w1) as [v' w'] eqn:E
  end.
  simpl in Hrb. simpl. split; [reflexivity|].
  destruct Hrb as [H1 H2].
  assert (Hts : t <> s) by congruence.
  unfold trust_toward in *. simpl in H1, H2.
  rewrite modify_eq in H1, H2.
  rewrite (modify_ne _ s _ t) in H1, H2 by exact Hts.
  simpl in H1, H2. split; assumption.
Qed.

Lemma settle_pending cfg frame gen v w :
  status v = pending -> settle cfg frame gen v w = mkOutcome v w (Normal None).
Proof. intros H. unfold settle. rewrite H. reflexivity. Qed.

(** The shape of a step of [enforce] that passes the gate: the status is
    decided from what the enforcement function returned and the last
    block of [enforce] settles it. *)
Lemma enforce_arrived cfg reg frame gen v w rng s t res s' t' :
  source v = Some s -> target v = Some t -> status v = pending ->
  S (age v) <= maxAge v ->
  gate_closed (at_gate frame v) = false ->
  let left_by_rule :=
    fst (call_enforceFn cfg reg (enforce_impl reg (norm (at_gate frame v)))
           (at_gate frame v) gen w rng) in
  o_completion left_by_rule = Normal res ->
  source (o_vec left_by_rule) = Some s' ->
  target (o_vec left_by_rule) = Some t' ->
  exists st,
    (st = fulfilled \/ st = denied \/ st = pending) /\
    fst (enforce cfg reg frame gen v w rng)
    = settle cfg frame gen (set_status (o_vec left_by_rule) st)
        (o_world left_by_rule).
Proof.
  intros Hs Ht Hp Hage Hgate left_by_rule Hc Hs' Ht'.
  unfold enforce. rewrite Hs, Ht, Hp. cbv zeta.
  assert (Hlt : Nat.ltb (maxAge (set_age v (S (age v))))
                        (age (set_age v (S (age v)))) = false).
  { apply Nat.ltb_ge. simpl. exact Hage. }
  rewrite Hlt.
  fold (at_gate frame v). unfold gate_closed in Hgate. rewrite Hgate.
  fold (enforce_impl reg (norm (at_gate frame v))).
  unfold bind.
  subst left_by_rule.
  destruct (call_enforceFn cfg reg (enforce_impl reg (norm (at_gate frame v)))
              (at_gate frame v) gen w rng) as [r1 rng1].
  simpl in *. rewrite Hc.
  destruct (canonical res) as [st|] eqn:Hcan.
  - exists st. split; [exact (canonical_cases _ _ Hcan) | reflexivity].
  - rewrite Hs', Ht'. unfold random0, bind, draw, ret. simpl.
    match goal with
    | |- context [if ?b then fulfilled else denied] => destruct b
    end; eexists; (split; [|reflexivity]); auto.
Qed.

(** C3, as stated, fails in its second part: resolution is gated on the
    arrival of the animation of the vector, so for two agents that both
    acknowledge ["legal"] and are within the proximity threshold a vector
    fresh from the constructor is not fulfilled by one enforcement
    step. *)
Lemma scenario_A_not_fulfilled_in_one_step :
  ~ (forall cfg frame gen rng rng' w s t str,
       s <> t ->
       acknowledges "legal" (heap w s) = true ->
       acknowledges "legal" (heap w t) = true ->
       dist_lt (pos (heap w s)) (pos (heap w t)) (proximityThreshold cfg) = true ->
       status (o_vec (fst (enforce cfg normRegistry (S frame) gen
                             (fst (new_ObligationVector cfg frame s t str "legal" rng))
                             w rng')))
       = fulfilled).
Proof.
  intros H.
  specialize (H SIM_CONFIG 0 0 zero_rng zero_rng quiet_world 0 1 1%Q).
  assert (Hne : 0 <> 1) by discriminate.
  specialize (H Hne eq_refl eq_refl eq_refl).
  vm_compute in H. discriminate H.
Qed.

(** C3, amended.  The bookkeeping of [enforce] updates trust
    symmetrically.  For a pending vector between two distinct agents:
    when the vector expires, the trust of the source toward the target
    and of the target toward the source both decrease by the configured
    decrement; while the gate is closed (the animation has not arrived)
    the step only ages and animates the vector and leaves the world as it
    is, so a fresh vector stays pending; once the gate is open and the
    enforcement function of the norm has returned, the step ends in
    ['fulfilled'], ['denied'] or ['pending'], and relative to the world
    left by that function both trust scores increase by the increment on
    ['fulfilled'] and both decrease by the decrement on ['denied']. *)
Theorem enforce_trust_symmetric (cfg : SimConfig) (reg : gmap string NormDef)
    (frame gen : nat) (v : ObligationVector) (w : World) (rng : Rng)
    (s t : loc) :
  source v = Some s -> target v = Some t -> s <> t -> status v = pending ->
  let r := fst (enforce cfg reg frame gen v w rng) in
  let left_by_rule :=
    fst (call_enforceFn cfg reg (enforce_impl reg (norm (at_gate frame v)))
           (at_gate frame v) gen w rng) in
  (maxAge v < S (age v) ->
     status (o_vec r) = expired /\
     (trust_toward (heap (o_world r)) s t
      == trust_toward (heap w) s t - trustDecrement cfg)%Q /\
     (trust_toward (heap (o_world r)) t s
      == trust_toward (heap w) t s - trustDecrement cfg)%Q) /\
  (S (age v) <= maxAge v -> gate_closed (at_gate frame v) = true ->
     r = mkOutcome (at_gate frame v) w (Normal None) /\
     status (o_vec r) = pending) /\
  (S (age v) <= maxAge v -> gate_closed (at_gate frame v) = false ->
   o_completion left_by_rule <> TypeError ->
   source (o_vec left_by_rule) = Some s ->
   target (o_vec left_by_rule) = Some t ->
     In (status (o_vec r)) [fulfilled; denied; pending] /\
     (status (o_vec r) = fulfilled ->
        (trust_toward (heap (o_world r)) s t
         == trust_toward (heap (o_world left_by_rule)) s t + trustIncrement cfg)%Q /\
        (trust_toward (heap (o_world r)) t s
         == trust_toward (heap (o_world left_by_rule)) t s + trustIncrement cfg)%Q) /\
     (status (o_vec r) = denied ->
        (trust_toward (heap (o_world r)) s t
         == trust_toward (heap (o_world left_by_rule)) s t - trustDecrement cfg)%Q /\
        (trust_toward (heap (o_world r)) t s
         == trust_toward (heap (o_world left_by_rule)) t s - trustDecrement cfg)%Q) /\
     (status (o_vec r) = pending -> o_world r = o_world left_by_rule)).
Proof.
  intros Hs Ht Hne Hp r left_by_rule. split; [|split].
  - (* expiry *)
    intros Hage. subst r. unfold enforce. rewrite Hs, Ht, Hp. cbv zeta.
    assert (Hlt : Nat.ltb (maxAge (set_age v (S (age v))))
                          (age (set_age v (S (age v)))) = true).
    { apply Nat.ltb_lt. simpl. lia. }
    rewrite Hlt.
    match goal with
    | |- context [resolve_bookkeeping cfg frame gen s t ?v1 w] =>
        pose proof (resolve_bookkeeping_trust cfg frame gen s t v1 w Hne) as Hrb;
        destruct (resolve_bookkeeping cfg frame gen s t v1 w) as [v' w'] eqn:E
    end.
    unfold ret. simpl in *. split.
    + apply (f_equal fst) in E. simpl in E. subst v'. reflexivity.
    + exact Hrb.
  - (* gate closed *)
    intros Hage Hgate. subst r. unfold enforce. rewrite Hs, Ht, Hp. cbv zeta.
    assert (Hlt : Nat.ltb (maxAge (set_age v (S (age v))))
                          (age (set_age v (S (age v)))) = false).
    { apply Nat.ltb_ge. simpl. exact Hage. }
    rewrite Hlt. fold (at_gate frame v).
    unfold gate_closed in Hgate. rewrite Hgate. unfold ret. simpl.
    split; [reflexivity|].
    unfold at_gate. rewrite stepAnimation_status. exact Hp.
  - (* gate open *)
    intros Hage Hgate Hc Hs' Ht'.
    destruct (o_completion left_by_rule) as [res|] eqn:Hres; [|congruence].
    destruct (enforce_arrived cfg reg frame gen v w rng s t res s t
                Hs Ht Hp Hage Hgate Hres Hs' Ht') as [st [Hst Henf]].
    fold left_by_rule in Henf. subst r. rewrite Henf.
    rewrite settle_status. simpl.
    split; [destruct Hst as [-> | [-> | ->]]; simpl; auto|].
    split; [|split].
    + intros ->.
      destruct (settle_trust cfg frame gen
                  (set_status (o_vec left_by_rule) fulfilled)
                  (o_world left_by_rule) s t Hs' Ht' Hne
                  (or_introl eq_refl)) as [_ H].
      exact H.
    + intros ->.
      destruct (settle_trust cfg frame gen
                  (set_status (o_vec left_by_rule) denied)
                  (o_world left_by_rule) s t Hs' Ht' Hne
                  (or_intror eq_refl)) as [_ H].
      exact H.
    + intros ->. rewrite settle_pending by reflexivity. reflexivity.
Qed.

(** The three cases on concrete vectors between the two agents of
    [quiet_world]. *)
Lemma enforce_trust_symmetric_witness :
  (* an expiring vector *)
  (status (o_vec (fst (enforce SIM_CONFIG normRegistry 1 0 aging_vector
                         quiet_world zero_rng))) = expired /\
   (trust_toward (heap (o_world (fst (enforce SIM_CONFIG normRegistry 1 0
                                        aging_vector quiet_world zero_rng)))) 0%nat 1%nat
    == trust_toward (heap quiet_world) 0%nat 1%nat - trustDecrement SIM_CONFIG)%Q) /\
  (* a fresh vector between two acknowledging agents in reach *)
  (acknowledges "legal" (heap quiet_world 0) = true /\
   acknowledges "legal" (heap quiet_world 1) = true /\
   dist_lt (pos (heap quiet_world 0)) (pos (heap quiet_world 1))
           (proximityThreshold SIM_CONFIG) = true /\
   fst (enforce SIM_CONFIG normRegistry 1 0 fresh_vector quiet_world zero_rng)
   = mkOutcome (at_gate 1 fresh_vector) quiet_world (Normal None)) /\
  (* a vector that has arrived *)
  (status (o_vec (fst (enforce SIM_CONFIG normRegistry 1 0 arrived_vector
                         quiet_world zero_rng))) = fulfilled /\
   (trust_toward (heap (o_world (fst (enforce SIM_CONFIG normRegistry 1 0
                                        arrived_vector quiet_world zero_rng)))) 1%nat 0%nat
    == trust_toward (heap quiet_world) 1%nat 0%nat + trustIncrement SIM_CONFIG)%Q).
Proof.
  assert (Hne : 0 <> 1) by discriminate.
  split; [|split].
  - destruct (enforce_trust_symmetric SIM_CONFIG normRegistry 1 0 aging_vector
                quiet_world zero_rng 0 1 eq_refl eq_refl Hne eq_refl)
      as [Hexp _].
    destruct Hexp as [H1 [H2 _]]; [simpl; lia|]. split; assumption.
  - destruct (enforce_trust_symmetric SIM_CONFIG normRegistry 1 0 fresh_vector
                quiet_world zero_rng 0 1 eq_refl eq_refl Hne eq_refl)
      as [_ [Hgate _]].
    destruct Hgate as [H1 _]; [vm_compute; lia | vm_compute; reflexivity |].
    split; [reflexivity|]. split; [reflexivity|]. split; [reflexivity|].
    exact H1.
  - destruct (enforce_trust_symmetric SIM_CONFIG normRegistry 1 0 arrived_vector
                quiet_world zero_rng 0 1 eq_refl eq_refl Hne eq_refl)
      as [_ [_ Hopen]].
    assert (Hst : status (o_vec (fst (enforce SIM_CONFIG normRegistry 1 0
                    arrived_vector quiet_world zero_rng))) = fulfilled)
      by (vm_compute; reflexivity).
    destruct Hopen as [_ [Hful _]];
      [simpl; lia | vm_compute; reflexivity | vm_compute; discriminate
      | reflexivity | reflexivity |].
    split; [exact Hst|].
    destruct (Hful Hst) as [_ H2].
    rewrite H2. vm_compute. reflexivity.
Defined.

(** *** The default rule reached through the gate

    Two facts on the way [enforce] of [agent.js] and [defaultEnforce] of
    [norms.js] fit together.  They are not part of the amended statement
    above. *)

(** The fulfilment of [defaultEnforce] raises the trust of the source
    toward the target only. *)
Lemma defaultEnforce_fulfils_one_way cfg reg gen vec w s t n d :
  source vec = Some s -> target vec = Some t -> s <> t ->
  normType vec = Some n -> reg !! n = Some d ->
  acknowledgeFn d (heap w s) = true -> acknowledgeFn d (heap w t) = true ->
  fulfilled_flag vec = false ->
  match expiration vec with Some e => Nat.leb e (age vec) | None => false end = false ->
  dist_lt (pos (heap w s)) (pos (heap w t)) (proximityThreshold cfg) = true ->
  let r := defaultEnforce cfg reg gen vec w in
  fulfilled_flag (o_vec r) = true /\
  (trust_toward (heap (o_world r)) s t
   == trust_toward (heap w) s t + trustIncrement cfg)%Q /\
  trustMap (heap (o_world r) t) = trustMap (heap w t).
Proof.
  intros Hs Ht Hne Hn Hreg Has Hat Hf He Hd.
  unfold defaultEnforce. rewrite Hs, Ht, Hn. simpl registry_key. rewrite Hreg.
  cbv zeta. rewrite Has, Hat, Hf, He, Hd. simpl.
  split; [reflexivity|]. split.
  - unfold trust_toward. rewrite modify_eq.
    rewrite (modify_ne _ s _ t) by congruence.
    unfold ledger_set. simpl. apply trust_of_set.
  - rewrite modify_ne by congruence. reflexivity.
Qed.

(** A vector built by the constructor of [agent.js] carries no
    [normType]: when the default rule is called for it, the lookup
    [normRegistry[undefined]] finds nothing and the step ends in a
    [TypeError], the vector still pending and the world as before. *)
Lemma enforce_default_without_normType cfg reg frame gen v w rng s t :
  source v = Some s -> target v = Some t -> status v = pending ->
  S (age v) <= maxAge v ->
  gate_closed (at_gate frame v) = false ->
  normType v = None -> reg !! "undefined" = None ->
  uses_default reg (norm v) ->
  let r := fst (enforce cfg reg frame gen v w rng) in
  o_completion r = TypeError /\ status (o_vec r) = pending /\ o_world r = w.
Proof.
  intros Hs Ht Hp Hage Hgate Hn Hreg Hud.
  unfold enforce. rewrite Hs, Ht, Hp. cbv zeta.
  assert (Hlt : Nat.ltb (maxAge (set_age v (S (age v))))
                        (age (set_age v (S (age v)))) = false).
  { apply Nat.ltb_ge. simpl. exact Hage. }
  rewrite Hlt. fold (at_gate frame v).
  unfold gate_closed in Hgate. rewrite Hgate.
  fold (enforce_impl reg (norm (at_gate frame v))).
  assert (Himpl : enforce_impl reg (norm (at_gate frame v)) = UseDefault).
  { unfold at_gate. rewrite stepAnimation_norm. simpl.
    unfold uses_default in Hud. unfold enforce_impl.
    destruct (reg !! norm v) as [d|]; [|reflexivity].
    destruct Hud as [H | H]; rewrite H; reflexivity. }
  rewrite Himpl. unfold bind, call_enforceFn, ret.
  assert (Hde : defaultEnforce cfg reg gen (at_gate frame v) w
                = mkOutcome (at_gate frame v) w TypeError).
  { unfold defaultEnforce.
    destruct (stepAnimation_endpoints frame (set_age v (S (age v))))
      as [Hs2 [Ht2 Hn2]].
    fold (at_gate frame v) in Hs2, Ht2, Hn2. simpl in Hs2, Ht2, Hn2.
    rewrite Hs2, Ht2, Hn2, Hs, Ht, Hn. simpl registry_key.
    rewrite Hreg. reflexivity. }
  rewrite Hde. simpl.
  split; [reflexivity|]. split; [|reflexivity].
  unfold at_gate. rewrite stepAnimation_status. exact Hp.
Qed.

(** ** Denial by the default rule *)






(** For the built-in norms the delegating [enforce] is the default
    rule. *)
Lemma enforce_delegating_default cfg reg gen vec w rng :
  uses_default reg (registry_key (normType vec)) ->
  enforce_delegating cfg reg gen vec w rng = (defaultEnforce cfg reg gen vec w, rng).
Proof.
  unfold uses_default, enforce_delegating.
  destruct (reg !! registry_key (normType vec)) as [d|]; [|reflexivity].
  intros [H | H]; rewrite H; reflexivity.
Qed.



(** ** Obligation generation *)








(** *** The generation step around the sampling *)

Lemma filterM_In {A} (f : A -> M bool) (l : list A) : forall rng x,
  In x (fst (filterM f l rng)) -> In x l.
Proof.
  induction l as [|a l IH]; intros rng x; simpl; [tauto|].
  unfold bind. destruct (f a rng) as [keep rng1].
  specialize (IH rng1 x). destruct (filterM f l rng1) as [r rng2].
  unfold ret. simpl in *. destruct keep; simpl; intuition.
Qed.








(** ** The population cap *)







(** ** Hostile pairs *)

Section DictFacts.
Context {V : Type}.
Implicit Types (d : list (string * V)) (k : string) (v : V).



End DictFacts.




(** *** Keys of bar-free labels *)









(** * Further properties of the sources *)

(** ** Keys of group pairs are symmetric *)

Lemma pair_key_sym (g1 g2 : string) : pair_key g1 g2 = pair_key g2 g1.
Proof.
  unfold pair_key, String.ltb.
  pose proof (String.compare_antisym g1 g2) as Ha.
  destruct (String.compare g2 g1) eqn:E21; simpl in Ha; rewrite Ha.
  - apply String.compare_eq_iff in E21. subst. reflexivity.
  - reflexivity.
  - reflexivity.
Qed.

Lemma Qltb_comp (x x' y y' : Q) :
  (x == x')%Q -> (y == y')%Q -> Qltb x y = Qltb x' y'.
Proof. intros Hx Hy. unfold Qltb. rewrite Hx, Hy. reflexivity. Qed.

Lemma dist_lt_sym (p q : Q * Q) (thr : Q) : dist_lt p q thr = dist_lt q p thr.
Proof.
  unfold dist_lt. f_equal. apply Qltb_comp; [ring | reflexivity].
Qed.

(** X1.  The key of a pair of groups does not depend on the order of the
    two labels, so hostility is symmetric, and so is eligibility in
    [generateObligations]: an agent of the population is an eligible
    target of another exactly when the other is an eligible target of
    it. *)
Theorem hostility_symmetric (hp : gset string) (h : Heap) (ags : list loc)
    (prox : Q) (a b : loc) :
  hostile hp (affiliation (h a)) (affiliation (h b))
  = hostile hp (affiliation (h b)) (affiliation (h a)) /\
  (In a ags -> In b ags ->
   (In b (nearby_of prox hp h ags a) <-> In a (nearby_of prox hp h ags b))).
Proof.
  assert (Hsym : forall g1 g2, hostile hp g1 g2 = hostile hp g2 g1).
  { intros g1 g2. unfold hostile. rewrite pair_key_sym. reflexivity. }
  split; [apply Hsym|].
  intros Ha Hb.
  assert (Hone : forall x y, In x ags -> In y (nearby_of prox hp h ags x) ->
                             In x (nearby_of prox hp h ags y)).
  { intros x y Hx Hy. unfold nearby_of in *.
    apply List.filter_In in Hy. destruct Hy as [Hy Hhost].
    apply List.filter_In in Hy. destruct Hy as [_ Hnear].
    apply andb_true_iff in Hnear. destruct Hnear as [Hne Hd].
    apply List.filter_In. split.
    - apply List.filter_In. split; [exact Hx|].
      apply andb_true_iff. split.
      + apply negb_true_iff, Nat.eqb_neq in Hne.
        apply negb_true_iff, Nat.eqb_neq. congruence.
      + rewrite dist_lt_sym. exact Hd.
    - rewrite Hsym. exact Hhost. }
  split; intros H; apply Hone; assumption.
Qed.

Lemma hostility_symmetric_witness :
  In 0 [0; 1] /\ In 1 [0; 1] /\
  (In 1 (nearby_of 150 ∅ two_agents [0; 1] 0)
   <-> In 0 (nearby_of 150 ∅ two_agents [0; 1] 1)).
Proof.
  assert (H0 : In 0 [0; 1]) by (simpl; auto).
  assert (H1 : In 1 [0; 1]) by (simpl; auto).
  split; [exact H0|]. split; [exact H1|].
  apply (hostility_symmetric ∅ two_agents [0; 1] 150 0 1); assumption.
Defined.

(** ** Scenario classification *)

(** X2.  [classifyScenario] counts the acknowledged norms among the four
    built-in ones and compares the count with [normTypes.length].  With a
    non-empty list of norm types an agent is ['collapsed'] exactly when it
    acknowledges none of the four.  Once the list has more than four
    entries (a norm was added at run time) no agent is ['utopian']: an
    agent that acknowledges all four built-in norms is ['pluralist']. *)
Theorem classifyScenario_edges (cfg : SimConfig) (a : Agent) :
  (normTypes cfg <> [] ->
   (classifyScenario cfg a = "collapsed" <->
    acknowledges "apriori" a = false /\ acknowledges "legal" a = false /\
    acknowledges "care" a = false /\ acknowledges "epistemic" a = false)) /\
  (4 < length (normTypes cfg) ->
   classifyScenario cfg a <> "utopian" /\
   (acknowledges "apriori" a = true -> acknowledges "legal" a = true ->
    acknowledges "care" a = true -> acknowledges "epistemic" a = true ->
    classifyScenario cfg a = "pluralist")).
Proof.
  unfold classifyScenario. split.
  - intros Hne.
    assert (Hlen : length (normTypes cfg) <> 0).
    { destruct (normTypes cfg); [congruence | simpl; lia]. }
    destruct (length (normTypes cfg)) as [|[|[|[|[|n]]]]]; [lia| | | | |];
      destruct (acknowledges "apriori" a), (acknowledges "legal" a),
               (acknowledges "care" a), (acknowledges "epistemic" a); simpl;
      (split;
       [ let H := fresh in
         intros H; first [discriminate H | repeat split; reflexivity]
       | let H := fresh in
         intros H;
         first [reflexivity | destruct H as [? [? [? ?]]]; discriminate] ]).
  - intros Hlen.
    destruct (length (normTypes cfg)) as [|[|[|[|[|n]]]]]; try lia.
    destruct (acknowledges "apriori" a), (acknowledges "legal" a),
             (acknowledges "care" a), (acknowledges "epistemic" a); simpl;
      (split; [discriminate | intros; first [reflexivity | discriminate]]).
Qed.

Lemma classifyScenario_edges_witness :
  normTypes SIM_CONFIG <> [] /\
  classifyScenario SIM_CONFIG (blank_agent 0 (0%Q, 0%Q) ∅ "pref_legal") = "collapsed".
Proof.
  assert (Hne : normTypes SIM_CONFIG <> []) by discriminate.
  split; [exact Hne|].
  apply (classifyScenario_edges SIM_CONFIG (blank_agent 0 (0%Q, 0%Q) ∅ "pref_legal"));
    [exact Hne|]. repeat split; reflexivity.
Defined.

(** ** Ledger-derived metrics and trust bookkeeping of an agent *)

Lemma count_status_two (s1 s2 : Status) (l : list Status) :
  s1 <> s2 -> count_status s1 l + count_status s2 l <= length l.
Proof.
  intros Hne. unfold count_status. induction l as [|x l IH]; simpl; [lia|].
  rewrite !filter_cons.
  destruct (decide (x = s1)) as [H1|H1], (decide (x = s2)) as [H2|H2];
    simpl; try lia. congruence.
Qed.

(** X3.  [updateConflictAndDebt] recomputes both metrics from the ledger
    alone: afterwards [internalConflict <= contradictionDebt <=
    relationalLedger.size], the ledger and the trust map are as before, a
    preceding [incrementContradictionDebt] leaves no trace, and a second
    call changes nothing. *)
Theorem updateConflictAndDebt_derived (a : Agent) :
  let a' := updateConflictAndDebt a in
  internalConflict a' <= contradictionDebt a' /\
  contradictionDebt a' <= length (relationalLedger a) /\
  relationalLedger a' = relationalLedger a /\
  trustMap a' = trustMap a /\
  updateConflictAndDebt (incrementContradictionDebt a) = a' /\
  updateConflictAndDebt a' = a'.
Proof.
  cbv zeta. unfold updateConflictAndDebt, incrementContradictionDebt. simpl.
  split; [lia|]. split.
  - pose proof (count_status_two denied expired
                  (map_values (relationalLedger a))) as H.
    unfold map_values in *. rewrite length_map in H. apply H. discriminate.
  - repeat split; reflexivity.
Qed.

Lemma Qnat_succ (n : nat) : (Qnat (S n) == Qnat n + 1)%Q.
Proof.
  unfold Qnat. rewrite Nat2Z.inj_succ, <- Z.add_1_r, inject_Z_plus. reflexivity.
Qed.

Lemma recordTrust_trust cfg k ok a :
  (trust_of (trustMap (recordTrust cfg k ok a)) k
   == trust_of (trustMap a) k
      + (if ok then trustIncrement cfg else - trustDecrement cfg))%Q.
Proof. unfold recordTrust. simpl. apply trust_of_set. Qed.

Lemma recordTrust_failures cfg k a (n : nat) :
  (trust_of (trustMap (Nat.iter n (recordTrust cfg k false) a)) k
   == trust_of (trustMap a) k - Qnat n * trustDecrement cfg)%Q.
Proof.
  induction n as [|n IH].
  - simpl. unfold Qnat. simpl. ring.
  - change (Nat.iter (S n) (recordTrust cfg k false) a)
      with (recordTrust cfg k false (Nat.iter n (recordTrust cfg k false) a)).
    rewrite recordTrust_trust, IH, Qnat_succ. ring.
Qed.

(** X4.  [recordTrust(targetID, fulfilled)] moves the trust toward
    [targetID] by the increment or by minus the decrement and touches no
    other entry of the trust map nor the ledger.  A success followed by a
    failure leaves [+ increment - decrement], and trust has no floor:
    [n] failures in a row lower it by [n] times the decrement. *)
Theorem recordTrust_bookkeeping (cfg : SimConfig) (k : nat) (ok : bool)
    (a : Agent) (n : nat) :
  (trust_of (trustMap (recordTrust cfg k ok a)) k
   == trust_of (trustMap a) k
      + (if ok then trustIncrement cfg else - trustDecrement cfg))%Q /\
  (forall k', k' <> k ->
     map_get k' (trustMap (recordTrust cfg k ok a)) = map_get k' (trustMap a)) /\
  relationalLedger (recordTrust cfg k ok a) = relationalLedger a /\
  (trust_of (trustMap (recordTrust cfg k false (recordTrust cfg k true a))) k
   == trust_of (trustMap a) k + trustIncrement cfg - trustDecrement cfg)%Q /\
  (trust_of (trustMap (Nat.iter n (recordTrust cfg k false) a)) k
   == trust_of (trustMap a) k - Qnat n * trustDecrement cfg)%Q.
Proof.
  split; [apply recordTrust_trust|]. split.
  - intros k' Hne. unfold recordTrust. simpl. apply map_get_set_ne. exact Hne.
  - split; [reflexivity|]. split.
    + rewrite !recordTrust_trust. ring.
    + apply recordTrust_failures.
Qed.

Lemma recordTrust_bookkeeping_witness :
  1 <> 2 /\
  map_get 1 (trustMap (recordTrust SIM_CONFIG 2 true (two_agents 0)))
  = map_get 1 (trustMap (two_agents 0)).
Proof.
  assert (Hne : 1 <> 2) by discriminate.
  split; [exact Hne|].
  apply (recordTrust_bookkeeping SIM_CONFIG 2 true (two_agents 0) 0). exact Hne.
Defined.

(** ** Position wrapping and animation *)

Lemma wrap_axis_bounds (x lo hi : Q) :
  (lo <= hi)%Q -> (lo <= wrap_axis x lo hi)%Q /\ (wrap_axis x lo hi <= hi)%Q.
Proof.
  intros Hle. unfold wrap_axis.
  destruct (Qltb x lo) eqn:E1.
  - destruct (Qltb hi hi) eqn:E2.
    + apply Qltb_lt in E2. lra.
    + lra.
  - assert (Hx : (lo <= x)%Q).
    { apply Qnot_lt_le. intros H. apply Qltb_lt in H. congruence. }
    destruct (Qltb hi x) eqn:E2.
    + lra.
    + assert (Hx2 : (x <= hi)%Q).
      { apply Qnot_lt_le. intros H. apply Qltb_lt in H. congruence. }
      lra.
Qed.

Lemma wrap_axis_inside (x lo hi : Q) :
  (lo <= x)%Q -> (x <= hi)%Q -> wrap_axis x lo hi = x.
Proof.
  intros H1 H2. unfold wrap_axis.
  destruct (Qltb x lo) eqn:E1; [apply Qltb_lt in E1; lra|].
  destruct (Qltb hi x) eqn:E2; [apply Qltb_lt in E2; lra|]. reflexivity.
Qed.

(** X5.  When the margins leave room on the canvas, [wrapAround] puts
    the agent inside the band between the margins on both axes and
    changes nothing but the position; a second call changes nothing. *)
Theorem wrapAround_inside_margins (cfg : SimConfig) (a : Agent) :
  (marginLeft cfg <= canvasWidth cfg - marginRight cfg)%Q ->
  (marginTop cfg <= canvasHeight cfg - marginBottom cfg)%Q ->
  let a' := wrapAround cfg a in
  (marginLeft cfg <= fst (pos a'))%Q /\
  (fst (pos a') <= canvasWidth cfg - marginRight cfg)%Q /\
  (marginTop cfg <= snd (pos a'))%Q /\
  (snd (pos a') <= canvasHeight cfg - marginBottom cfg)%Q /\
  set_pos a' (pos a) = set_pos a (pos a) /\
  wrapAround cfg a' = a'.
Proof.
  intros Hx Hy. cbv zeta. unfold wrapAround. simpl.
  destruct (wrap_axis_bounds (fst (pos a)) _ _ Hx) as [Hx1 Hx2].
  destruct (wrap_axis_bounds (snd (pos a)) _ _ Hy) as [Hy1 Hy2].
  repeat split; try assumption.
  unfold set_pos. simpl.
  rewrite (wrap_axis_inside _ _ _ Hx1 Hx2), (wrap_axis_inside _ _ _ Hy1 Hy2).
  reflexivity.
Qed.

Lemma wrapAround_inside_margins_witness :
  (marginLeft SIM_CONFIG <= canvasWidth SIM_CONFIG - marginRight SIM_CONFIG)%Q /\
  (marginTop SIM_CONFIG <= canvasHeight SIM_CONFIG - marginBottom SIM_CONFIG)%Q /\
  (marginLeft SIM_CONFIG <= fst (pos (wrapAround SIM_CONFIG (two_agents 0%nat))))%Q.
Proof.
  assert (Hx : (marginLeft SIM_CONFIG
                <= canvasWidth SIM_CONFIG - marginRight SIM_CONFIG)%Q)
    by (vm_compute; discriminate).
  assert (Hy : (marginTop SIM_CONFIG
                <= canvasHeight SIM_CONFIG - marginBottom SIM_CONFIG)%Q)
    by (vm_compute; discriminate).
  split; [exact Hx|]. split; [exact Hy|].
  apply (wrapAround_inside_margins SIM_CONFIG (two_agents 0%nat) Hx Hy).
Defined.

Lemma Qnat_nonneg (n : nat) : (0 <= Qnat n)%Q.
Proof. unfold Qnat, Qle. simpl. lia. Qed.

Lemma Qnat_le (n m : nat) : n <= m -> (Qnat n <= Qnat m)%Q.
Proof. intros H. unfold Qnat, Qle. simpl. lia. Qed.

(** X6.  [stepAnimation] never lets [animT] decrease nor pass [1]: with a
    non-negative speed, [animT] grows by at most [animSpeed], stays at
    most [1] once it is, and does not move at all before the spawn frame;
    nothing but [animT] changes. *)
Theorem stepAnimation_bounds (frame : nat) (v : ObligationVector) :
  (0 <= animSpeed v)%Q ->
  let v' := stepAnimation frame v in
  (animT v <= animT v')%Q /\
  (animT v' <= animT v + animSpeed v)%Q /\
  ((animT v <= 1)%Q -> (animT v' <= 1)%Q) /\
  (frame < spawnFrame v -> v' = v) /\
  set_animT v' (animT v) = set_animT v (animT v).
Proof.
  intros Hs. cbv zeta. unfold stepAnimation.
  destruct (Nat.ltb frame (spawnFrame v)) eqn:Hf.
  - repeat split; try lra; auto.
  - destruct (Qltb (animT v) 1) eqn:Ht.
    + apply Qltb_lt in Ht.
      change (animT (set_animT v (Qmin 1 (animT v + animSpeed v))))
        with (Qmin 1 (animT v + animSpeed v)).
      pose proof (Q.le_min_l 1 (animT v + animSpeed v)) as Hl.
      pose proof (Q.le_min_r 1 (animT v + animSpeed v)) as Hr.
      assert (Hm : (animT v <= Qmin 1 (animT v + animSpeed v))%Q).
      { apply Q.min_glb; lra. }
      split; [exact Hm|]. split; [exact Hr|]. split; [intros _; exact Hl|].
      split; [|reflexivity].
      intros H. apply Nat.ltb_lt in H. congruence.
    + split; [lra|]. split; [lra|]. split; [intros H; exact H|].
      split; [|reflexivity].
      intros H. apply Nat.ltb_lt in H. congruence.
Qed.

Lemma stepAnimation_bounds_witness :
  (0 <= animSpeed fresh_vector)%Q /\
  (animT (stepAnimation 1 fresh_vector) <= animT fresh_vector + animSpeed fresh_vector)%Q.
Proof.
  assert (H : (0 <= animSpeed fresh_vector)%Q) by (vm_compute; discriminate).
  split; [exact H|].
  apply (stepAnimation_bounds 1 fresh_vector H).
Defined.

(** ** Vectors held back by the gate *)













(** ** What the constructor of obligation vectors draws *)

Lemma unit_value_bounds (d : Draw) : (0 <= unit_value d)%Q /\ (unit_value d < 1)%Q.
Proof.
  unfold unit_value, Qle, Qlt. simpl.
  rewrite Zpos_P_of_succ_nat. lia.
Qed.

Lemma floor_scaled_le_pred (d : Draw) (n : nat) : floor_scaled d n <= Nat.pred n.
Proof.
  unfold floor_scaled. destruct n as [|n].
  - rewrite Nat.mul_0_r. simpl. lia.
  - simpl Nat.pred.
    assert (H : (dnum d * S n) / S (dnum d + dgap d) < S n).
    { apply Nat.Div0.div_lt_upper_bound. nia. }
    lia.
Qed.

Lemma new_ObligationVector_eq cfg frame s t str n rng :
  new_ObligationVector cfg frame s t str n rng
  = ({| source := Some s; target := Some t; strength := str; norm := n;
        status := pending; age := 0;
        maxAge := expirationBase cfg
                  + floor_scaled (draws rng (cursor rng)) (expirationRandom cfg);
        animT := 0;
        animSpeed := (default (35 # 1000) (obligationAnimSpeed cfg)
                      * ((7 # 10) + unit_value (draws rng (S (cursor rng))) * (6 # 10)))%Q;
        spawnFrame := frame
                      + floor_scaled (draws rng (S (S (cursor rng))))
                          (default 24%nat (obligationSpawnJitter cfg));
        resolveOnArrival := true; resolvedAt := None;
        normType := None; fulfilled_flag := false; expiration := None |},
     mkRng (draws rng) (S (S (S (cursor rng))))).
Proof. reflexivity. Qed.

(** X8.  What a freshly built vector looks like.  The constructor draws
    exactly three random numbers; the vector is pending with age [0] and
    [animT = 0]; [maxAge] lies between [expirationBase] and
    [expirationBase + expirationRandom - 1]; the spawn frame is not before
    the current frame and at most [jitter - 1] frames after it; with a
    non-negative base speed, [animSpeed] lies between [0.7] and [1.3] times
    the base speed.  Consequently, in a configuration where
    [(expirationBase + expirationRandom - 1) * 1.3 * baseSpeed < 1], as in
    [config.js], every vector the constructor builds is outlived by its
    arrival gate. *)
Theorem new_ObligationVector_bounds (cfg : SimConfig) (frame : nat)
    (s t : loc) (str : Q) (n : string) (rng : Rng) :
  let speed := default (35 # 1000)%Q (obligationAnimSpeed cfg) in
  let jitter := default 24%nat (obligationSpawnJitter cfg) in
  let v := fst (new_ObligationVector cfg frame s t str n rng) in
  (0 <= speed)%Q ->
  source v = Some s /\ target v = Some t /\ strength v = str /\ norm v = n /\
  status v = pending /\ age v = 0 /\ animT v = 0%Q /\
  resolveOnArrival v = true /\
  expirationBase cfg <= maxAge v /\
  maxAge v <= expirationBase cfg + Nat.pred (expirationRandom cfg) /\
  frame <= spawnFrame v /\ spawnFrame v <= frame + Nat.pred jitter /\
  (speed * (7 # 10) <= animSpeed v)%Q /\ (animSpeed v <= speed * (13 # 10))%Q /\
  cursor (snd (new_ObligationVector cfg frame s t str n rng)) = cursor rng + 3 /\
  ((Qnat (expirationBase cfg + Nat.pred (expirationRandom cfg))
    * (speed * (13 # 10)) < 1)%Q -> outlived_by_gate v).
Proof.
  intros speed jitter v Hspeed.
  pose proof (floor_scaled_le_pred (draws rng (cursor rng)) (expirationRandom cfg)) as Hage.
  pose proof (floor_scaled_le_pred (draws rng (S (S (cursor rng)))) jitter) as Hjit.
  destruct (unit_value_bounds (draws rng (S (cursor rng)))) as [Hu0 Hu1].
  assert (Hlo : (speed * (7 # 10) <= animSpeed v)%Q).
  { subst v. rewrite new_ObligationVector_eq.
    cbn [fst animSpeed maxAge spawnFrame]. fold speed. nra. }
  assert (Hhi : (animSpeed v <= speed * (13 # 10))%Q).
  { subst v. rewrite new_ObligationVector_eq.
    cbn [fst animSpeed maxAge spawnFrame]. fold speed. nra. }
  assert (Hmax : maxAge v <= expirationBase cfg + Nat.pred (expirationRandom cfg)).
  { subst v. rewrite new_ObligationVector_eq.
    cbn [fst animSpeed maxAge spawnFrame]. lia. }
  split; [reflexivity|]. split; [reflexivity|]. split; [reflexivity|].
  split; [reflexivity|]. split; [reflexivity|]. split; [reflexivity|].
  split; [reflexivity|]. split; [reflexivity|].
  split.
  { subst v. rewrite new_ObligationVector_eq.
    cbn [fst animSpeed maxAge spawnFrame]. lia. }
  split; [exact Hmax|].
  split.
  { subst v. rewrite new_ObligationVector_eq.
    cbn [fst animSpeed maxAge spawnFrame]. lia. }
  split.
  { subst v. rewrite new_ObligationVector_eq.
    cbn [fst animSpeed maxAge spawnFrame]. fold jitter. lia. }
  split; [exact Hlo|]. split; [exact Hhi|].
  split.
  { rewrite new_ObligationVector_eq. cbn [snd cursor]. lia. }
  intros Hcfg. unfold outlived_by_gate.
  split; [reflexivity|].
  assert (H7 : (0 <= speed * (7 # 10))%Q) by nra.
  split; [lra|].
  assert (Ha : age v = 0) by reflexivity.
  assert (Ht : animT v = 0%Q) by reflexivity.
  rewrite Ha, Ht, Nat.sub_0_r.
  pose proof (Qnat_le _ _ Hmax) as Hq.
  pose proof (Qnat_nonneg (maxAge v)) as Hq0.
  assert (Hprod : (Qnat (maxAge v) * animSpeed v
                   <= Qnat (expirationBase cfg + Nat.pred (expirationRandom cfg))
                      * (speed * (13 # 10)))%Q).
  { apply Qle_trans with (Qnat (maxAge v) * (speed * (13 # 10)))%Q.
    - rewrite !(Qmult_comm (Qnat (maxAge v))).
      apply Qmult_le_compat_r; [exact Hhi | exact Hq0].
    - apply Qmult_le_compat_r; [exact Hq | nra]. }
  lra.
Qed.

Lemma new_ObligationVector_bounds_witness :
  (0 <= default (35 # 1000)%Q (obligationAnimSpeed SIM_CONFIG))%Q /\
  maxAge fresh_vector <= 19 /\ outlived_by_gate fresh_vector.
Proof.
  assert (H : (0 <= default (35 # 1000)%Q (obligationAnimSpeed SIM_CONFIG))%Q)
    by (vm_compute; discriminate).
  split; [exact H|].
  destruct (new_ObligationVector_bounds SIM_CONFIG 0 0 1 1 "legal" zero_rng H)
    as [_ [_ [_ [_ [_ [_ [_ [_ [_ [Hmax [_ [_ [_ [_ [_ Hout]]]]]]]]]]]]]]].
  split; [exact Hmax|].
  apply Hout. vm_compute. reflexivity.
Defined.

(** ** The enforcement loop of a frame *)




(** ** What a step of enforcement may touch *)
















(** ** Moral repair *)

Lemma Qltb_ge x y : Qltb x y = false <-> (y <= x)%Q.
Proof.
  unfold Qltb. rewrite negb_false_iff. apply Qle_bool_iff.
Qed.

Lemma softens_refl h : softens h h.
Proof. intros l k. left. reflexivity. Qed.

Lemma softens_trans h1 h2 h3 : softens h1 h2 -> softens h2 h3 -> softens h1 h3.
Proof.
  intros H1 H2 l k. destruct (H2 l k) as [E2 | E2]; [|right; exact E2].
  rewrite E2. apply H1.
Qed.

Lemma softens_set h l k : softens h (modify h l (ledger_set k repaired)).
Proof.
  intros l' k'. unfold modify, upd. destruct (Nat.eqb l' l) eqn:E; [|left; reflexivity].
  apply Nat.eqb_eq in E. subst l'. unfold ledger_set. simpl.
  destruct (Nat.eq_dec k' k) as [-> | Hne].
  - right. apply map_get_set_eq.
  - left. apply map_get_set_ne. exact Hne.
Qed.

Lemma set_relationalLedger_same a : set_relationalLedger a (relationalLedger a) = a.
Proof. destruct a. reflexivity. Qed.

Lemma repair_pass_refl gen ags w : repair_pass gen ags w w.
Proof.
  split; [apply softens_refl|].
  split; [intros l; apply set_relationalLedger_same|].
  split; [reflexivity|].
  exists []. rewrite app_nil_r. split; [reflexivity | constructor].
Qed.

Lemma repair_pass_trans gen ags w1 w2 w3 :
  repair_pass gen ags w1 w2 -> repair_pass gen ags w2 w3 ->
  repair_pass gen ags w1 w3.
Proof.
  intros [S1 [F1 [O1 [e1 [L1 R1]]]]] [S2 [F2 [O2 [e2 [L2 R2]]]]].
  split; [eapply softens_trans; eassumption|].
  split.
  { intros l.
    transitivity (set_relationalLedger
                    (set_relationalLedger (heap w3 l) (relationalLedger (heap w2 l)))
                    (relationalLedger (heap w1 l))); [reflexivity|].
    rewrite F2. apply F1. }
  split.
  { intros l Hl. rewrite O2, O1; auto. }
  exists (e1 ++ e2). split; [rewrite L2, L1, app_assoc; reflexivity|].
  apply Forall_app. split; [exact R1|].
  eapply Forall_impl; [exact R2|].
  intros e [Hst [Hn [Hg [l [Hin Hfrom]]]]].
  split; [exact Hst|]. split; [exact Hn|]. split; [exact Hg|].
  exists l. split; [exact Hin|].
  rewrite Hfrom, <- (F1 l). reflexivity.
Qed.

Lemma repair_entry_pass cfg gen ags l w e rng :
  In l ags -> repair_pass gen ags w (fst (repair_entry cfg gen l w e rng)).
Proof.
  intros Hin. unfold repair_entry. destruct e as [k st].
  destruct (status_eqb st denied || status_eqb st expired);
    [|apply repair_pass_refl].
  unfold random0, bind, draw, ret. cbn beta iota zeta. cbn [fst snd draws cursor].
  destruct (Qltb (unit_value (draws rng (cursor rng))) (repairChance cfg));
    cbn [fst]; [|apply repair_pass_refl].
  split; [apply softens_set|].
  split.
  { intros l'. cbn [log_push with_heap heap]. unfold modify, upd.
    destruct (Nat.eqb l' l) eqn:E; [|apply set_relationalLedger_same].
    apply Nat.eqb_eq in E. subst l'. destruct (heap w l). reflexivity. }
  split.
  { intros l' Hl'. cbn [log_push with_heap heap]. unfold modify, upd.
    destruct (Nat.eqb l' l) eqn:E; [|reflexivity].
    apply Nat.eqb_eq in E. subst l'. contradiction. }
  eexists. split; [reflexivity|].
  constructor; [|constructor].
  split; [reflexivity|]. split; [reflexivity|]. split; [reflexivity|].
  exists l. split; [exact Hin | reflexivity].
Qed.

Lemma repair_entries_pass cfg gen ags l es :
  In l ags -> forall w rng,
  repair_pass gen ags w (fst (foldM (repair_entry cfg gen l) es w rng)).
Proof.
  intros Hin. induction es as [|e es IH]; intros w rng.
  - apply repair_pass_refl.
  - rewrite foldM_cons. eapply repair_pass_trans; [|apply IH].
    apply repair_entry_pass. exact Hin.
Qed.

Lemma moralRepair_pass cfg gen ags ags' :
  incl ags' ags -> forall w rng,
  repair_pass gen ags w (fst (foldM (repair_agent cfg gen) ags' w rng)).
Proof.
  induction ags' as [|l ags' IH]; intros Hincl w rng.
  - apply repair_pass_refl.
  - rewrite foldM_cons. eapply repair_pass_trans.
    + unfold repair_agent. apply repair_entries_pass.
      apply Hincl. left. reflexivity.
    + apply IH. intros x Hx. apply Hincl. right. exact Hx.
Qed.

(** X11.  A pass of moral repair touches ledgers only: every property of
    every agent other than its ledger is as before, agents outside the
    population are untouched, a ledger entry either keeps its value or
    becomes ['repaired'], and the log is extended by entries that all
    record the status ['repaired'] under the norm name ['n/a'], for the
    current generation and from an agent of the population. *)
Theorem moralRepair_ledgers_only (cfg : SimConfig) (gen : nat) (ags : list loc)
    (w : World) (rng : Rng) :
  let w' := fst (moralRepair cfg gen ags w rng) in
  (forall l, set_relationalLedger (heap w' l) (relationalLedger (heap w l))
             = heap w l) /\
  (forall l, ~ In l ags -> heap w' l = heap w l) /\
  (forall l k,
     map_get k (relationalLedger (heap w' l))
     = map_get k (relationalLedger (heap w l)) \/
     map_get k (relationalLedger (heap w' l)) = Some repaired) /\
  (exists es, obligationLog w' = obligationLog w ++ es /\
              Forall (repair_record gen ags (heap w)) es).
Proof.
  cbv zeta. unfold moralRepair.
  destruct (moralRepair_pass cfg gen ags ags (incl_refl _) w rng)
    as [Hs [Hf [Ho He]]].
  split; [exact Hf|]. split; [exact Ho|]. split; [exact Hs | exact He].
Qed.

Lemma repair_entry_off cfg gen l w e rng :
  (repairChance cfg <= 0)%Q -> fst (repair_entry cfg gen l w e rng) = w.
Proof.
  intros Hc. unfold repair_entry. destruct e as [k st].
  destruct (status_eqb st denied || status_eqb st expired); [|reflexivity].
  unfold random0, bind, draw, ret. cbn beta iota zeta. cbn [fst snd draws cursor].
  destruct (unit_value_bounds (draws rng (cursor rng))) as [H0 _].
  assert (Hf : Qltb (unit_value (draws rng (cursor rng))) (repairChance cfg) = false).
  { apply Qltb_ge. lra. }
  rewrite Hf. reflexivity.
Qed.

Lemma repair_entry_sure cfg gen l w k st rng :
  (1 <= repairChance cfg)%Q -> st = denied \/ st = expired ->
  map_get k (relationalLedger (heap (fst (repair_entry cfg gen l w (k, st) rng)) l))
  = Some repaired.
Proof.
  intros Hc Hst. unfold repair_entry.
  assert (Hb : status_eqb st denied || status_eqb st expired = true).
  { destruct Hst as [-> | ->]; reflexivity. }
  rewrite Hb. unfold random0, bind, draw, ret. cbn beta iota zeta. cbn [fst snd draws cursor].
  destruct (unit_value_bounds (draws rng (cursor rng))) as [_ H1].
  assert (Ht : Qltb (unit_value (draws rng (cursor rng))) (repairChance cfg) = true).
  { apply Qltb_lt. lra. }
  rewrite Ht. cbn [fst log_push with_heap heap].
  rewrite modify_eq. unfold ledger_set. simpl. apply map_get_set_eq.
Qed.

Lemma softens_keeps h h' l k :
  softens h h' -> map_get k (relationalLedger (h l)) = Some repaired ->
  map_get k (relationalLedger (h' l)) = Some repaired.
Proof. intros Hs H. destruct (Hs l k) as [E | E]; congruence. Qed.

Lemma softens_reconciled h h' l : softens h h' -> reconciled h l -> reconciled h' l.
Proof.
  intros Hs Hr k. destruct (Hs l k) as [E | E]; rewrite E.
  - apply Hr.
  - split; discriminate.
Qed.

Lemma repair_entries_sure cfg gen l es :
  (1 <= repairChance cfg)%Q -> forall w rng k st,
  In (k, st) es -> st = denied \/ st = expired ->
  map_get k (relationalLedger
               (heap (fst (foldM (repair_entry cfg gen l) es w rng)) l))
  = Some repaired.
Proof.
  intros Hc. induction es as [|[k0 st0] es IH]; intros w rng k st Hin Hst.
  - destruct Hin.
  - rewrite foldM_cons. destruct Hin as [Heq | Hin].
    + inversion Heq; subst k0 st0.
      eapply softens_keeps.
      * destruct (repair_entries_pass cfg gen [l] l es (or_introl eq_refl)
                    (fst (repair_entry cfg gen l w (k, st) rng))
                    (snd (repair_entry cfg gen l w (k, st) rng))) as [Hs _].
        exact Hs.
      * apply repair_entry_sure; assumption.
    + eapply IH; eassumption.
Qed.

Lemma repair_agent_reconciles cfg gen w l rng :
  (1 <= repairChance cfg)%Q ->
  reconciled (heap (fst (repair_agent cfg gen w l rng))) l.
Proof.
  intros Hc k. unfold repair_agent.
  destruct (repair_entries_pass cfg gen [l] l (relationalLedger (heap w l))
              (or_introl eq_refl) w rng) as [Hs _].
  destruct (map_get k (relationalLedger (heap w l))) as [st|] eqn:Hget.
  - destruct (Status_eq_dec st denied) as [-> | Hd].
    { rewrite (repair_entries_sure cfg gen l _ Hc w rng k denied);
        [split; discriminate | apply map_get_In; exact Hget | left; reflexivity]. }
    destruct (Status_eq_dec st expired) as [-> | He].
    { rewrite (repair_entries_sure cfg gen l _ Hc w rng k expired);
        [split; discriminate | apply map_get_In; exact Hget | right; reflexivity]. }
    destruct (Hs l k) as [E | E]; rewrite E.
    + rewrite Hget. split; congruence.
    + split; discriminate.
  - destruct (Hs l k) as [E | E]; rewrite E.
    + rewrite Hget. split; discriminate.
    + split; discriminate.
Qed.

(** X12.  The two extremes of the chance of repair.  With a chance of
    [0] (or below) a pass of moral repair changes nothing at all; with a
    chance of [1] (or above) it leaves no ['denied'] and no ['expired']
    entry in the ledger of any agent of the population. *)
Theorem moralRepair_extremes (cfg : SimConfig) (gen : nat) (ags : list loc)
    (w : World) (rng : Rng) :
  ((repairChance cfg <= 0)%Q -> fst (moralRepair cfg gen ags w rng) = w) /\
  ((1 <= repairChance cfg)%Q ->
   forall l, In l ags ->
     reconciled (heap (fst (moralRepair cfg gen ags w rng))) l).
Proof.
  split.
  - intros Hc. unfold moralRepair. revert w rng.
    induction ags as [|l ags IH]; intros w rng; [reflexivity|].
    rewrite foldM_cons.
    assert (Hes : forall es w rng,
              fst (foldM (repair_entry cfg gen l) es w rng) = w).
    { clear -Hc. induction es as [|e es IHes]; intros w rng; [reflexivity|].
      rewrite foldM_cons, repair_entry_off by exact Hc. apply IHes. }
    assert (Hag : fst (repair_agent cfg gen w l rng) = w).
    { unfold repair_agent. apply Hes. }
    rewrite Hag. apply IH.
  - intros Hc l Hin. unfold moralRepair. revert w rng.
    induction ags as [|l0 ags IH]; intros w rng; [destruct Hin|].
    rewrite foldM_cons. destruct Hin as [-> | Hin].
    + eapply softens_reconciled.
      * destruct (moralRepair_pass cfg gen ags ags (incl_refl _)
                    (fst (repair_agent cfg gen w l rng))
                    (snd (repair_agent cfg gen w l rng))) as [Hs _].
        exact Hs.
      * apply repair_agent_reconciles. exact Hc.
    + apply IH. exact Hin.
Qed.

Lemma moralRepair_extremes_witness :
  (repairChance (with_repairChance SIM_CONFIG 0) <= 0)%Q /\
  fst (moralRepair (with_repairChance SIM_CONFIG 0) 1 [0; 1] aggrieved_world zero_rng)
  = aggrieved_world /\
  (1 <= repairChance (with_repairChance SIM_CONFIG 1))%Q /\
  reconciled
    (heap (fst (moralRepair (with_repairChance SIM_CONFIG 1) 1 [0; 1]
                  aggrieved_world zero_rng))) 0.
Proof.
  assert (H0 : (repairChance (with_repairChance SIM_CONFIG 0) <= 0)%Q)
    by (vm_compute; discriminate).
  assert (H1 : (1 <= repairChance (with_repairChance SIM_CONFIG 1))%Q)
    by (vm_compute; discriminate).
  split; [exact H0|]. split.
  - apply (moralRepair_extremes (with_repairChance SIM_CONFIG 0) 1 [0; 1]
             aggrieved_world zero_rng). exact H0.
  - split; [exact H1|].
    apply (moralRepair_extremes (with_repairChance SIM_CONFIG 1) 1 [0; 1]
             aggrieved_world zero_rng); [exact H1 | left; reflexivity].
Defined.

(** ** New agents and children *)

Lemma bind_eq {A B} (m : M A) (k : A -> M B) (rng : Rng) :
  bind m k rng = k (fst (m rng)) (snd (m rng)).
Proof. unfold bind. destruct (m rng). reflexivity. Qed.

Lemma random2_bounds lo hi rng :
  (lo <= hi)%Q ->
  (lo <= fst (random2 lo hi rng))%Q /\ (fst (random2 lo hi rng) <= hi)%Q.
Proof.
  intros H. unfold random2, bind, draw, ret. cbn [fst].
  destruct (unit_value_bounds (draws rng (cursor rng))) as [H0 H1].
  split; nra.
Qed.

Lemma random_of_nonempty {A} (d : A) (l : list A) (rng : Rng) :
  l <> [] -> In (fst (random_of d l rng)) l.
Proof.
  intros Hne. unfold random_of, bind, draw, ret. cbn [fst].
  apply nth_In.
  pose proof (floor_scaled_le_pred (draws rng (cursor rng)) (length l)) as H.
  destruct l as [|x l]; [congruence|]. simpl in *. lia.
Qed.

Lemma new_Agent_shape cfg i rng :
  exists x y ak pref momentum,
    fst (new_Agent cfg i rng)
    = {| id := i; pos := (x, y); acks := ak;
         normPreference := pref; scenarioGroup := pref;
         affiliation := String.append "pref_" pref;
         trustMap := []; relationalLedger := [];
         obligationAttempts := 0; obligationSuccesses := 0;
         contradictionDebt := 0; internalConflict := 0;
         culturalMomentum := momentum; birthGeneration := 0 |} /\
    ((marginLeft cfg <= canvasWidth cfg - marginRight cfg)%Q ->
     (marginLeft cfg <= x)%Q /\ (x <= canvasWidth cfg - marginRight cfg)%Q) /\
    ((marginTop cfg <= canvasHeight cfg - marginBottom cfg)%Q ->
     (marginTop cfg <= y)%Q /\ (y <= canvasHeight cfg - marginBottom cfg)%Q) /\
    (normTypes cfg <> [] -> In pref (normTypes cfg)) /\
    (normTypes cfg = [] -> pref = "undefined") /\
    ((3 # 10) <= momentum)%Q /\ (momentum <= 1)%Q.
Proof.
  unfold new_Agent. rewrite !bind_eq. unfold ret. cbn [fst].
  do 5 eexists. split; [reflexivity|].
  split; [apply random2_bounds|].
  split; [apply random2_bounds|].
  split; [apply random_of_nonempty|].
  split.
  { intros Hn. rewrite Hn. unfold random_of, bind, draw, ret. cbn [fst].
    apply nth_overflow. simpl. lia. }
  apply random2_bounds. lra.
Qed.


(** X13.  A newly constructed agent carries the given id, empty trust
    map and ledger, zero counters, debt and conflict, and birth generation
    [0]; its scenario group is its norm preference and its affiliation is
    [pref_] followed by the preference; the preference is one of the norm
    types (the string [undefined] only when there are none); its cultural
    momentum lies between [0.3] and [1]; and if the margins leave room on
    the canvas, its position lies inside them. *)
Theorem new_Agent_fresh (cfg : SimConfig) (i : nat) (rng : Rng) :
  let a := fst (new_Agent cfg i rng) in
  id a = i /\ trustMap a = [] /\ relationalLedger a = [] /\
  obligationAttempts a = 0 /\ obligationSuccesses a = 0 /\
  contradictionDebt a = 0 /\ internalConflict a = 0 /\ birthGeneration a = 0 /\
  scenarioGroup a = normPreference a /\
  affiliation a = String.append "pref_" (normPreference a) /\
  (normTypes cfg <> [] -> In (normPreference a) (normTypes cfg)) /\
  (normTypes cfg = [] -> normPreference a = "undefined") /\
  ((3 # 10) <= culturalMomentum a)%Q /\ (culturalMomentum a <= 1)%Q /\
  ((marginLeft cfg <= canvasWidth cfg - marginRight cfg)%Q ->
   (marginLeft cfg <= fst (pos a))%Q /\
   (fst (pos a) <= canvasWidth cfg - marginRight cfg)%Q) /\
  ((marginTop cfg <= canvasHeight cfg - marginBottom cfg)%Q ->
   (marginTop cfg <= snd (pos a))%Q /\
   (snd (pos a) <= canvasHeight cfg - marginBottom cfg)%Q).
Proof.
  cbv zeta.
  destruct (new_Agent_shape cfg i rng)
    as [x [y [ak [pref [m [-> [Hx [Hy [Hin [Hun [Hm0 Hm1]]]]]]]]]]].
  cbn [id trustMap relationalLedger obligationAttempts obligationSuccesses
       contradictionDebt internalConflict birthGeneration scenarioGroup
       normPreference affiliation culturalMomentum pos fst snd].
  split; [reflexivity|]. split; [reflexivity|]. split; [reflexivity|].
  split; [reflexivity|]. split; [reflexivity|]. split; [reflexivity|].
  split; [reflexivity|]. split; [reflexivity|]. split; [reflexivity|].
  split; [reflexivity|]. split; [exact Hin|]. split; [exact Hun|].
  split; [exact Hm0|]. split; [exact Hm1|]. split; [exact Hx | exact Hy].
Qed.

Lemma new_Agent_fresh_witness :
  (marginLeft SIM_CONFIG <= canvasWidth SIM_CONFIG - marginRight SIM_CONFIG)%Q /\
  (marginLeft SIM_CONFIG <= fst (pos (fst (new_Agent SIM_CONFIG 7 zero_rng))))%Q /\
  In (normPreference (fst (new_Agent SIM_CONFIG 7 zero_rng))) (normTypes SIM_CONFIG).
Proof.
  assert (H : (marginLeft SIM_CONFIG
               <= canvasWidth SIM_CONFIG - marginRight SIM_CONFIG)%Q)
    by (vm_compute; discriminate).
  split; [exact H|].
  destruct (new_Agent_fresh SIM_CONFIG 7 zero_rng)
    as [_ [_ [_ [_ [_ [_ [_ [_ [_ [_ [Hin [_ [_ [_ [Hx _]]]]]]]]]]]]]]].
  split; [apply Hx; exact H | apply Hin; discriminate].
Defined.

Lemma inherit_ack_other rate parent ak n n' rng :
  n' <> n -> fst (inherit_ack rate parent ak n rng) !! n' = ak !! n'.
Proof.
  intros Hne. unfold inherit_ack. rewrite bind_eq.
  destruct (Qltb _ _).
  - unfold ret. cbn [fst]. destruct (acks parent !! n).
    + apply lookup_insert_ne. congruence.
    + apply lookup_delete_ne. congruence.
  - rewrite bind_eq. unfold ret. cbn [fst]. apply lookup_insert_ne. congruence.
Qed.

Lemma inherit_ack_exact rate parent ak n rng :
  (rate <= 0)%Q -> fst (inherit_ack rate parent ak n rng) !! n = acks parent !! n.
Proof.
  intros Hr. unfold inherit_ack. rewrite bind_eq.
  assert (Ht : Qltb (fst (random0 rng)) (1 - rate) = true).
  { apply Qltb_lt. unfold random0, bind, draw, ret. cbn [fst].
    destruct (unit_value_bounds (draws rng (cursor rng))) as [_ H1]. lra. }
  rewrite Ht. unfold ret. cbn [fst]. destruct (acks parent !! n) eqn:E.
  - apply lookup_insert_eq.
  - apply lookup_delete_eq.
Qed.

Lemma inherit_acks_exact rate parent ns n :
  (rate <= 0)%Q -> In n ns -> forall ak rng,
  fst (foldM (inherit_ack rate parent) ns ak rng) !! n = acks parent !! n.
Proof.
  intros Hr. induction ns as [|n0 ns IH]; intros Hin ak rng; [destruct Hin|].
  rewrite foldM_cons.
  destruct (in_dec String.string_dec n ns) as [Hi | Hni].
  - apply IH. exact Hi.
  - destruct Hin as [-> | Hin]; [|contradiction].
    clear IH.
    assert (Hkeep : forall ns', ~ In n ns' -> forall ak rng,
              fst (foldM (inherit_ack rate parent) ns' ak rng) !! n = ak !! n).
    { induction ns' as [|m ns' IH']; intros Hn ak' rng'; [reflexivity|].
      rewrite foldM_cons, IH'.
      - apply inherit_ack_other. intros ->. apply Hn. left. reflexivity.
      - intros Hin'. apply Hn. right. exact Hin'. }
    rewrite Hkeep by exact Hni. apply inherit_ack_exact. exact Hr.
Qed.

Lemma constrain_bounds x lo hi :
  (lo <= hi)%Q -> (lo <= constrain x lo hi)%Q /\ (constrain x lo hi <= hi)%Q.
Proof.
  intros H. unfold constrain.
  destruct (Qltb x lo) eqn:E1; [split; lra|].
  apply Qltb_ge in E1.
  destruct (Qltb hi x) eqn:E2; [split; lra|].
  apply Qltb_ge in E2. split; lra.
Qed.

Lemma constrain_near x p lo hi :
  (lo <= p)%Q -> (p <= hi)%Q ->
  (p - (1 # 10) <= x)%Q -> (x <= p + (1 # 10))%Q ->
  (p - (1 # 10) <= constrain x lo hi)%Q /\ (constrain x lo hi <= p + (1 # 10))%Q.
Proof.
  intros H1 H2 H3 H4. unfold constrain.
  destruct (Qltb x lo) eqn:E1; [apply Qltb_lt in E1; split; lra|].
  destruct (Qltb hi x) eqn:E2; [apply Qltb_lt in E2; split; lra|].
  split; lra.
Qed.

(** X14.  A child is a new agent with the given id and the current
    generation as birth generation, with empty trust map and ledger and
    zero counters; it takes over the scenario group and the affiliation of
    its parent as they are.  Its cultural momentum lies between [0.1] and
    [1], and within [0.1] of the parent's when that lies in the same range
    and is not zero.  Its norm preference is the parent's or one of the
    norm types, and the parent's for sure when the chance of inheritance
    is [1]; and when the mutation rate is [0] (or below) it acknowledges
    every norm type exactly as the parent does. *)
Theorem make_child_inherits (cfg : SimConfig) (gen i : nat) (parent : Agent)
    (rng : Rng) :
  let c := fst (make_child cfg gen i parent rng) in
  let rate := (mutationBase cfg
               + maxConflictMutation cfg * Qnat (internalConflict parent))%Q in
  id c = i /\ birthGeneration c = gen /\
  scenarioGroup c = scenarioGroup parent /\ affiliation c = affiliation parent /\
  trustMap c = [] /\ relationalLedger c = [] /\
  obligationAttempts c = 0 /\ obligationSuccesses c = 0 /\
  contradictionDebt c = 0 /\ internalConflict c = 0 /\
  ((1 # 10) <= culturalMomentum c)%Q /\ (culturalMomentum c <= 1)%Q /\
  ((1 # 10) <= culturalMomentum parent -> culturalMomentum parent <= 1 ->
   culturalMomentum parent - (1 # 10) <= culturalMomentum c /\
   culturalMomentum c <= culturalMomentum parent + (1 # 10))%Q /\
  (normPreference c = normPreference parent \/
   In (normPreference c) (normTypes cfg) \/ normTypes cfg = []) /\
  ((1 <= preferenceInheritance cfg)%Q ->
   normPreference c = normPreference parent) /\
  ((rate <= 0)%Q ->
   forall n, In n (normTypes cfg) -> acks c !! n = acks parent !! n).
Proof.
  cbv zeta. unfold make_child. rewrite !bind_eq. unfold ret. cbn [fst].
  destruct (new_Agent_shape cfg i rng) as [x [y [ak [pref [m [-> _]]]]]].
  cbn [id trustMap relationalLedger obligationAttempts obligationSuccesses
       contradictionDebt internalConflict birthGeneration scenarioGroup
       normPreference affiliation culturalMomentum pos acks].
  split; [reflexivity|]. split; [reflexivity|]. split; [reflexivity|].
  split; [reflexivity|]. split; [reflexivity|]. split; [reflexivity|].
  split; [reflexivity|]. split; [reflexivity|]. split; [reflexivity|].
  split; [reflexivity|].
  split; [apply constrain_bounds; lra|].
  split; [apply constrain_bounds; lra|].
  split.
  { intros Hp0 Hp1.
    match goal with
    | |- context [fst (random2 ?lo ?hi ?r)] =>
        destruct (random2_bounds lo hi r) as [Hj0 Hj1]; [lra|];
        set (j := fst (random2 lo hi r)) in *
    end.
    assert (Hnz : (num_or (culturalMomentum parent) (5 # 10)
                   == culturalMomentum parent)%Q).
    { unfold num_or. destruct (Qeq_bool (culturalMomentum parent) 0) eqn:E;
        [|reflexivity].
      apply Qeq_bool_iff in E. lra. }
    apply constrain_near; lra. }
  split.
  { match goal with
    | |- context [Qltb ?u (preferenceInheritance cfg)] =>
        destruct (Qltb u (preferenceInheritance cfg))
    end.
    - left. reflexivity.
    - destruct (normTypes cfg) as [|n0 ns] eqn:En; [right; right; reflexivity|].
      right. left. rewrite <- En. apply random_of_nonempty. rewrite En. discriminate. }
  split.
  { intros Hp.
    match goal with
    | |- context [Qltb (fst (random0 ?r)) (preferenceInheritance cfg)] =>
        assert (Ht : Qltb (fst (random0 r)) (preferenceInheritance cfg) = true)
    end.
    { apply Qltb_lt. unfold random0, bind, draw, ret. cbn [fst].
      match goal with
      | |- (unit_value ?d < _)%Q => destruct (unit_value_bounds d) as [_ H1]
      end. lra. }
    rewrite Ht. reflexivity. }
  intros Hr n Hin. apply inherit_acks_exact; assumption.
Qed.

Lemma make_child_inherits_witness :
  ((1 # 10) <= culturalMomentum (blank_agent 0 (0%Q, 0%Q) all_acks "pref_legal"))%Q /\
  (culturalMomentum (blank_agent 0 (0%Q, 0%Q) all_acks "pref_legal") <= 1)%Q /\
  (culturalMomentum
     (fst (make_child SIM_CONFIG 3 9
             (blank_agent 0 (0%Q, 0%Q) all_acks "pref_legal") zero_rng))
   <= culturalMomentum (blank_agent 0 (0%Q, 0%Q) all_acks "pref_legal")
      + (1 # 10))%Q.
Proof.
  assert (H0 : ((1 # 10)
                <= culturalMomentum (blank_agent 0 (0%Q, 0%Q) all_acks "pref_legal"))%Q)
    by (vm_compute; discriminate).
  assert (H1 : (culturalMomentum (blank_agent 0 (0%Q, 0%Q) all_acks "pref_legal")
                <= 1)%Q)
    by (vm_compute; discriminate).
  split; [exact H0|]. split; [exact H1|].
  destruct (make_child_inherits SIM_CONFIG 3 9
              (blank_agent 0 (0%Q, 0%Q) all_acks "pref_legal") zero_rng)
    as [_ [_ [_ [_ [_ [_ [_ [_ [_ [_ [_ [_ [Hm _]]]]]]]]]]]]].
  apply Hm; [exact H0 | exact H1].
Defined.

(** ** The stages of a generation step *)

Lemma evolveGeneration_stages cfg s rng :
  let h0 := heap (world s) in
  let alive :=
    fst (filterM (fun l => survives cfg (generation s) (h0 l)) (agents s) rng) in
  let rng1 :=
    snd (filterM (fun l => survives cfg (generation s) (h0 l)) (agents s) rng) in
  let h1 := fold_left (fun h l => modify h l updateConflictAndDebt) alive h0 in
  exists rng2 rng3 rng4,
    let h2 := fst (foldM (drift cfg) alive h1 rng2) in
    let h3 := updateScenarios cfg alive h2 in
    let h4 := updateAffiliations alive (rebuild_agentMap alive h1) h3 in
    let h5 := snd (updateGroupDynamics alive h4) in
    let h6 := fold_left (fun h l => modify h l updateConflictAndDebt) alive h5 in
    let w6 := with_heap (world s) h6 in
    let w7 := if enableMoralRepair s
              then fst (moralRepair cfg (S (generation s)) alive w6 rng3)
              else w6 in
    let n := fst (reproduce cfg (S (generation s)) alive
                    (mkNursery (heap w7) (nextLoc s) (globalAgentIndex s) [])
                    rng4) in
    fst (evolveGeneration cfg s rng)
    = {| world := with_heap w7 (n_heap n);
         agents := alive ++ offspring n;
         obligationVectors :=
           fst (generateObligations cfg (frameCount s) (hostilePairs s) h1 alive rng1);
         metricsLog :=
           metricsLog s ++ [compute_metrics (map h6 alive) (S (generation s))];
         generation := S (generation s);
         globalAgentIndex := n_index n;
         nextLoc := n_nextLoc n;
         agentMap := rebuild_agentMap alive h1;
         hostilePairs := fst (updateGroupDynamics alive h4);
         enableMoralRepair := enableMoralRepair s;
         frameCount := frameCount s |}.
Proof.
  cbv zeta. unfold evolveGeneration. rewrite !bind_eq.
  set (alive := fst (filterM _ (agents s) rng)).
  set (rng1 := snd (filterM _ (agents s) rng)).
  set (h1 := fold_left _ alive (heap (world s))).
  set (g := generateObligations cfg (frameCount s) (hostilePairs s) h1 alive rng1).
  exists (snd g).
  set (d := foldM (drift cfg) alive h1 (snd g)).
  destruct (updateGroupDynamics alive _) as [hostile' h5] eqn:Hu.
  unfold logGeneration. cbv zeta. rewrite !bind_eq.
  exists (snd d).
  destruct (enableMoralRepair s).
  - eexists. unfold ret. cbn [fst snd]. reflexivity.
  - eexists. unfold ret. cbn [fst snd]. reflexivity.
Qed.


(** *** Death *)

Lemma survives_eq cfg gen a rng :
  fst (survives cfg gen a rng)
  = negb (Qltb (unit_value (draws rng (cursor rng)))
            (deathBaseRate cfg
             + Qmin (Qnat (internalConflict a) * deathConflictWeight cfg) (1 # 10)
             + (if Nat.ltb (deathAgeThreshold cfg) (gen - birthGeneration a)
                then deathOldAgeBoost cfg
                     * Qnat (gen - birthGeneration a - deathAgeThreshold cfg)
                else 0))%Q).
Proof. reflexivity. Qed.

Lemma doomed_dies cfg gen a rng :
  doomed cfg gen a -> fst (survives cfg gen a rng) = false.
Proof.
  intros [Hw [Hage Hsure]]. rewrite survives_eq.
  apply Nat.ltb_lt in Hage. rewrite Hage.
  apply negb_false_iff, Qltb_lt.
  destruct (unit_value_bounds (draws rng (cursor rng))) as [_ H1].
  assert (Hmin : (0 <= Qmin (Qnat (internalConflict a) * deathConflictWeight cfg)
                          (1 # 10))%Q).
  { apply Q.min_glb; [|lra].
    apply Qmult_le_0_compat; [apply Qnat_nonneg | exact Hw]. }
  lra.
Qed.

Lemma filterM_kept {A} (f : A -> M bool) (l : list A) : forall rng x,
  In x (fst (filterM f l rng)) -> exists rng', fst (f x rng') = true.
Proof.
  induction l as [|a l IH]; intros rng x; simpl; [tauto|].
  rewrite !bind_eq. unfold ret. cbn [fst].
  destruct (fst (f a rng)) eqn:Hk.
  - intros [<- | Hin]; [exists rng; exact Hk | eapply IH; exact Hin].
  - intros Hin. eapply IH; exact Hin.
Qed.

(** X15.  The death filter.  An agent no older than the age threshold
    survives whenever the draw is at least the base rate plus [0.1],
    whatever its conflict: conflict adds at most [0.1] to the chance of
    death; without conflict such an agent dies exactly when the draw is
    below the base rate.  Past the threshold the chance grows with age
    without bound, so that once
    [deathBaseRate + deathOldAgeBoost * (age - deathAgeThreshold) >= 1]
    the agent dies whatever the draw, and no such agent is among the
    survivors of the filter. *)
Theorem survives_bounds (cfg : SimConfig) (gen : nat) (a : Agent) (rng : Rng) :
  let age := gen - birthGeneration a in
  let u := unit_value (draws rng (cursor rng)) in
  (age <= deathAgeThreshold cfg -> (deathBaseRate cfg + (1 # 10) <= u)%Q ->
   fst (survives cfg gen a rng) = true) /\
  (age <= deathAgeThreshold cfg -> internalConflict a = 0 ->
   fst (survives cfg gen a rng) = negb (Qltb u (deathBaseRate cfg))) /\
  (doomed cfg gen a -> fst (survives cfg gen a rng) = false) /\
  (forall (h : Heap) (ags : list loc) (l : loc),
     In l (fst (filterM (fun l => survives cfg gen (h l)) ags rng)) ->
     In l ags /\ ~ doomed cfg gen (h l)).
Proof.
  cbv zeta. split; [|split; [|split]].
  - intros Hage Hu. rewrite survives_eq.
    apply Nat.ltb_ge in Hage. rewrite Hage.
    apply negb_true_iff, Qltb_ge.
    pose proof (Q.le_min_r (Qnat (internalConflict a) * deathConflictWeight cfg)
                  (1 # 10)) as Hmin.
    lra.
  - intros Hage Hc. rewrite survives_eq.
    apply Nat.ltb_ge in Hage. rewrite Hage, Hc.
    f_equal. apply Qltb_comp; [reflexivity|].
    assert (Hz : (Qnat 0 * deathConflictWeight cfg == 0)%Q).
    { unfold Qnat. simpl. ring. }
    rewrite Hz. rewrite Q.min_l by lra. ring.
  - apply doomed_dies.
  - intros h ags l Hin. split; [eapply filterM_In; exact Hin|].
    intros Hd. apply filterM_kept in Hin. destruct Hin as [rng' Hk].
    rewrite doomed_dies in Hk by exact Hd. discriminate.
Qed.

Lemma survives_bounds_witness :
  doomed SIM_CONFIG 30 (blank_agent 0 (0%Q, 0%Q) all_acks "pref_legal") /\
  fst (survives SIM_CONFIG 30 (blank_agent 0 (0%Q, 0%Q) all_acks "pref_legal")
         zero_rng) = false.
Proof.
  assert (H : doomed SIM_CONFIG 30 (blank_agent 0 (0%Q, 0%Q) all_acks "pref_legal")).
  { unfold doomed. split; [vm_compute; discriminate|].
    split; [vm_compute; lia | vm_compute; discriminate]. }
  split; [exact H|].
  apply (survives_bounds SIM_CONFIG 30
           (blank_agent 0 (0%Q, 0%Q) all_acks "pref_legal") zero_rng).
  exact H.
Defined.

(** X16.  Extinction is final.  A generation step on an empty population
    leaves it empty: no agent and no obligation is created, the world and
    the random source are as before, and the metrics logged for the new
    generation count nothing.  (Here and below a generation step is
    [evolveGeneration] short of the reset with which it ends a batch
    run.) *)
Theorem extinction_is_final (cfg : SimConfig) (s : Sim) (rng : Rng) :
  agents s = [] ->
  let s' := fst (evolveGeneration cfg s rng) in
  agents s' = [] /\ obligationVectors s' = [] /\
  heap (world s') = heap (world s) /\
  obligationLog (world s') = obligationLog (world s) /\
  generation s' = S (generation s) /\
  globalAgentIndex s' = globalAgentIndex s /\
  metricsLog s' = metricsLog s ++ [compute_metrics [] (S (generation s))] /\
  totalObligationsIssued (compute_metrics [] (S (generation s))) = 0 /\
  snd (evolveGeneration cfg s rng) = rng.
Proof.
  intros Hnil. cbv zeta. unfold evolveGeneration. rewrite Hnil.
  cbn [filterM]. unfold ret at 1. rewrite bind_eq. cbn [fst snd fold_left].
  destruct (enableMoralRepair s); vm_compute; repeat split.
Qed.

Lemma extinction_is_final_witness :
  agents (mkSim quiet_world [] [] [] 3 5 5 [] ∅ true 0) = [] /\
  agents (fst (evolveGeneration SIM_CONFIG
                 (mkSim quiet_world [] [] [] 3 5 5 [] ∅ true 0) zero_rng)) = [].
Proof.
  split; [reflexivity|].
  apply (extinction_is_final SIM_CONFIG
           (mkSim quiet_world [] [] [] 3 5 5 [] ∅ true 0) zero_rng).
  reflexivity.
Defined.


(** *** What a generation step keeps of the agents *)

Lemma pass_keeps_refl a : pass_keeps a a.
Proof. unfold pass_keeps. repeat split. Qed.

Lemma pass_keeps_trans a b c : pass_keeps a b -> pass_keeps b c -> pass_keeps a c.
Proof.
  unfold pass_keeps.
  intros [a1 [a2 [a3 [a4 [a5 [a6 [a7 [a8 a9]]]]]]]]
         [b1 [b2 [b3 [b4 [b5 [b6 [b7 [b8 b9]]]]]]]].
  split; [congruence|]. split; [congruence|]. split; [congruence|].
  split; [congruence|]. split; [congruence|]. split; [congruence|].
  split; [congruence|]. split; congruence.
Qed.

Lemma pass_keeps_modify h l f :
  (forall a, pass_keeps a (f a)) -> forall l', pass_keeps (h l') (modify h l f l').
Proof.
  intros Hf l'. unfold modify, upd. destruct (Nat.eqb l' l) eqn:E.
  - apply Nat.eqb_eq in E. subst l'. apply Hf.
  - apply pass_keeps_refl.
Qed.

Lemma pass_keeps_fold {A} (step : Heap -> A -> Heap) (xs : list A) :
  (forall h x l, pass_keeps (h l) (step h x l)) ->
  forall h l, pass_keeps (h l) (fold_left step xs h l).
Proof.
  intros Hstep. induction xs as [|x xs IH]; intros h l.
  - apply pass_keeps_refl.
  - simpl. eapply pass_keeps_trans; [apply Hstep | apply IH].
Qed.

Lemma pass_keeps_foldM {A} (step : Heap -> A -> M Heap) (xs : list A) :
  (forall h x rng l, pass_keeps (h l) (fst (step h x rng) l)) ->
  forall h rng l, pass_keeps (h l) (fst (foldM step xs h rng) l).
Proof.
  intros Hstep. induction xs as [|x xs IH]; intros h rng l.
  - apply pass_keeps_refl.
  - rewrite foldM_cons. eapply pass_keeps_trans; [apply Hstep | apply IH].
Qed.

Lemma recompute_keeps ags h l :
  pass_keeps (h l) (fold_left (fun h l => modify h l updateConflictAndDebt) ags h l).
Proof.
  apply (pass_keeps_fold (fun h l => modify h l updateConflictAndDebt)).
  intros h' x l'. apply pass_keeps_modify.
  intros a. unfold pass_keeps. simpl. repeat split.
Qed.

Lemma drift_keeps cfg ags h rng l :
  pass_keeps (h l) (fst (foldM (drift cfg) ags h rng) l).
Proof.
  apply pass_keeps_foldM. clear. intros h x rng l.
  unfold drift. rewrite bind_eq.
  destruct (Qltb _ _); [|apply pass_keeps_refl].
  rewrite bind_eq. unfold ret. cbn [fst].
  apply pass_keeps_modify. intros a. unfold pass_keeps. simpl. repeat split.
Qed.

Lemma updateScenarios_keeps cfg ags h l :
  pass_keeps (h l) (updateScenarios cfg ags h l).
Proof.
  unfold updateScenarios.
  apply (pass_keeps_fold
           (fun h l => modify h l (fun a => set_scenarioGroup a (classifyScenario cfg a)))).
  intros h' x l'. apply pass_keeps_modify.
  intros a. unfold pass_keeps. simpl. repeat split.
Qed.

Lemma updateAffiliations_keeps ags amap h l :
  pass_keeps (h l) (updateAffiliations ags amap h l).
Proof.
  unfold updateAffiliations.
  match goal with
  | |- pass_keeps _ (fold_left ?step _ _ _) => apply (pass_keeps_fold step)
  end.
  intros h' x l'. cbv zeta. apply pass_keeps_modify.
  intros a. unfold pass_keeps. simpl. repeat split.
Qed.

Lemma apply_merges_keeps gm merges h l :
  pass_keeps (h l) (apply_merges gm merges h l).
Proof.
  unfold apply_merges.
  match goal with
  | |- pass_keeps _ (fold_left ?step _ _ _) => apply (pass_keeps_fold step)
  end.
  intros h' [from to] l'.
  match goal with
  | |- pass_keeps _ (fold_left ?step _ _ _) => apply (pass_keeps_fold step)
  end.
  intros h'' x l''. apply pass_keeps_modify.
  intros a. unfold pass_keeps. simpl. repeat split.
Qed.

Lemma make_child_id cfg gen i parent rng :
  id (fst (make_child cfg gen i parent rng)) = i /\
  birthGeneration (fst (make_child cfg gen i parent rng)) = gen.
Proof.
  unfold make_child. rewrite !bind_eq. unfold ret. cbn [fst].
  destruct (new_Agent_shape cfg i rng) as [x [y [ak [pref [m [-> _]]]]]].
  split; reflexivity.
Qed.

(** The nursery after the loop over the parents: the offspring are the
    next objects, with the next ids, born in this generation; the objects
    allocated before are untouched. *)
Lemma reproduce_nursery cfg gen pop ps : forall n rng,
  let n' := fst (foldM (reproduce_one cfg gen pop) ps n rng) in
  exists k,
    offspring n' = offspring n ++ seq (n_nextLoc n) k /\
    n_nextLoc n' = n_nextLoc n + k /\
    n_index n' = n_index n + k /\
    (forall l, l < n_nextLoc n -> n_heap n' l = n_heap n l) /\
    (forall j, j < k ->
       id (n_heap n' (n_nextLoc n + j)) = n_index n + j /\
       birthGeneration (n_heap n' (n_nextLoc n + j)) = gen).
Proof.
  induction ps as [|p ps IH]; intros n rng; cbv zeta.
  - exists 0. simpl. rewrite app_nil_r, !Nat.add_0_r.
    split; [reflexivity|]. split; [reflexivity|]. split; [reflexivity|].
    split; [reflexivity|]. intros j Hj. lia.
  - rewrite foldM_cons.
    set (n1 := fst (reproduce_one cfg gen pop n p rng)).
    set (rng1 := snd (reproduce_one cfg gen pop n p rng)).
    destruct (IH n1 rng1) as [k [Ho [Hl [Hi [Hh Hid]]]]].
    assert (Hcase : n1 = n \/
              (offspring n1 = offspring n ++ [n_nextLoc n] /\
               n_nextLoc n1 = S (n_nextLoc n) /\ n_index n1 = S (n_index n) /\
               (forall l, l < n_nextLoc n -> n_heap n1 l = n_heap n l) /\
               id (n_heap n1 (n_nextLoc n)) = n_index n /\
               birthGeneration (n_heap n1 (n_nextLoc n)) = gen)).
    { unfold n1, reproduce_one. rewrite bind_eq.
      destruct (Qltb _ _ && Nat.ltb _ _); [|left; reflexivity].
      right. rewrite bind_eq. unfold ret. cbn [fst offspring n_nextLoc n_index n_heap].
      split; [reflexivity|]. split; [reflexivity|]. split; [reflexivity|].
      split.
      { intros l Hlt. apply upd_ne. lia. }
      rewrite upd_eq. apply make_child_id. }
    destruct Hcase as [Hsame | [Ho1 [Hl1 [Hi1 [Hh1 [Hid1 Hb1]]]]]].
    + rewrite Hsame in *. exists k.
      split; [exact Ho|]. split; [exact Hl|]. split; [exact Hi|].
      split; [exact Hh | exact Hid].
    + exists (S k).
      split.
      { rewrite Ho, Ho1, Hl1, <- app_assoc. reflexivity. }
      split; [rewrite Hl, Hl1; lia|].
      split; [rewrite Hi, Hi1; lia|].
      split.
      { intros l Hlt. rewrite Hh by lia. apply Hh1. exact Hlt. }
      intros j Hj. destruct j as [|j].
      * rewrite Nat.add_0_r. rewrite Hh by lia. rewrite Nat.add_0_r.
        split; [exact Hid1 | exact Hb1].
      * replace (n_nextLoc n + S j) with (n_nextLoc n1 + j) by lia.
        replace (n_index n + S j) with (n_index n1 + j) by lia.
        apply Hid. lia.
Qed.


Lemma filterM_sublist {A} (f : A -> M bool) (l : list A) : forall rng,
  sublist (fst (filterM f l rng)) l.
Proof.
  induction l as [|a l IH]; intros rng; simpl; [constructor|].
  rewrite !bind_eq. unfold ret. cbn [fst].
  destruct (fst (f a rng)); [apply sublist_skip | apply sublist_cons]; apply IH.
Qed.

Lemma sublist_map {A B} (f : A -> B) (l1 l2 : list A) :
  sublist l1 l2 -> sublist (map f l1) (map f l2).
Proof. induction 1; simpl; constructor; assumption. Qed.

Lemma map_seq_shift {B} (f : nat -> B) (g : nat -> B) (k : nat) : forall L I,
  (forall j, j < k -> f (L + j) = g (I + j)) ->
  map f (seq L k) = map g (seq I k).
Proof.
  induction k as [|k IH]; intros L I H; [reflexivity|].
  simpl. f_equal.
  - specialize (H 0). rewrite !Nat.add_0_r in H. apply H. lia.
  - apply IH. intros j Hj. specialize (H (S j)).
    replace (S L + j) with (L + S j) by lia.
    replace (S I + j) with (I + S j) by lia. apply H. lia.
Qed.

(** The store after a generation step, at an object allocated before. *)
Lemma evolveGeneration_heap cfg s rng :
  let s' := fst (evolveGeneration cfg s rng) in
  let alive :=
    fst (filterM (fun l => survives cfg (generation s) (heap (world s) l))
           (agents s) rng) in
  exists h6 w7 k,
    (forall l, pass_keeps (heap (world s) l) (h6 l)) /\
    (enableMoralRepair s = false -> w7 = with_heap (world s) h6) /\
    repair_pass (S (generation s)) alive (with_heap (world s) h6) w7 /\
    obligationLog (world s') = obligationLog w7 /\
    (forall l, l < nextLoc s -> heap (world s') l = heap w7 l) /\
    agents s' = alive ++ seq (nextLoc s) k /\
    nextLoc s' = nextLoc s + k /\
    globalAgentIndex s' = globalAgentIndex s + k /\
    (forall j, j < k ->
       id (heap (world s') (nextLoc s + j)) = globalAgentIndex s + j /\
       birthGeneration (heap (world s') (nextLoc s + j)) = S (generation s)).
Proof.
  cbv zeta.
  destruct (evolveGeneration_stages cfg s rng) as [rng2 [rng3 [rng4 Heq]]].
  cbv zeta in Heq. rewrite Heq. clear Heq.
  set (alive := fst (filterM _ (agents s) rng)).
  set (h1 := fold_left _ alive (heap (world s))).
  set (h2 := fst (foldM (drift cfg) alive h1 rng2)).
  set (h3 := updateScenarios cfg alive h2).
  set (h4 := updateAffiliations alive (rebuild_agentMap alive h1) h3).
  set (h5 := snd (updateGroupDynamics alive h4)).
  set (h6 := fold_left _ alive h5).
  set (w6 := with_heap (world s) h6).
  set (w7 := if enableMoralRepair s
             then fst (moralRepair cfg (S (generation s)) alive w6 rng3) else w6).
  set (n0 := mkNursery (heap w7) (nextLoc s) (globalAgentIndex s) []).
  destruct (reproduce_nursery cfg (S (generation s)) (length alive) alive n0 rng4)
    as [k [Ho [Hl [Hi [Hh Hid]]]]].
  fold (reproduce cfg (S (generation s)) alive n0 rng4) in Ho, Hl, Hi, Hh, Hid.
  set (n := fst (reproduce cfg (S (generation s)) alive n0 rng4)) in *.
  exists h6, w7, k.
  cbn [world agents nextLoc globalAgentIndex with_heap heap obligationLog].
  split.
  { intros l.
    eapply pass_keeps_trans; [apply (recompute_keeps alive)|]. fold h1.
    eapply pass_keeps_trans; [apply (drift_keeps cfg alive h1 rng2)|]. fold h2.
    eapply pass_keeps_trans; [apply (updateScenarios_keeps cfg alive)|]. fold h3.
    eapply pass_keeps_trans;
      [apply (updateAffiliations_keeps alive (rebuild_agentMap alive h1))|].
    fold h4.
    eapply pass_keeps_trans.
    - unfold h5, updateGroupDynamics. cbn [snd]. apply apply_merges_keeps.
    - apply recompute_keeps. }
  split.
  { intros Hoff. unfold w7. rewrite Hoff. reflexivity. }
  split.
  { unfold w7. destruct (enableMoralRepair s); [|apply repair_pass_refl].
    unfold moralRepair. apply moralRepair_pass. apply incl_refl. }
  split; [reflexivity|].
  split; [exact Hh|].
  split; [rewrite Ho; reflexivity|].
  split; [exact Hl|]. split; [exact Hi | exact Hid].
Qed.

(** X17.  What a generation step never changes.  For every agent that
    exists before the step, the id, the position, the acknowledgments,
    the trust map, the two counters of obligations, the cultural momentum
    and the birth generation are as before; every ledger entry keeps its
    value or becomes ['repaired'], and with moral repair switched off the
    ledger is as before.  The obligation log is extended by records of
    repairs only.  (The reset at the end of a batch run is not part of
    the step.) *)
Theorem evolveGeneration_keeps (cfg : SimConfig) (s : Sim) (rng : Rng) (l : loc) :
  l < nextLoc s ->
  let s' := fst (evolveGeneration cfg s rng) in
  let a := heap (world s) l in
  let a' := heap (world s') l in
  id a' = id a /\ pos a' = pos a /\ acks a' = acks a /\
  trustMap a' = trustMap a /\
  obligationAttempts a' = obligationAttempts a /\
  obligationSuccesses a' = obligationSuccesses a /\
  culturalMomentum a' = culturalMomentum a /\
  birthGeneration a' = birthGeneration a /\
  (forall k, map_get k (relationalLedger a') = map_get k (relationalLedger a) \/
             map_get k (relationalLedger a') = Some repaired) /\
  (enableMoralRepair s = false -> relationalLedger a' = relationalLedger a) /\
  (exists es, obligationLog (world s') = obligationLog (world s) ++ es /\
              Forall (fun e => le_status e = repaired /\ le_norm e = "n/a" /\
                               le_generation e = S (generation s)) es).
Proof.
  intros Hl. cbv zeta.
  destruct (evolveGeneration_heap cfg s rng)
    as [h6 [w7 [k [Hk [Hoff [[Hs [Hf [_ [es [Hlog Hes]]]]] [Hlg [Hh _]]]]]]]].
  rewrite (Hh l Hl), Hlg.
  destruct (Hk l) as [k1 [k2 [k3 [k4 [k5 [k6 [k7 [k8 k9]]]]]]]].
  pose proof (Hf l) as Hfl. cbn [with_heap heap] in Hfl.
  assert (Hid : forall {B} (p : Agent -> B),
            (forall a x, p (set_relationalLedger a x) = p a) ->
            p (heap w7 l) = p (h6 l)).
  { intros B p Hp. rewrite <- Hfl. symmetry. apply Hp. }
  split; [rewrite (Hid _ id) by reflexivity; exact k1|].
  split; [rewrite (Hid _ pos) by reflexivity; exact k2|].
  split; [rewrite (Hid _ acks) by reflexivity; exact k3|].
  split; [rewrite (Hid _ trustMap) by reflexivity; exact k4|].
  split; [rewrite (Hid _ obligationAttempts) by reflexivity; exact k6|].
  split; [rewrite (Hid _ obligationSuccesses) by reflexivity; exact k7|].
  split; [rewrite (Hid _ culturalMomentum) by reflexivity; exact k8|].
  split; [rewrite (Hid _ birthGeneration) by reflexivity; exact k9|].
  split.
  { intros key. specialize (Hs l key). cbn [with_heap heap] in Hs.
    rewrite k5 in Hs. exact Hs. }
  split.
  { intros Hno. rewrite (Hoff Hno). cbn [with_heap heap]. exact k5. }
  exists es. split; [exact Hlog|].
  eapply Forall_impl; [exact Hes|].
  intros e [H1 [H2 [H3 _]]]. auto.
Qed.

Lemma evolveGeneration_keeps_witness :
  0 < nextLoc (mkSim quiet_world [0; 1] [] [] 0 2 2 [] ∅ true 0) /\
  trustMap (heap (world (fst (evolveGeneration SIM_CONFIG
                                (mkSim quiet_world [0; 1] [] [] 0 2 2 [] ∅ true 0)
                                zero_rng))) 0)
  = trustMap (heap quiet_world 0).
Proof.
  assert (H : 0 < nextLoc (mkSim quiet_world [0; 1] [] [] 0 2 2 [] ∅ true 0))
    by (simpl; lia).
  split; [exact H|].
  destruct (evolveGeneration_keeps SIM_CONFIG
              (mkSim quiet_world [0; 1] [] [] 0 2 2 [] ∅ true 0) zero_rng 0 H)
    as [_ [_ [_ [Ht _]]]].
  exact Ht.
Defined.

(** X18.  Identities are never reused.  If the agents of a state are
    distinct objects with distinct ids, all below the allocation pointer
    and the id counter, then so are the agents after a generation step.
    The new population consists of agents of the old one and of newborns;
    the newborns are the objects allocated by the step, they take the
    consecutive ids from the old value of the counter on and are born in
    the new generation; the counter advances by their number.  (The reset
    at the end of a batch run is not part of the step.) *)
Theorem evolveGeneration_ids (cfg : SimConfig) (s : Sim) (rng : Rng) :
  ids_wf s ->
  let s' := fst (evolveGeneration cfg s rng) in
  ids_wf s' /\
  (forall l, In l (agents s') ->
     (In l (agents s) /\ l < nextLoc s) \/
     (nextLoc s <= l /\
      id (heap (world s') l) = globalAgentIndex s + (l - nextLoc s) /\
      birthGeneration (heap (world s') l) = S (generation s))) /\
  nextLoc s' - nextLoc s = globalAgentIndex s' - globalAgentIndex s /\
  globalAgentIndex s <= globalAgentIndex s'.
Proof.
  intros [Hnd [Hids Hb]]. cbv zeta.
  destruct (evolveGeneration_heap cfg s rng)
    as [h6 [w7 [k [Hk [_ [[_ [Hf _]] [_ [Hh [Hag [Hl [Hi Hnew]]]]]]]]]]].
  set (s' := fst (evolveGeneration cfg s rng)) in *.
  set (alive := fst (filterM _ (agents s) rng)) in *.
  assert (Hsub : sublist alive (agents s)) by apply filterM_sublist.
  assert (Hin : forall l, In l alive -> In l (agents s)).
  { intros l. apply filterM_In. }
  assert (Hid : forall l, l < nextLoc s ->
            id (heap (world s') l) = id (heap (world s) l)).
  { intros l Hlt. rewrite (Hh l Hlt).
    pose proof (Hf l) as Hfl. cbn [with_heap heap] in Hfl.
    destruct (Hk l) as [k1 _]. rewrite <- k1. rewrite <- Hfl. reflexivity. }
  split; [|split; [|split]].
  - split; [|split].
    + rewrite Hag. apply NoDup_app. split; [exact (sublist_NoDup _ _ Hnd Hsub)|].
      split; [|apply NoDup_seq].
      intros x Hx Hx'. apply list_elem_of_In in Hx. apply elem_of_seq in Hx'.
      destruct (Hb x (Hin x Hx)) as [Hlt _]. lia.
    + rewrite Hag, map_app. apply NoDup_app.
      assert (Hmap : map (fun l => id (heap (world s') l)) alive
                     = map (fun l => id (heap (world s) l)) alive).
      { apply map_ext_in. intros l Hl'. apply Hid.
        destruct (Hb l (Hin l Hl')) as [Hlt _]. exact Hlt. }
      assert (Hkids : map (fun l => id (heap (world s') l)) (seq (nextLoc s) k)
                      = seq (globalAgentIndex s) k).
      { rewrite <- (map_id (seq (globalAgentIndex s) k)).
        apply map_seq_shift. intros j Hj. destruct (Hnew j Hj) as [H _]. exact H. }
      rewrite Hmap, Hkids.
      split; [eapply sublist_NoDup; [exact Hids | apply sublist_map; exact Hsub]|].
      split; [|apply NoDup_seq].
      intros x Hx Hx'. apply list_elem_of_In in Hx. apply elem_of_seq in Hx'.
      apply in_map_iff in Hx. destruct Hx as [l [<- Hl']].
      destruct (Hb l (Hin l Hl')) as [_ Hlt]. lia.
    + intros l Hl'. rewrite Hag in Hl'. apply in_app_or in Hl'.
      rewrite Hl, Hi. destruct Hl' as [Hl' | Hl'].
      * destruct (Hb l (Hin l Hl')) as [H1 H2].
        rewrite Hid by exact H1. lia.
      * apply in_seq in Hl'.
        destruct (Hnew (l - nextLoc s)) as [H _]; [lia|].
        replace (nextLoc s + (l - nextLoc s)) with l in H by lia.
        rewrite H. lia.
  - intros l Hl'. rewrite Hag in Hl'. apply in_app_or in Hl'.
    destruct Hl' as [Hl' | Hl'].
    + left. split; [apply Hin; exact Hl'|].
      destruct (Hb l (Hin l Hl')) as [H1 _]. exact H1.
    + right. apply in_seq in Hl'.
      destruct (Hnew (l - nextLoc s)) as [H1 H2]; [lia|].
      replace (nextLoc s + (l - nextLoc s)) with l in H1, H2 by lia.
      split; [lia|]. split; assumption.
  - rewrite Hl, Hi. lia.
  - rewrite Hi. lia.
Qed.

Lemma evolveGeneration_ids_witness :
  ids_wf (mkSim quiet_world [0; 1] [] [] 0 2 2 [] ∅ true 0) /\
  ids_wf (fst (evolveGeneration SIM_CONFIG
                 (mkSim quiet_world [0; 1] [] [] 0 2 2 [] ∅ true 0) zero_rng)).
Proof.
  assert (H : ids_wf (mkSim quiet_world [0; 1] [] [] 0 2 2 [] ∅ true 0)).
  { unfold ids_wf. cbn [agents world nextLoc globalAgentIndex].
    assert (Hnd : NoDup [0; 1]).
    { apply NoDup_ListNoDup.
      constructor; [intros [E | []]; discriminate|].
      constructor; [intros []|]. constructor. }
    split; [exact Hnd|].
    split; [exact Hnd|].
    intros l [<- | [<- | []]]; vm_compute; lia. }
  split; [exact H|].
  apply (evolveGeneration_ids SIM_CONFIG
           (mkSim quiet_world [0; 1] [] [] 0 2 2 [] ∅ true 0) zero_rng H).
Defined.


(** ** Runs in which every obligation expires *)


Lemma sample_loop_Forall (P : ObligationVector -> Prop) cfg frame hp h ags first :
  (forall src tgt r1 r2 r3,
     P (fst (new_ObligationVector cfg frame src tgt
               (fst (random2 (2 # 10) 1 r1))
               (fst (random_of "undefined" (normTypes cfg) r2)) r3))) ->
  forall n acc rng,
    Forall P acc ->
    Forall P (fst (sample_loop cfg frame hp h ags first n acc rng)).
Proof.
  intros Hnew. induction n as [|n IH]; intros acc rng Hacc; [exact Hacc|].
  cbn [sample_loop]. rewrite bind_eq. apply IH.
  unfold sample_one. rewrite bind_eq.
  destruct (nearby_of _ _ _ _ _) as [|t0 rest]; [exact Hacc|].
  rewrite !bind_eq. unfold ret. cbn [fst].
  apply Forall_app. split; [exact Hacc|].
  constructor; [apply Hnew | constructor].
Qed.

Lemma generateObligations_Forall (P : ObligationVector -> Prop) cfg frame hp h ags rng :
  (forall src tgt r1 r2 r3,
     P (fst (new_ObligationVector cfg frame src tgt
               (fst (random2 (2 # 10) 1 r1))
               (fst (random_of "undefined" (normTypes cfg) r2)) r3))) ->
  Forall P (fst (generateObligations cfg frame hp h ags rng)).
Proof.
  intros Hnew. unfold generateObligations.
  destruct ags as [|a0 [|a1 rest]]; [constructor | constructor |].
  apply sample_loop_Forall; [exact Hnew | constructor].
Qed.

(** X19.  Every vector that [generateObligations] creates has a strength
    between [0.2] and [1], a norm taken from the norm types (when there
    are any), a maximal age between [expirationBase] and
    [expirationBase + expirationRandom - 1], a spawn frame not before the
    current frame, and starts unanimated and unresolved; it carries none
    of the properties [normType] and [expiration] that [defaultEnforce]
    reads. *)
Theorem generateObligations_attributes (cfg : SimConfig) (frame : nat)
    (hp : gset string) (h : Heap) (ags : list loc) (rng : Rng) :
  Forall (well_drawn cfg frame) (fst (generateObligations cfg frame hp h ags rng)).
Proof.
  apply generateObligations_Forall. intros src tgt r1 r2 r3.
  rewrite new_ObligationVector_eq. cbn [fst]. unfold well_drawn.
  cbn [strength norm maxAge spawnFrame animT resolvedAt normType expiration].
  destruct (random2_bounds (2 # 10) 1 r1) as [H1 H2]; [lra|].
  pose proof (floor_scaled_le_pred (draws r3 (cursor r3)) (expirationRandom cfg)).
  split; [exact H1|]. split; [exact H2|].
  split; [apply random_of_nonempty|].
  split; [lia|]. split; [lia|]. split; [lia|].
  split; [reflexivity|]. split; [reflexivity|]. split; reflexivity.
Qed.




















(** ** The lookup table of agents *)

Lemma rebuild_agentMap_from (h : Heap) (ags : list loc) : forall m i l,
  map_get i (fold_left (fun m l => map_set (id (h l)) l m) ags m) = Some l ->
  (In l ags /\ id (h l) = i) \/ map_get i m = Some l.
Proof.
  induction ags as [|a ags IH]; intros m i l H; [right; exact H|].
  simpl in H. apply IH in H. destruct H as [[Hin Hid] | H].
  - left. split; [right; exact Hin | exact Hid].
  - destruct (Nat.eq_dec i (id (h a))) as [-> | Hne].
    + rewrite map_get_set_eq in H. inversion H. subst l.
      left. split; [left; reflexivity | reflexivity].
    + rewrite map_get_set_ne in H by exact Hne. right. exact H.
Qed.

Lemma rebuild_agentMap_skip (h : Heap) (ags : list loc) : forall m i,
  (forall l, In l ags -> id (h l) <> i) ->
  map_get i (fold_left (fun m l => map_set (id (h l)) l m) ags m) = map_get i m.
Proof.
  induction ags as [|a ags IH]; intros m i H; [reflexivity|].
  simpl. rewrite IH.
  - apply map_get_set_ne. intros ->. apply (H a); [left|]; reflexivity.
  - intros l Hin. apply H. right. exact Hin.
Qed.

(** X21.  The lookup table rebuilt from the population maps an id to an
    agent of the population that carries this id, and to nothing when no
    agent of the population carries it (so the ids of the dead are not
    found); when the ids of the population are distinct, every agent is
    found under its id. *)
Theorem rebuild_agentMap_lookup (ags : list loc) (h : Heap) :
  (forall i l, map_get i (rebuild_agentMap ags h) = Some l ->
     In l ags /\ id (h l) = i) /\
  (forall i, (forall l, In l ags -> id (h l) <> i) ->
     map_get i (rebuild_agentMap ags h) = None) /\
  (NoDup (map (fun l => id (h l)) ags) ->
   forall l, In l ags -> map_get (id (h l)) (rebuild_agentMap ags h) = Some l).
Proof.
  unfold rebuild_agentMap. split; [|split].
  - intros i l H. apply rebuild_agentMap_from in H.
    destruct H as [H | H]; [exact H | discriminate].
  - intros i H. rewrite rebuild_agentMap_skip by exact H. reflexivity.
  - generalize (@nil (nat * loc)) as m.
    induction ags as [|a ags IH]; intros m Hnd l Hin; [destruct Hin|].
    simpl in Hnd. apply NoDup_cons in Hnd. destruct Hnd as [Hnot Hnd].
    simpl. destruct (in_dec Nat.eq_dec l ags) as [Hl | Hl].
    + apply IH; assumption.
    + destruct Hin as [-> | Hin]; [|contradiction].
      rewrite rebuild_agentMap_skip.
      * apply map_get_set_eq.
      * intros l' Hl' Heq. apply Hnot. apply list_elem_of_In.
        apply in_map_iff. exists l'. split; assumption.
Qed.

Lemma rebuild_agentMap_lookup_witness :
  NoDup (map (fun l => id (two_agents l)) [0; 1]) /\
  map_get (id (two_agents 1)) (rebuild_agentMap [0; 1] two_agents) = Some 1.
Proof.
  assert (Hnd : NoDup (map (fun l => id (two_agents l)) [0; 1])).
  { apply NoDup_ListNoDup.
    constructor; [intros [E | []]; discriminate|].
    constructor; [intros []|]. constructor. }
  split; [exact Hnd|].
  apply (rebuild_agentMap_lookup [0; 1] two_agents); [exact Hnd|].
  right. left. reflexivity.
Defined.

(** ** The counts of a generation record *)

Lemma count_status_cons (s x : Status) (l : list Status) :
  count_status s (x :: l) = (if status_eqb x s then 1 else 0) + count_status s l.
Proof.
  unfold count_status, status_eqb. rewrite filter_cons.
  destruct (decide (x = s)) as [H | H].
  - rewrite bool_decide_eq_true_2 by exact H. reflexivity.
  - rewrite bool_decide_eq_false_2 by exact H. reflexivity.
Qed.

Lemma count_status_total (l : list Status) :
  length l = count_status pending l + count_status fulfilled l
             + count_status denied l + count_status expired l
             + count_status repaired l.
Proof.
  induction l as [|x l IH]; [reflexivity|].
  rewrite !count_status_cons. simpl length. destruct x; simpl; lia.
Qed.

Lemma tally_entries_counts all a es : forall c,
  let c' := fold_left (tally_entry all a) es c in
  fulfilledCount c' = fulfilledCount c + count_status fulfilled (map snd es) /\
  deniedCount c' = deniedCount c + count_status denied (map snd es) /\
  expiredCount c' = expiredCount c + count_status expired (map snd es) /\
  repairedCount c' = repairedCount c + count_status repaired (map snd es) /\
  interTotal c <= interTotal c' /\ interDenied c <= interDenied c' /\
  interDenied c' + interTotal c <= interTotal c' + interDenied c.
Proof.
  induction es as [|[k st] es IH]; intros c; cbv zeta.
  - simpl. unfold count_status. simpl. lia.
  - change (fold_left (tally_entry all a) ((k, st) :: es) c)
      with (fold_left (tally_entry all a) es (tally_entry all a c (k, st))).
    specialize (IH (tally_entry all a c (k, st))). cbv zeta in IH.
    destruct IH as [H1 [H2 [H3 [H4 [H5 [H6 H7]]]]]].
    change (map snd ((k, st) :: es)) with (st :: map snd es).
    rewrite !count_status_cons.
    rewrite H1, H2, H3, H4.
    unfold tally_entry in *.
    cbn [fulfilledCount deniedCount expiredCount repairedCount interTotal
         interDenied] in *.
    unfold bump in *.
    destruct (match find _ all with Some _ => _ | None => false end);
      destruct st; simpl in *; lia.
Qed.

Lemma list_sum_cons (x : nat) (l : list nat) : list_sum (x :: l) = x + list_sum l.
Proof. reflexivity. Qed.

Lemma tally_agents_counts all l : forall t,
  let t' := fold_left (tally_agent all) l t in
  let count st := list_sum (map (fun a => count_status st
                                            (map_values (relationalLedger a))) l) in
  sumIssued t' = sumIssued t + list_sum (map (fun a => length (relationalLedger a)) l) /\
  sumFulfilled t' = sumFulfilled t + count fulfilled /\
  sumDenied t' = sumDenied t + count denied /\
  sumExpired t' = sumExpired t + count expired /\
  sumRepaired t' = sumRepaired t + count repaired /\
  sumDebt t' = sumDebt t + count denied + count expired /\
  (sumInterDenied t <= sumInterTotal t -> sumInterDenied t' <= sumInterTotal t').
Proof.
  induction l as [|a l IH]; intros t; cbv beta zeta.
  - simpl. repeat split; lia.
  - change (fold_left (tally_agent all) (a :: l) t)
      with (fold_left (tally_agent all) l (tally_agent all t a)).
    specialize (IH (tally_agent all t a)). cbv beta zeta in IH.
    destruct IH as [H1 [H2 [H3 [H4 [H5 [H6 H7]]]]]].
    destruct (tally_entries_counts all a (relationalLedger a)
                (mkTally 0 0 0 0 (sumInterTotal t) (sumInterDenied t)))
      as [E1 [E2 [E3 [E4 [E5 [E6 E7]]]]]].
    cbn [fulfilledCount deniedCount expiredCount repairedCount interTotal
         interDenied] in E1, E2, E3, E4, E5, E6, E7.
    set (c := fold_left (tally_entry all a) (relationalLedger a)
                (mkTally 0 0 0 0 (sumInterTotal t) (sumInterDenied t))) in *.
    assert (P1 : sumIssued (tally_agent all t a)
                 = sumIssued t + length (relationalLedger a)) by reflexivity.
    assert (P2 : sumFulfilled (tally_agent all t a)
                 = sumFulfilled t + fulfilledCount c) by reflexivity.
    assert (P3 : sumDenied (tally_agent all t a)
                 = sumDenied t + deniedCount c) by reflexivity.
    assert (P4 : sumExpired (tally_agent all t a)
                 = sumExpired t + expiredCount c) by reflexivity.
    assert (P5 : sumRepaired (tally_agent all t a)
                 = sumRepaired t + repairedCount c) by reflexivity.
    assert (P6 : sumDebt (tally_agent all t a)
                 = sumDebt t + (deniedCount c + expiredCount c)) by reflexivity.
    assert (P7 : sumInterTotal (tally_agent all t a) = interTotal c) by reflexivity.
    assert (P8 : sumInterDenied (tally_agent all t a) = interDenied c)
      by reflexivity.
    rewrite P1 in H1. rewrite P2 in H2. rewrite P3 in H3. rewrite P4 in H4.
    rewrite P5 in H5. rewrite P6 in H6. rewrite P7, P8 in H7.
    cbn [map]. rewrite !list_sum_cons.
    unfold map_values in *.
    split; [lia|]. split; [lia|]. split; [lia|]. split; [lia|].
    split; [lia|]. split; [lia|].
    intros Hle. apply H7. lia.
Qed.

Lemma distinct_affiliations_size (l : list Agent) : forall (s : gset string),
  size (fold_left
          (fun (s : gset string) (a : Agent) =>
             if truthy (affiliation a) then {[ affiliation a ]} ∪ s else s)
          l s) <= size s + length l.
Proof.
  induction l as [|a l IH]; intros s; simpl; [lia|].
  etransitivity; [apply IH|].
  destruct (truthy (affiliation a)); [|lia].
  rewrite size_union_alt, size_singleton.
  assert (size (s ∖ {[affiliation a]}) <= size s).
  { apply subseteq_size. intros x Hx. apply elem_of_difference in Hx. tauto. }
  lia.
Qed.

(** X22.  The counts of a generation record.  The record carries the
    generation it is given; [totalObligationsIssued] is the number of
    ledger entries of the population, and the four totals count the
    entries of each status, so that the obligations issued are the
    fulfilled, denied, expired and repaired ones together with the
    entries that are ['pending']; [repairEvents] repeats
    [totalRepaired]; [avgDebt] is the number of denied and expired
    entries per agent, whatever [contradictionDebt] the agents carry;
    [avgConflict] lies between [0] and [1]; and there are at most as many
    emergent groups as agents. *)
Theorem logGeneration_counts (all : list Agent) (gen : nat) (lg : list Metrics) :
  let m := fst (logGeneration all gen lg) in
  let count st :=
    list_sum (map (fun a => count_status st (map_values (relationalLedger a))) all) in
  m_generation m = gen /\
  totalObligationsIssued m
  = list_sum (map (fun a => length (relationalLedger a)) all) /\
  totalFulfilled m = count fulfilled /\ totalDenied m = count denied /\
  totalExpired m = count expired /\ totalRepaired m = count repaired /\
  repairEvents m = totalRepaired m /\
  totalObligationsIssued m
  = totalFulfilled m + totalDenied m + totalExpired m + totalRepaired m
    + count pending /\
  avgDebt m = ratio (totalDenied m + totalExpired m) (length all) /\
  (0 <= avgConflict m)%Q /\ (avgConflict m <= 1)%Q /\
  emergentNorms m <= length all.
Proof.
  cbv zeta. unfold logGeneration. cbn [fst]. unfold compute_metrics.
  cbn [m_generation totalObligationsIssued totalFulfilled totalDenied
       totalExpired totalRepaired repairEvents avgDebt avgConflict emergentNorms].
  destruct (tally_agents_counts all all (mkTotals 0 0 0 0 0 0 0 0))
    as [H1 [H2 [H3 [H4 [H5 [H6 H7]]]]]].
  cbn [sumIssued sumFulfilled sumDenied sumExpired sumRepaired sumDebt
       sumInterTotal sumInterDenied] in *.
  set (t := fold_left (tally_agent all) all (mkTotals 0 0 0 0 0 0 0 0)) in *.
  rewrite H1, H2, H3, H4, H5, H6. simpl Nat.add.
  split; [reflexivity|]. split; [reflexivity|]. split; [reflexivity|].
  split; [reflexivity|]. split; [reflexivity|]. split; [reflexivity|].
  split; [reflexivity|].
  split.
  { clear. induction all as [|a all IH]; [reflexivity|].
    cbn [map]. rewrite !list_sum_cons.
    pose proof (count_status_total (map_values (relationalLedger a))) as Ht.
    unfold map_values in Ht at 1. rewrite length_map in Ht.
    lia. }
  split; [reflexivity|].
  split; [apply ratio_bounds; apply H7; lia|].
  split; [apply ratio_bounds; apply H7; lia|].
  unfold distinct_affiliations.
  pose proof (distinct_affiliations_size all ∅) as Hs.
  rewrite size_empty in Hs. exact Hs.
Qed.


(** ** Conflict and debt after a generation step *)

Lemma fold_modify_untouched (f : Heap -> loc -> Agent -> Agent) (ags : list loc)
    (l : loc) : forall h,
  ~ In l ags ->
  fold_left (fun h x => modify h x (f h x)) ags h l = h l.
Proof.
  induction ags as [|a ags IH]; intros h Hl; [reflexivity|].
  simpl. rewrite IH by (intros H; apply Hl; right; exact H).
  apply modify_ne. intros ->. apply Hl. left. reflexivity.
Qed.

Lemma recompute_at (ags : list loc) (l : loc) : forall h,
  In l ags ->
  fold_left (fun h l => modify h l updateConflictAndDebt) ags h l
  = updateConflictAndDebt (h l).
Proof.
  induction ags as [|a ags IH]; intros h Hin; [destruct Hin|].
  simpl. destruct (in_dec Nat.eq_dec l ags) as [Hl | Hl].
  - rewrite IH by exact Hl. destruct (Nat.eq_dec l a) as [-> | Hne].
    + rewrite modify_eq. reflexivity.
    + rewrite modify_ne by exact Hne. reflexivity.
  - destruct Hin as [-> | Hin]; [|contradiction].
    rewrite (fold_modify_untouched (fun _ _ => updateConflictAndDebt)) by exact Hl.
    apply modify_eq.
Qed.

(** X23.  The conflict and the debt with which a survivor leaves a
    generation step are counted on its ledger as it was before the step:
    [internalConflict] is the number of its ['denied'] entries and
    [contradictionDebt] the number of its ['denied'] and ['expired']
    entries then, whatever they were before and although moral repair may
    since have turned some of these entries into ['repaired'].  (The
    reset at the end of a batch run is not part of the step.) *)
Theorem evolveGeneration_recounts (cfg : SimConfig) (s : Sim) (rng : Rng)
    (l : loc) :
  l < nextLoc s -> In l (agents (fst (evolveGeneration cfg s rng))) ->
  let a := heap (world s) l in
  let a' := heap (world (fst (evolveGeneration cfg s rng))) l in
  internalConflict a' = count_status denied (map_values (relationalLedger a)) /\
  contradictionDebt a'
  = count_status denied (map_values (relationalLedger a))
    + count_status expired (map_values (relationalLedger a)).
Proof.
  intros Hlt Hin. cbv zeta.
  destruct (evolveGeneration_stages cfg s rng) as [rng2 [rng3 [rng4 Heq]]].
  cbv zeta in Heq. rewrite Heq in Hin |- *. clear Heq.
  cbn [world agents with_heap heap] in *.
  set (alive := fst (filterM _ (agents s) rng)) in *.
  set (h1 := fold_left _ alive (heap (world s))) in *.
  set (h2 := fst (foldM (drift cfg) alive h1 rng2)) in *.
  set (h3 := updateScenarios cfg alive h2) in *.
  set (h4 := updateAffiliations alive (rebuild_agentMap alive h1) h3) in *.
  set (h5 := snd (updateGroupDynamics alive h4)) in *.
  set (h6 := fold_left (fun h l => modify h l updateConflictAndDebt) alive h5) in *.
  set (w6 := with_heap (world s) h6) in *.
  set (w7 := if enableMoralRepair s
             then fst (moralRepair cfg (S (generation s)) alive w6 rng3)
             else w6) in *.
  set (n0 := mkNursery (heap w7) (nextLoc s) (globalAgentIndex s) []) in *.
  destruct (reproduce_nursery cfg (S (generation s)) (length alive) alive n0 rng4)
    as [k [Ho [_ [_ [Hh _]]]]].
  fold (reproduce cfg (S (generation s)) alive n0 rng4) in Ho, Hh.
  cbn [n0 offspring n_nextLoc n_heap app] in Ho, Hh.
  assert (Hal : In l alive).
  { rewrite Ho in Hin. apply in_app_or in Hin. destruct Hin as [H | H]; [exact H|].
    apply in_seq in H. lia. }
  rewrite (Hh l Hlt).
  assert (Hw7 : repair_pass (S (generation s)) alive w6 w7).
  { unfold w7. destruct (enableMoralRepair s); [|apply repair_pass_refl].
    unfold moralRepair. apply moralRepair_pass. apply incl_refl. }
  destruct Hw7 as [_ [Hf _]]. specialize (Hf l). cbn [w6 with_heap heap] in Hf.
  assert (E1 : internalConflict (heap w7 l) = internalConflict (h6 l)).
  { rewrite <- Hf. reflexivity. }
  assert (E2 : contradictionDebt (heap w7 l) = contradictionDebt (h6 l)).
  { rewrite <- Hf. reflexivity. }
  rewrite E1, E2. unfold h6. rewrite (recompute_at alive l h5 Hal).
  assert (Hled : relationalLedger (h5 l) = relationalLedger (heap (world s) l)).
  { assert (Hk : pass_keeps (heap (world s) l) (h5 l)).
    { eapply pass_keeps_trans; [apply (recompute_keeps alive)|]. fold h1.
      eapply pass_keeps_trans; [apply (drift_keeps cfg alive h1 rng2)|]. fold h2.
      eapply pass_keeps_trans; [apply (updateScenarios_keeps cfg alive)|]. fold h3.
      eapply pass_keeps_trans;
        [apply (updateAffiliations_keeps alive (rebuild_agentMap alive h1))|].
      fold h4. unfold h5, updateGroupDynamics. cbn [snd].
      apply apply_merges_keeps. }
    destruct Hk as [_ [_ [_ [_ [H _]]]]]. exact H. }
  unfold updateConflictAndDebt.
  cbn [internalConflict contradictionDebt set_conflict_debt].
  rewrite Hled. split; reflexivity.
Qed.

Lemma evolveGeneration_recounts_witness :
  0 < nextLoc (mkSim aggrieved_world [0] [] [] 0 4 4 [] ∅ true 0) /\
  In 0 (agents (fst (evolveGeneration (with_repairChance SIM_CONFIG 1)
                       (mkSim aggrieved_world [0] [] [] 0 4 4 [] ∅ true 0)
                       (mkRng (fun _ => mkDraw 1 0) 0)))) /\
  internalConflict
    (heap (world (fst (evolveGeneration (with_repairChance SIM_CONFIG 1)
                         (mkSim aggrieved_world [0] [] [] 0 4 4 [] ∅ true 0)
                         (mkRng (fun _ => mkDraw 1 0) 0)))) 0) = 1.
Proof.
  assert (H : 0 < nextLoc (mkSim aggrieved_world [0] [] [] 0 4 4 [] ∅ true 0))
    by (simpl; lia).
  assert (Hin : In 0 (agents (fst (evolveGeneration (with_repairChance SIM_CONFIG 1)
                       (mkSim aggrieved_world [0] [] [] 0 4 4 [] ∅ true 0)
                       (mkRng (fun _ => mkDraw 1 0) 0))))).
  { vm_compute. left. reflexivity. }
  split; [exact H|]. split; [exact Hin|].
  destruct (evolveGeneration_recounts (with_repairChance SIM_CONFIG 1)
              (mkSim aggrieved_world [0] [] [] 0 4 4 [] ∅ true 0)
              (mkRng (fun _ => mkDraw 1 0) 0) 0 H Hin) as [Hc _].
  exact Hc.
Defined.


(** ** Affiliations *)






(** ** Groups without trust *)

Lemma dict_set_In {V} (k : string) (v : V) (d : list (string * V)) (e : string * V) :
  In e (dict_set k v d) -> e = (k, v) \/ In e d.
Proof.
  induction d as [|[k' v'] d IH]; simpl.
  - intros [<- | []]. left. reflexivity.
  - destruct (String.eqb k k'); simpl.
    + intros [<- | H]; [left; reflexivity | right; right; exact H].
    + intros [<- | H]; [right; left; reflexivity|].
      destruct (IH H) as [-> | H']; [left; reflexivity | right; right; exact H'].
Qed.

Lemma dict_get_In {V} (k : string) (v : V) (d : list (string * V)) :
  dict_get k d = Some v -> In (k, v) d.
Proof.
  induction d as [|[k' v'] d IH]; simpl; [discriminate|].
  destruct (String.eqb k k') eqn:E.
  - apply String.eqb_eq in E. subst. intros H. inversion H. left. reflexivity.
  - intros H. right. apply IH. exact H.
Qed.

Lemma dict_set_key {V} (k : string) (v : V) (d : list (string * V)) (x : string) :
  x = k \/ In x (dict_keys d) -> In x (dict_keys (dict_set k v d)).
Proof.
  unfold dict_keys. induction d as [|[k' v'] d IH]; simpl.
  - intros [-> | []]. left. reflexivity.
  - destruct (String.eqb k k') eqn:E; simpl.
    + apply String.eqb_eq in E. subst k'. intros [-> | [-> | H]]; auto.
    + intros [-> | [-> | H]]; auto.
Qed.

Lemma partition_groups_cover (h : Heap) (ags : list loc) : forall gm0 x,
  In x (dict_keys gm0) \/ (exists a, In a ags /\ affiliation (h a) = x) ->
  In x (dict_keys
          (fold_left
             (fun (gm : list (string * list loc)) (l : loc) =>
                let g := affiliation (h l) in
                dict_set g (default [] (dict_get g gm) ++ [l]) gm)
             ags gm0)).
Proof.
  induction ags as [|a ags IH]; intros gm0 x H; simpl.
  - destruct H as [H | [a [[] _]]]. exact H.
  - apply IH. destruct H as [H | [b [[<- | Hb] Hx]]].
    + left. apply dict_set_key. right. exact H.
    + left. apply dict_set_key. left. symmetry. exact Hx.
    + right. exists b. split; assumption.
Qed.

Lemma partition_groups_members (h : Heap) (Q : loc -> Prop) (ags : list loc) :
  forall gm0,
  (forall a, In a ags -> Q a) ->
  (forall g ms l, In (g, ms) gm0 -> In l ms -> Q l) ->
  forall g ms l,
    In (g, ms)
       (fold_left
          (fun (gm : list (string * list loc)) (l : loc) =>
             let g := affiliation (h l) in
             dict_set g (default [] (dict_get g gm) ++ [l]) gm)
          ags gm0) ->
    In l ms -> Q l.
Proof.
  induction ags as [|a ags IH]; intros gm0 Hags H0 g ms l; simpl; [apply H0|].
  apply IH.
  - intros b Hb. apply Hags. right. exact Hb.
  - intros g' ms' l' Hin Hl'. apply dict_set_In in Hin.
    destruct Hin as [Heq | Hin]; [|eapply H0; eassumption].
    inversion Heq. subst g' ms'. apply in_app_or in Hl'.
    destruct Hl' as [Hl' | [<- | []]]; [|apply Hags; left; reflexivity].
    destruct (dict_get (affiliation (h a)) gm0) as [ms0|] eqn:Hget;
      [|destruct Hl'].
    apply dict_get_In in Hget. eapply H0; eassumption.
Qed.

Lemma trust_links_nonpos (h : Heap) (ms1 ms2 : list loc) :
  (forall a b, In a ms1 -> In b ms2 ->
     (trust_of (trustMap (h a)) (id (h b)) <= 0)%Q) ->
  (fst (trust_links h ms1 ms2) <= 0)%Q.
Proof.
  intros H. unfold trust_links.
  assert (Hgen : forall acc : Q * nat, (fst acc <= 0)%Q ->
            (fst (fold_left
                    (fun (acc : Q * nat) (a : loc) =>
                       fold_left
                         (fun (acc : Q * nat) (b : loc) =>
                            ((fst acc + trust_of (trustMap (h a)) (id (h b)))%Q,
                             S (snd acc)))
                         ms2 acc)
                    ms1 acc) <= 0)%Q).
  { revert H. induction ms1 as [|a ms1 IH]; intros H acc Hacc; [exact Hacc|].
    simpl. apply IH.
    - intros a' b Ha' Hb. apply H; [right; exact Ha' | exact Hb].
    - assert (Hrow : forall bs (acc : Q * nat),
                (forall b, In b bs -> In b ms2) -> (fst acc <= 0)%Q ->
                (fst (fold_left
                        (fun (acc : Q * nat) (b : loc) =>
                           ((fst acc + trust_of (trustMap (h a)) (id (h b)))%Q,
                            S (snd acc)))
                        bs acc) <= 0)%Q).
      { induction bs as [|b bs IHb]; intros acc' Hsub Hacc'; [exact Hacc'|].
        simpl. apply IHb.
        - intros b' Hb'. apply Hsub. right. exact Hb'.
        - simpl.
          pose proof (H a b (or_introl eq_refl) (Hsub b (or_introl eq_refl))).
          lra. }
      apply Hrow; [auto | exact Hacc]. }
  apply Hgen. simpl. lra.
Qed.

Lemma avg_trust_nonpos (h : Heap) (ms1 ms2 : list loc) :
  (forall a b, In a (ms1 ++ ms2) -> In b (ms1 ++ ms2) ->
     (trust_of (trustMap (h a)) (id (h b)) <= 0)%Q) ->
  Qltb (avg_trust h ms1 ms2) hostileThreshold = true.
Proof.
  intros H. apply Qltb_lt. unfold avg_trust, hostileThreshold.
  pose proof (trust_links_nonpos h ms1 ms2) as H1.
  pose proof (trust_links_nonpos h ms2 ms1) as H2.
  destruct (trust_links h ms1 ms2) as [s1 c1].
  destruct (trust_links h ms2 ms1) as [s2 c2].
  cbn [fst] in H1, H2.
  assert (Hs1 : (s1 <= 0)%Q).
  { apply H1. intros a b Ha Hb. apply H; apply in_or_app; auto. }
  assert (Hs2 : (s2 <= 0)%Q).
  { apply H2. intros a b Ha Hb. apply H; apply in_or_app; auto. }
  destruct (Nat.ltb 0 (c1 + c2)) eqn:Hc; [|lra].
  apply Nat.ltb_lt in Hc.
  assert (Hpos : (0 < inject_Z (Z.of_nat (c1 + c2)))%Q).
  { unfold Qlt. simpl. lia. }
  assert (Hdiv : ((s1 + s2) / inject_Z (Z.of_nat (c1 + c2)) <= 0)%Q).
  { apply Qle_shift_div_r; [exact Hpos | lra]. }
  lra.
Qed.

Lemma compare_row_low h g1 rest : forall p,
  (forall g2, In g2 rest ->
     Qltb (avg_trust h (snd g1) (snd g2)) hostileThreshold = true) ->
  let p' := fold_left (fun p g2 => compare_groups h g1 g2 p) rest p in
  plan_merges p' = plan_merges p /\
  (forall key, key ∈ plan_hostile p -> key ∈ plan_hostile p') /\
  (forall g2, In g2 rest -> pair_key (fst g1) (fst g2) ∈ plan_hostile p').
Proof.
  induction rest as [|g rest IH]; intros p Hlow; cbv zeta.
  - simpl. split; [reflexivity|]. split; [auto|]. intros g2 [].
  - simpl.
    assert (Hstep : compare_groups h g1 g p
                    = mkPlan ({[ pair_key (fst g1) (fst g) ]} ∪ plan_hostile p)
                             (plan_merges p)).
    { unfold compare_groups. rewrite (Hlow g (or_introl eq_refl)). reflexivity. }
    rewrite Hstep.
    destruct (IH (mkPlan ({[ pair_key (fst g1) (fst g) ]} ∪ plan_hostile p)
                         (plan_merges p))) as [Hm [Hk Hnew]].
    { intros g2 Hg2. apply Hlow. right. exact Hg2. }
    cbv zeta in Hm, Hk, Hnew. cbn [plan_merges plan_hostile] in Hm, Hk.
    split; [exact Hm|]. split.
    + intros key Hkey. apply Hk. apply elem_of_union. right. exact Hkey.
    + intros g2 [<- | Hg2]; [|apply Hnew; exact Hg2].
      apply Hk. apply elem_of_union. left. apply elem_of_singleton. reflexivity.
Qed.

Lemma compare_all_low h groups : forall p,
  (forall g1 g2, In g1 groups -> In g2 groups ->
     Qltb (avg_trust h (snd g1) (snd g2)) hostileThreshold = true) ->
  let p' := compare_all h groups p in
  plan_merges p' = plan_merges p /\
  (forall key, key ∈ plan_hostile p -> key ∈ plan_hostile p') /\
  (forall g1 g2, In g1 groups -> In g2 groups -> fst g1 <> fst g2 ->
     pair_key (fst g1) (fst g2) ∈ plan_hostile p').
Proof.
  induction groups as [|g rest IH]; intros p Hlow; cbv zeta.
  - simpl. split; [reflexivity|]. split; [auto|]. intros g1 g2 [].
  - simpl.
    destruct (compare_row_low h g rest p) as [Hm [Hk Hrow]].
    { intros g2 Hg2. apply Hlow; [left; reflexivity | right; exact Hg2]. }
    cbv zeta in Hm, Hk, Hrow.
    destruct (IH (fold_left (fun p g2 => compare_groups h g g2 p) rest p))
      as [Hm' [Hk' Hall]].
    { intros g1 g2 H1 H2. apply Hlow; right; assumption. }
    cbv zeta in Hm', Hk', Hall.
    split; [rewrite Hm'; exact Hm|]. split.
    + intros key Hkey. apply Hk', Hk. exact Hkey.
    + intros g1 g2 [<- | H1] [<- | H2] Hne.
      * congruence.
      * apply Hk'. apply Hrow. exact H2.
      * rewrite pair_key_sym. apply Hk'. apply Hrow. exact H1.
      * apply Hall; assumption.
Qed.

(** X25.  Groups without trust are enemies.  When no agent of the
    population has a positive trust score toward another one,
    [updateGroupDynamics] merges nothing, so that the agents are left as
    they are, and it declares every two different affiliation groups of
    the population hostile to each other. *)
Theorem updateGroupDynamics_no_trust (ags : list loc) (h : Heap) :
  no_positive_trust ags h ->
  snd (updateGroupDynamics ags h) = h /\
  (forall a b, In a ags -> In b ags ->
     affiliation (h a) <> affiliation (h b) ->
     hostile (fst (updateGroupDynamics ags h))
             (affiliation (h a)) (affiliation (h b)) = true).
Proof.
  intros Hno. unfold updateGroupDynamics. cbv zeta. cbn [fst snd].
  set (gm := partition_groups ags h).
  assert (Hmem : forall g ms l, In (g, ms) gm -> In l ms -> In l ags).
  { unfold gm, partition_groups.
    apply (partition_groups_members h (fun l => In l ags) ags []).
    - auto.
    - intros g ms l []. }
  assert (Hlow : forall g1 g2, In g1 gm -> In g2 gm ->
            Qltb (avg_trust h (snd g1) (snd g2)) hostileThreshold = true).
  { intros [g1 ms1] [g2 ms2] H1 H2. cbn [snd].
    apply avg_trust_nonpos. intros a b Ha Hb. apply Hno.
    - apply in_app_or in Ha.
      destruct Ha as [Ha | Ha]; [exact (Hmem _ _ _ H1 Ha) | exact (Hmem _ _ _ H2 Ha)].
    - apply in_app_or in Hb.
      destruct Hb as [Hb | Hb]; [exact (Hmem _ _ _ H1 Hb) | exact (Hmem _ _ _ H2 Hb)]. }
  destruct (compare_all_low h gm (mkPlan ∅ []) Hlow) as [Hm [_ Hall]].
  cbv zeta in Hm, Hall. cbn [plan_merges] in Hm.
  split.
  - rewrite Hm. reflexivity.
  - intros a b Ha Hb Hne. unfold hostile. apply bool_decide_eq_true_2.
    assert (Hkey : forall x, In x ags ->
              exists ms, In (affiliation (h x), ms) gm).
    { intros x Hx.
      assert (Hk : In (affiliation (h x)) (dict_keys gm)).
      { unfold gm, partition_groups. apply partition_groups_cover.
        right. exists x. split; [exact Hx | reflexivity]. }
      unfold dict_keys in Hk. apply in_map_iff in Hk.
      destruct Hk as [[g ms] [Hg Hin]]. simpl in Hg. subst g.
      exists ms. exact Hin. }
    destruct (Hkey a Ha) as [ms1 H1]. destruct (Hkey b Hb) as [ms2 H2].
    apply (Hall (affiliation (h a), ms1) (affiliation (h b), ms2) H1 H2).
    exact Hne.
Qed.

Lemma updateGroupDynamics_no_trust_witness :
  no_positive_trust [0; 1] distrustful_agents /\
  hostile (fst (updateGroupDynamics [0; 1] distrustful_agents))
          "pref_legal" "pref_care" = true.
Proof.
  assert (H : no_positive_trust [0; 1] distrustful_agents).
  { intros a b [<- | [<- | []]] [<- | [<- | []]]; vm_compute; discriminate. }
  split; [exact H|].
  destruct (updateGroupDynamics_no_trust [0; 1] distrustful_agents H) as [_ Hh].
  apply (Hh 0 1).
  - left. reflexivity.
  - right. left. reflexivity.
  - discriminate.
Defined.
